(** * The application-session scheduler of fornax-serverless

    A shallow embedding of
    [pkg/fornaxcore/application/application_session.go] and of the API types
    of [pkg/apis/core/v1/applicationsession_types.go].

    - Go structs are records, the [SessionStatus] string enumeration is an
      inductive type, [*T] pointers to sessions are locations of a heap, Go
      maps are [gmap]s and [sets.String] is a [gset string].
    - Instants and durations are integers counting nanoseconds.
    - A nil slice and an empty slice are both the empty list.
    - The handlers run in a state monad over [World]; a nil dereference is
      the failure of that monad.
    - Locks are not modelled: every handler is run to completion. *)

From stdpp Require Import gmap strings list fin_maps.
From Stdlib Require Import ZArith Lia Ascii.

Local Open Scope Z_scope.

(** ** k8s.io/apimachinery/pkg/apis/meta/v1 *)
Module metav1.

(** [metav1.Time]: an instant, in nanoseconds. *)
Definition Time := Z.

(** The part of [ObjectMeta] the scheduler reads. *)
Record ObjectMeta := {
  Name : string;
  Namespace : string;
  UID : string;
  CreationTimestamp : Time;
  DeletionTimestamp : option Time;
  Finalizers : list string
}.

#[global] Instance ObjectMeta_eq_dec : EqDecision ObjectMeta.
Proof. solve_decision. Defined.

End metav1.

(** ** k8s.io/api/core/v1 *)
Module v1.

Record LocalObjectReference := { Name : string }.

Record ContainerPort := {
  PortName : string;
  HostPort : Z;
  ContainerPort_ : Z;
  Protocol : string;
  HostIP : string
}.

Record Container := {
  ContainerName : string;
  Ports : list ContainerPort
}.

Record PodSpec := { Containers : list Container }.

Record Pod := {
  ObjectMeta : metav1.ObjectMeta;
  Spec : PodSpec;
  Phase : string
}.

#[global] Instance LocalObjectReference_eq_dec : EqDecision LocalObjectReference.
Proof. solve_decision. Defined.
#[global] Instance ContainerPort_eq_dec : EqDecision ContainerPort.
Proof. solve_decision. Defined.
#[global] Instance Container_eq_dec : EqDecision Container.
Proof. solve_decision. Defined.
#[global] Instance PodSpec_eq_dec : EqDecision PodSpec.
Proof. solve_decision. Defined.
#[global] Instance Pod_eq_dec : EqDecision Pod.
Proof. solve_decision. Defined.

End v1.

(** ** pkg/apis/core/v1 (applicationsession_types.go) *)
Module fornaxv1.

Record ApplicationSessionSpec := {
  ApplicationName : string;
  SessionData : string;
  KillInstanceWhenSessionClosed : bool;
  CloseGracePeriodSeconds : option Z;
  (* uint32 *)
  OpenTimeoutSeconds : Z
}.

Inductive SessionStatus :=
| SessionStatusUnspecified
| SessionStatusPending
| SessionStatusStarting
| SessionStatusAvailable
| SessionStatusInUse
| SessionStatusClosing
| SessionStatusClosed
| SessionStatusTimeout.

Record AccessEndPoint := {
  Protocol : string;
  IPAddress : string;
  (* int32 *)
  Port : Z
}.

(** [PodReference] is read and written by the scheduler; the field is the
    optional pod name of the data model. *)
Record ApplicationSessionStatus := {
  AccessEndPoints : list AccessEndPoint;
  sessionStatus : SessionStatus;
  ClientSessions : list v1.LocalObjectReference;
  PodReference : option v1.LocalObjectReference;
  AvailableTime : option metav1.Time;
  CloseTime : option metav1.Time;
  AvailableTimeMicro : Z
}.

Record ApplicationSession := {
  ObjectMeta : metav1.ObjectMeta;
  Spec : ApplicationSessionSpec;
  Status : ApplicationSessionStatus
}.

#[global] Instance ApplicationSessionSpec_eq_dec : EqDecision ApplicationSessionSpec.
Proof. solve_decision. Defined.
#[global] Instance SessionStatus_eq_dec : EqDecision SessionStatus.
Proof. solve_decision. Defined.
#[global] Instance AccessEndPoint_eq_dec : EqDecision AccessEndPoint.
Proof. solve_decision. Defined.
#[global] Instance ApplicationSessionStatus_eq_dec : EqDecision ApplicationSessionStatus.
Proof. solve_decision. Defined.
#[global] Instance ApplicationSession_eq_dec : EqDecision ApplicationSession.
Proof. solve_decision. Defined.

(** [GetUID], [DeletionTimestamp], [CreationTimestamp] of the embedded
    [ObjectMeta]. *)
Definition GetUID (s : ApplicationSession) : string :=
  metav1.UID (ObjectMeta s).
Definition DeletionTimestamp (s : ApplicationSession) : option metav1.Time :=
  metav1.DeletionTimestamp (ObjectMeta s).
Definition CreationTimestamp (s : ApplicationSession) : metav1.Time :=
  metav1.CreationTimestamp (ObjectMeta s).

(** Field assignments [s.Status = st], [s.DeletionTimestamp = t],
    [st.SessionStatus = x], ... *)
Definition setStatus (st : ApplicationSessionStatus) (s : ApplicationSession)
  : ApplicationSession :=
  {| ObjectMeta := ObjectMeta s; Spec := Spec s; Status := st |}.

Definition setDeletionTimestamp (t : option metav1.Time) (s : ApplicationSession)
  : ApplicationSession :=
  {| ObjectMeta :=
       {| metav1.Name := metav1.Name (ObjectMeta s);
          metav1.Namespace := metav1.Namespace (ObjectMeta s);
          metav1.UID := metav1.UID (ObjectMeta s);
          metav1.CreationTimestamp := metav1.CreationTimestamp (ObjectMeta s);
          metav1.DeletionTimestamp := t;
          metav1.Finalizers := metav1.Finalizers (ObjectMeta s) |};
     Spec := Spec s; Status := Status s |}.

Definition setSessionStatus (x : SessionStatus) (st : ApplicationSessionStatus)
  : ApplicationSessionStatus :=
  {| AccessEndPoints := AccessEndPoints st; sessionStatus := x;
     ClientSessions := ClientSessions st; PodReference := PodReference st;
     AvailableTime := AvailableTime st; CloseTime := CloseTime st;
     AvailableTimeMicro := AvailableTimeMicro st |}.

Definition setAccessEndPoints (eps : list AccessEndPoint)
  (st : ApplicationSessionStatus) : ApplicationSessionStatus :=
  {| AccessEndPoints := eps; sessionStatus := sessionStatus st;
     ClientSessions := ClientSessions st; PodReference := PodReference st;
     AvailableTime := AvailableTime st; CloseTime := CloseTime st;
     AvailableTimeMicro := AvailableTimeMicro st |}.

Definition setClientSessions (cs : list v1.LocalObjectReference)
  (st : ApplicationSessionStatus) : ApplicationSessionStatus :=
  {| AccessEndPoints := AccessEndPoints st; sessionStatus := sessionStatus st;
     ClientSessions := cs; PodReference := PodReference st;
     AvailableTime := AvailableTime st; CloseTime := CloseTime st;
     AvailableTimeMicro := AvailableTimeMicro st |}.

Definition setPodReference (r : option v1.LocalObjectReference)
  (st : ApplicationSessionStatus) : ApplicationSessionStatus :=
  {| AccessEndPoints := AccessEndPoints st; sessionStatus := sessionStatus st;
     ClientSessions := ClientSessions st; PodReference := r;
     AvailableTime := AvailableTime st; CloseTime := CloseTime st;
     AvailableTimeMicro := AvailableTimeMicro st |}.

End fornaxv1.

Import fornaxv1.

(** ** time *)
Module time.

Definition Duration := Z.
Definition Second : Duration := 1000000000.

(** [int64] arithmetic wraps around. *)
Definition wrap64 (z : Z) : Z := (z + 2 ^ 63) mod 2 ^ 64 - 2 ^ 63.

(** [Duration(a) * b] *)
Definition mul (a b : Duration) : Duration := wrap64 (a * b).

(** [t.Add(d)] and [t.Before(u)] *)
Definition Add (t : Z) (d : Duration) : Z := t + d.
Definition Before (t u : Z) : bool := t <? u.

End time.

(** ** pkg/util: predicates on sessions and pods *)
Module util.

(** Modelled from the spec: [util.SessionIsPending] is missing from the
    sources; a session is pending when its status is Unspecified or
    Pending. *)
Definition SessionIsPending (s : ApplicationSession) : bool :=
  match sessionStatus (Status s) with
  | SessionStatusUnspecified | SessionStatusPending => true
  | _ => false
  end.

(** Modelled from the spec: [util.SessionIsOpen] is missing from the
    sources; the open states are Starting, Available and InUse. *)
Definition SessionIsOpen (s : ApplicationSession) : bool :=
  match sessionStatus (Status s) with
  | SessionStatusStarting | SessionStatusAvailable | SessionStatusInUse => true
  | _ => false
  end.

(** Modelled from the spec: [util.SessionIsClosed] is missing from the
    sources; a node report without a cached copy is treated as a delete
    when the reported status is terminal, Closed or Timeout. *)
Definition SessionIsClosed (s : ApplicationSession) : bool :=
  match sessionStatus (Status s) with
  | SessionStatusClosed | SessionStatusTimeout => true
  | _ => false
  end.

(** Modelled from the spec: [util.SessionInTerminalState] is missing from
    the sources; the terminal states are Closed and Timeout. *)
Definition SessionInTerminalState (s : ApplicationSession) : bool :=
  match sessionStatus (Status s) with
  | SessionStatusClosed | SessionStatusTimeout => true
  | _ => false
  end.

(** Modelled from the spec: [util.Name] is missing from the sources; the
    pod reference of a bound session is the pod's name. *)
Definition Name (pod : v1.Pod) : string :=
  metav1.Name (v1.ObjectMeta pod).

End util.

(** ** k8s.io/client-go/tools/cache *)
Module cache.

(** [strings.Split(key, "/")], accumulating the current part in [cur]. *)
Fixpoint splitSlash (cur : string) (key : string) : list string :=
  match key with
  | EmptyString => [cur]
  | String c rest =>
      if Ascii.eqb c "/"%char
      then cur :: splitSlash EmptyString rest
      else splitSlash (cur +:+ String c EmptyString) rest
  end.

(** [SplitMetaNamespaceKey]: one part is a name, two parts are a namespace
    and a name, anything else is an error. *)
Definition SplitMetaNamespaceKey (key : string) : option (string * string) :=
  match splitSlash EmptyString key with
  | [name] => Some (EmptyString, name)
  | [ns; name] => Some (ns, name)
  | _ => None
  end.

End cache.

(** ** The scheduler's memory *)

(** A [*fornaxv1.ApplicationSession]: the address of a session object. *)
Abbreviation loc := nat.

(** [ApplicationPod]: a pod of the pool and the uids of the sessions bound to
    it. A [*ApplicationPod] is the pod's name in its pool's [pods] table. *)
Record ApplicationPod := {
  podName : string;
  sessions : gset string
}.

(** Modelled from the spec: [NewApplicationPod] is missing from the sources;
    a new pool pod has an empty session set. *)
Definition NewApplicationPod (name : string) : ApplicationPod :=
  {| podName := name; sessions := ∅ |}.

(** [ApplicationPool]: [sessions] maps a uid to the session object, [pods] a
    pod name to the pool pod. *)
Record ApplicationPool := {
  pool_sessions : gmap string loc;
  pool_pods : gmap string ApplicationPod
}.

Definition emptyPool : ApplicationPool :=
  {| pool_sessions := ∅; pool_pods := ∅ |}.

(** Calls to the two external collaborators, with the arguments as they are
    when the call is made. *)
Inductive Call :=
| FindPod (name : string)
| TerminatePod (pod : v1.Pod)
| OpenSession (pod : v1.Pod) (l : loc) (session : ApplicationSession)
| CloseSession (pod : v1.Pod) (l : loc) (session : ApplicationSession)
| UpdateSessionStatus (session : ApplicationSession)
    (newStatus : ApplicationSessionStatus).

(** A goroutine started by a handler and not yet run. *)
Inductive Goroutine :=
| GoUpdateSessionStatus (oldCopy : loc) (newStatus : ApplicationSessionStatus).

Record World := {
  (* the session objects *)
  heap : gmap loc ApplicationSession;
  (* appc.applicationPools *)
  applicationPools : gmap string ApplicationPool;
  (* keys handed to enqueueApplication, oldest first *)
  queue : list string;
  (* external calls made, oldest first *)
  calls : list Call;
  (* goroutines started, oldest first *)
  goroutines : list Goroutine;
  (* klog.ErrorS messages, oldest first *)
  errorLog : list string;
  (* number of clock readings so far *)
  ticks : nat
}.

Definition setHeap (h : gmap loc ApplicationSession) (w : World) : World :=
  {| heap := h; applicationPools := applicationPools w; queue := queue w;
     calls := calls w; goroutines := goroutines w; errorLog := errorLog w;
     ticks := ticks w |}.

Definition setPools (ps : gmap string ApplicationPool) (w : World) : World :=
  {| heap := heap w; applicationPools := ps; queue := queue w;
     calls := calls w; goroutines := goroutines w; errorLog := errorLog w;
     ticks := ticks w |}.

Definition setQueue (q : list string) (w : World) : World :=
  {| heap := heap w; applicationPools := applicationPools w; queue := q;
     calls := calls w; goroutines := goroutines w; errorLog := errorLog w;
     ticks := ticks w |}.

Definition setCalls (cs : list Call) (w : World) : World :=
  {| heap := heap w; applicationPools := applicationPools w; queue := queue w;
     calls := cs; goroutines := goroutines w; errorLog := errorLog w;
     ticks := ticks w |}.

Definition setGoroutines (gs : list Goroutine) (w : World) : World :=
  {| heap := heap w; applicationPools := applicationPools w; queue := queue w;
     calls := calls w; goroutines := gs; errorLog := errorLog w;
     ticks := ticks w |}.

Definition setErrorLog (es : list string) (w : World) : World :=
  {| heap := heap w; applicationPools := applicationPools w; queue := queue w;
     calls := calls w; goroutines := goroutines w; errorLog := es;
     ticks := ticks w |}.

Definition setTicks (n : nat) (w : World) : World :=
  {| heap := heap w; applicationPools := applicationPools w; queue := queue w;
     calls := calls w; goroutines := goroutines w; errorLog := errorLog w;
     ticks := n |}.

(** The environment of the scheduler: the clock, the answers of PodManager
    and SessionManager (which may depend on everything that happened so
    far), and the helpers of other packages that are not in the sources. An
    [error] is [Some msg], [nil] is [None]. *)
Record Env := {
  (* the n-th reading of the clock *)
  clock : nat -> Z;
  podManager_FindPod : World -> string -> option v1.Pod;
  podManager_TerminatePod : World -> v1.Pod -> option string;
  sessionManager_OpenSession :
    World -> v1.Pod -> ApplicationSession -> option string;
  sessionManager_CloseSession :
    World -> v1.Pod -> ApplicationSession -> option string;
  sessionManager_UpdateSessionStatus :
    World -> ApplicationSession -> ApplicationSessionStatus -> option string;
  (* util.PodNotTerminated *)
  PodNotTerminated : v1.Pod -> bool;
  (* the idle running pods of groupApplicationPods, by name *)
  idleRunningPodsOf : World -> string -> list string;
  (* reflect.DeepEqual on what the records here leave out of the two session
     objects at the given addresses: the type metadata, the other metadata
     fields, nil against empty slices *)
  DeepEqual_unmodelled : World -> loc -> loc -> bool;
  (* the same for the statuses of a copy of the first object and of the
     second object *)
  DeepEqual_Status_unmodelled : World -> loc -> loc -> bool
}.

(** ** The monad of the handlers *)

Definition M (A : Type) : Type := World -> option (A * World).

Definition ret {A} (a : A) : M A := fun w => Some (a, w).

Definition bind {A B} (m : M A) (k : A -> M B) : M B :=
  fun w => match m w with
           | Some (a, w') => k a w'
           | None => None
           end.

(** A nil pointer dereference. *)
Definition panic {A} : M A := fun _ => None.

Notation "'let*' x := m 'in' k" := (bind m (fun x => k))
  (at level 10, x name, m at level 200, k at level 200).
Notation "m >> k" := (bind m (fun _ => k))
  (at level 62, right associativity).

Definition get : M World := fun w => Some (w, w).
Definition modifyWorld (f : World -> World) : M unit := fun w => Some (tt, f w).

(** [*l] *)
Definition load (l : loc) : M ApplicationSession :=
  fun w => match heap w !! l with
           | Some s => Some (s, w)
           | None => None
           end.

(** An assignment to a field of [*l]. *)
Definition modify (l : loc) (f : ApplicationSession -> ApplicationSession)
  : M unit :=
  let* s := load l in modifyWorld (fun w => setHeap (<[l := f s]> (heap w)) w).

Definition klogErrorS (msg : string) : M unit :=
  modifyWorld (fun w => setErrorLog (errorLog w ++ [msg]) w).

Definition go (g : Goroutine) : M unit :=
  modifyWorld (fun w => setGoroutines (goroutines w ++ [g]) w).

Definition record (c : Call) (w : World) : World :=
  setCalls (calls w ++ [c]) w.

(** ** package application *)

Definition DefaultSessionPendingTimeoutDuration : time.Duration :=
  5 * time.Second.
Definition DefaultSessionOpenTimeoutDuration : time.Duration :=
  10 * time.Second.

(** The five lists returned by [groupSessionsByState]. *)
Record SessionGroups := {
  pendingSessions : list loc;
  deletingSessions : list loc;
  closingSessions : list loc;
  timeoutSessions : list loc;
  activeSessions : list loc
}.

Definition noSessions : SessionGroups :=
  {| pendingSessions := []; deletingSessions := []; closingSessions := [];
     timeoutSessions := []; activeSessions := [] |}.

Definition appendPending (v : loc) (g : SessionGroups) : SessionGroups :=
  {| pendingSessions := pendingSessions g ++ [v];
     deletingSessions := deletingSessions g;
     closingSessions := closingSessions g;
     timeoutSessions := timeoutSessions g;
     activeSessions := activeSessions g |}.

Definition appendDeleting (v : loc) (g : SessionGroups) : SessionGroups :=
  {| pendingSessions := pendingSessions g;
     deletingSessions := deletingSessions g ++ [v];
     closingSessions := closingSessions g;
     timeoutSessions := timeoutSessions g;
     activeSessions := activeSessions g |}.

Definition appendClosing (v : loc) (g : SessionGroups) : SessionGroups :=
  {| pendingSessions := pendingSessions g;
     deletingSessions := deletingSessions g;
     closingSessions := closingSessions g ++ [v];
     timeoutSessions := timeoutSessions g;
     activeSessions := activeSessions g |}.

Definition appendTimeout (v : loc) (g : SessionGroups) : SessionGroups :=
  {| pendingSessions := pendingSessions g;
     deletingSessions := deletingSessions g;
     closingSessions := closingSessions g;
     timeoutSessions := timeoutSessions g ++ [v];
     activeSessions := activeSessions g |}.

Definition appendActive (v : loc) (g : SessionGroups) : SessionGroups :=
  {| pendingSessions := pendingSessions g;
     deletingSessions := deletingSessions g;
     closingSessions := closingSessions g;
     timeoutSessions := timeoutSessions g;
     activeSessions := activeSessions g ++ [v] |}.

(** [getSessionApplicationKey]: the key and the error. *)
Definition getSessionApplicationKey (session : ApplicationSession)
  : string * option string :=
  let applicationLabel := ApplicationName (Spec session) in
  match cache.SplitMetaNamespaceKey applicationLabel with
  | Some _ => (applicationLabel, None)
  | None =>
      (EmptyString,
       Some ("Session application label:" +:+ applicationLabel
             +:+ " is not valid meta namespace key"))
  end.

(** The body of the loop of [groupSessionsByState] for the session [s] at
    [v], the clock reading [now]. *)
Definition groupSession (now : Z) (v : loc) (s : ApplicationSession)
  (g : SessionGroups) : SessionGroups :=
  let timeoutDuration :=
    if 0 <? OpenTimeoutSeconds (Spec s)
    then time.mul (OpenTimeoutSeconds (Spec s)) time.Second
    else DefaultSessionOpenTimeoutDuration in
  let pendingTimeoutTimeStamp := time.Add now (time.mul (-1) timeoutDuration) in
  if decide (sessionStatus (Status s) = SessionStatusClosing) then
    appendClosing v g
  else if decide (DeletionTimestamp s <> None) then
    appendDeleting v g
  else if util.SessionIsPending s then
    if time.Before (CreationTimestamp s) pendingTimeoutTimeStamp
    then appendTimeout v g
    else appendPending v g
  else if decide (sessionStatus (Status s) = SessionStatusStarting) then
    if time.Before (CreationTimestamp s) pendingTimeoutTimeStamp
    then appendTimeout v g
    else appendActive v g
  else if util.SessionIsOpen s then
    appendActive v g
  else g.

(** The endpoint built from a container port in [bindSessionToPod]. *)
Definition endPointOfPort (port : v1.ContainerPort) : AccessEndPoint :=
  {| Protocol := v1.Protocol port;
     IPAddress := v1.HostIP port;
     Port := v1.HostPort port |}.

(** The two nested loops of [bindSessionToPod]: every iteration assigns to
    [newStatus.AccessEndPoints] the result of appending one endpoint to
    [session.Status.AccessEndPoints]. *)
Definition bindPorts (session : ApplicationSession)
  (ports : list v1.ContainerPort) (newStatus : ApplicationSessionStatus)
  : ApplicationSessionStatus :=
  fold_left
    (fun newStatus port =>
       setAccessEndPoints
         (AccessEndPoints (Status session) ++ [endPointOfPort port]) newStatus)
    ports newStatus.

Definition bindContainers (session : ApplicationSession)
  (containers : list v1.Container) (newStatus : ApplicationSessionStatus)
  : ApplicationSessionStatus :=
  fold_left
    (fun newStatus cont => bindPorts session (v1.Ports cont) newStatus)
    containers newStatus.

(** The status [bindSessionToPod] stores in the session before it calls
    [OpenSession]. *)
Definition boundStatus (pod : v1.Pod) (session : ApplicationSession)
  : ApplicationSessionStatus :=
  let newStatus := Status session in
  let newStatus := setSessionStatus SessionStatusStarting newStatus in
  let newStatus :=
    bindContainers session (v1.Containers (v1.Spec pod)) newStatus in
  setPodReference (Some {| v1.Name := util.Name pod |}) newStatus.

(** The status [changeSessionStatus] hands to [UpdateSessionStatus]. *)
Definition changedStatus (v : ApplicationSession) (status : SessionStatus)
  : ApplicationSessionStatus :=
  let newStatus := Status v in
  let newStatus := setSessionStatus status newStatus in
  if decide (status = SessionStatusClosed \/ status = SessionStatusTimeout)
  then setClientSessions [] newStatus
  else newStatus.

(** [%v] of a slice of errors: the messages between brackets, separated by
    a space. *)
Definition formatErrors (errs : list string) : string :=
  "[" +:+ String.concat " " errs +:+ "]".

(** [reflect.DeepEqual] of the two session pointers [x] and [y], whose
    objects the records describe as [a] and [b]: equal pointers are deeply
    equal; otherwise the objects are compared field by field, the fields of
    the records here and what the records leave out. *)
Definition reflect_DeepEqual (E : Env) (w : World) (x y : loc)
  (a b : ApplicationSession) : bool :=
  bool_decide (x = y)
  || (bool_decide (a = b) && DeepEqual_unmodelled E w x y).

(** [reflect.DeepEqual] of the status [a] of a copy of the object at [x]
    and the status [b] of the object at [y]. *)
Definition reflect_DeepEqual_Status (E : Env) (w : World) (x y : loc)
  (a b : ApplicationSessionStatus) : bool :=
  bool_decide (a = b) && DeepEqual_Status_unmodelled E w x y.

Section application.

Context (E : Env).

(** [time.Now()] and [util.NewCurrentMetaTime()] read the clock. *)
Definition timeNow : M Z :=
  fun w => Some (clock E (ticks w), setTicks (S (ticks w)) w).

(** *** Calls to the collaborators *)

Definition podManager_FindPod_call (name : string) : M (option v1.Pod) :=
  fun w => Some (podManager_FindPod E w name, record (FindPod name) w).

Definition podManager_TerminatePod_call (pod : v1.Pod) : M (option string) :=
  fun w => Some (podManager_TerminatePod E w pod, record (TerminatePod pod) w).

Definition sessionManager_OpenSession_call (pod : v1.Pod) (session : loc)
  : M (option string) :=
  let* s := load session in
  fun w => Some (sessionManager_OpenSession E w pod s,
                 record (OpenSession pod session s) w).

Definition sessionManager_CloseSession_call (pod : v1.Pod) (session : loc)
  : M (option string) :=
  let* s := load session in
  fun w => Some (sessionManager_CloseSession E w pod s,
                 record (CloseSession pod session s) w).

Definition sessionManager_UpdateSessionStatus_call
  (session : ApplicationSession) (newStatus : ApplicationSessionStatus)
  : M (option string) :=
  fun w => Some (sessionManager_UpdateSessionStatus E w session newStatus,
                 record (UpdateSessionStatus session newStatus) w).

(** *** The registry of pools

    A [*ApplicationPool] is [Some key], the pool registered under [key],
    or [None], the nil pointer. *)

(** Modelled from the spec: [getApplicationPool] is missing from the
    sources; [getPool(key)] returns the pool or nil. *)
Definition getApplicationPool (key : string) : M (option string) :=
  let* w := get in
  match applicationPools w !! key with
  | Some _ => ret (Some key)
  | None => ret None
  end.

(** Modelled from the spec: [getOrCreateApplicationPool] is missing from
    the sources; [getOrCreatePool(key)] creates the pool lazily. *)
Definition getOrCreateApplicationPool (key : string) : M (option string) :=
  let* w := get in
  match applicationPools w !! key with
  | Some _ => ret (Some key)
  | None =>
      modifyWorld (fun w => setPools (<[key := emptyPool]> (applicationPools w)) w)
      >> ret (Some key)
  end.

(** Modelled from the spec: [enqueueApplication] is missing from the
    sources; it hands the key to the work queue. *)
Definition enqueueApplication (key : string) : M unit :=
  modifyWorld (fun w => setQueue (queue w ++ [key]) w).

(** [*pool]; every method of the pool starts by taking [pool.mu], which
    dereferences the receiver. *)
Definition derefPool (pool : option string) : M ApplicationPool :=
  match pool with
  | None => panic
  | Some key =>
      let* w := get in
      match applicationPools w !! key with
      | Some p => ret p
      | None => panic
      end
  end.

Definition updatePool (pool : option string)
  (f : ApplicationPool -> ApplicationPool) : M unit :=
  let* p := derefPool pool in
  match pool with
  | None => panic
  | Some key =>
      modifyWorld (fun w => setPools (<[key := f p]> (applicationPools w)) w)
  end.

Definition sessionList (pool : option string) : M (list loc) :=
  let* p := derefPool pool in
  ret ((map_to_list (pool_sessions p)).*2).

Definition getSession (pool : option string) (key : string)
  : M (option loc) :=
  let* p := derefPool pool in
  ret (pool_sessions p !! key).

Definition addSession (pool : option string) (key : string) (session : loc)
  : M unit :=
  updatePool pool (fun p =>
    {| pool_sessions := <[key := session]> (pool_sessions p);
       pool_pods := pool_pods p |}).

Definition deleteSession (pool : option string) (key : string) : M unit :=
  updatePool pool (fun p =>
    {| pool_sessions := delete key (pool_sessions p);
       pool_pods := pool_pods p |}).

(** Modelled from the spec: [getPod] is missing from the sources; it looks
    the pod up in the pool. The result is the pod's name, or nil. *)
Definition getPod (pool : option string) (name : string)
  : M (option string) :=
  let* p := derefPool pool in
  match pool_pods p !! name with
  | Some _ => ret (Some name)
  | None => ret None
  end.

(** Modelled from the spec: [addPod] is missing from the sources; it
    upserts the pod entry and returns the pod of the pool. *)
Definition addPod (pool : option string) (name : string)
  (pod : ApplicationPod) : M string :=
  let* p := derefPool pool in
  match pool_pods p !! name with
  | Some _ => ret name
  | None =>
      updatePool pool (fun p =>
        {| pool_sessions := pool_sessions p;
           pool_pods := <[name := pod]> (pool_pods p) |})
      >> ret name
  end.

(** [pod.sessions.Add(id)] and [pod.sessions.Delete(id)] for the pod [name]
    of [pool]. *)
Definition setPodSessions (pool : option string) (name : string)
  (f : gset string -> gset string) : M unit :=
  let* p := derefPool pool in
  match pool_pods p !! name with
  | Some pod =>
      updatePool pool (fun p =>
        {| pool_sessions := pool_sessions p;
           pool_pods :=
             <[name := {| podName := podName pod; sessions := f (sessions pod) |}]>
               (pool_pods p) |})
  | None => panic
  end.

Definition podSessionsAdd (pool : option string) (name id : string) : M unit :=
  setPodSessions pool name (fun ss => ss ∪ {[id]}).

Definition podSessionsDelete (pool : option string) (name id : string)
  : M unit :=
  setPodSessions pool name (fun ss => ss ∖ {[id]}).

(** *** groupSessionsByState *)

Fixpoint groupSessionsLoop (vs : list loc) (g : SessionGroups)
  : M SessionGroups :=
  match vs with
  | [] => ret g
  | v :: rest =>
      let* s := load v in
      let* now := timeNow in
      groupSessionsLoop rest (groupSession now v s g)
  end.

Definition groupSessionsByState (pool : option string) : M SessionGroups :=
  let* vs := sessionList pool in
  groupSessionsLoop vs noSessions.

(** *** changeSessionStatus *)

Definition changeSessionStatus (v : loc) (status : SessionStatus)
  : M (option string) :=
  let* sv := load v in
  let session := sv in
  let newStatus := changedStatus sv status in
  sessionManager_UpdateSessionStatus_call session newStatus.

(** *** closeApplicationSession *)

Definition closeApplicationSession (session : loc) : M (option string) :=
  let* s := load session in
  if util.SessionIsOpen s then
    match PodReference (Status s) with
    | Some ref =>
        let podName := v1.Name ref in
        let* pod := podManager_FindPod_call podName in
        match pod with
        | Some pod =>
            modify session (fun s =>
              setStatus (setSessionStatus SessionStatusClosing (Status s)) s)
            >> sessionManager_CloseSession_call pod session
        | None =>
            changeSessionStatus session SessionStatusClosed >> ret None
        end
    | None => ret None
    end
  else ret None.

(** *** updateSessionPool *)

Definition updateSessionPool (applicationKey : string) (session : loc)
  (deleted : bool) : M unit :=
  let* s := load session in
  let sessionId := GetUID s in
  let* pool := getOrCreateApplicationPool applicationKey in
  if util.SessionInTerminalState s then
    (match PodReference (Status s) with
     | Some ref =>
         let* pod := getPod pool (v1.Name ref) in
         match pod with
         | Some pod => podSessionsDelete pool pod sessionId
         | None => ret tt
         end
     | None => ret tt
     end)
    >> deleteSession pool sessionId
  else if negb deleted then
    (match PodReference (Status s) with
     | Some ref =>
         let podName := v1.Name ref in
         let* pod := addPod pool podName (NewApplicationPod podName) in
         podSessionsAdd pool pod sessionId
     | None => ret tt
     end)
    >> addSession pool sessionId session
  else
    let* savedSession := getSession pool sessionId in
    match savedSession with
    | Some saved =>
        let* sv := load saved in
        match DeletionTimestamp sv with
        | None =>
            let* now := timeNow in
            modify saved (setDeletionTimestamp (Some now))
        | Some _ => ret tt
        end
    | None => ret tt
    end.

(** *** The event handlers *)

Definition onApplicationSessionDeleteEvent (obj : loc) : M unit :=
  let* session := load obj in
  (match DeletionTimestamp session with
   | None =>
       let* now := timeNow in
       modify obj (setDeletionTimestamp (Some now))
   | Some _ => ret tt
   end)
  >>
  let* session := load obj in
  match getSessionApplicationKey session with
  | (_, Some err) => klogErrorS err
  | (applicationKey, None) =>
      updateSessionPool applicationKey obj true
      >> enqueueApplication applicationKey
  end.

Definition onApplicationSessionAddEvent (obj : loc) : M unit :=
  let* session := load obj in
  match DeletionTimestamp session with
  | Some _ => onApplicationSessionDeleteEvent obj
  | None =>
      let '(applicationKey, err) := getSessionApplicationKey session in
      (match err with
       | Some err =>
           klogErrorS err
           >> (if util.SessionIsOpen session
               then closeApplicationSession obj >> ret tt
               else ret tt)
       | None => ret tt
       end)
      >> updateSessionPool applicationKey obj false
      >> enqueueApplication applicationKey
  end.

Definition onApplicationSessionUpdateEvent (old cur : loc) : M unit :=
  let* oldCopy := load old in
  let* newCopy := load cur in
  let* w := get in
  if reflect_DeepEqual E w old cur oldCopy newCopy then ret tt
  else
    let '(applicationKey, err) := getSessionApplicationKey newCopy in
    (match err with
     | Some err =>
         klogErrorS err
         >> (if util.SessionIsOpen newCopy
             then closeApplicationSession cur >> ret tt
             else ret tt)
     | None => ret tt
     end)
    >>
    let* pool := getOrCreateApplicationPool applicationKey in
    let* v := getSession pool (GetUID newCopy) in
    (* [oldCopy] is the pointer [old], or a deep copy of the cached session
       [v]; it is kept with the address it was read from *)
    let* cached :=
      match v with
      | Some v => let* c := load v in ret (Some (v, c))
      | None => ret None
      end in
    updateSessionPool applicationKey cur false
    >>
    let* oldCopy :=
      match cached with
      | Some c => ret c
      | None => let* o := load old in ret (old, o)
      end in
    let* newCopy := load cur in
    let* w := get in
    if decide ((DeletionTimestamp newCopy <> None
                /\ DeletionTimestamp oldCopy.2 = None)
               \/ reflect_DeepEqual_Status E w oldCopy.1 cur
                    (Status oldCopy.2) (Status newCopy) = false)
    then enqueueApplication applicationKey
    else ret tt.

(** [ie.SessionEvent] *)
Record SessionEvent := {
  Pod : v1.Pod;
  Session : loc
}.

Definition onSessionEventFromNode (se : SessionEvent) : M (option string) :=
  let pod := Pod se in
  let session := Session se in
  let* s := load session in
  let newStatus := Status s in
  let applicationKey := ApplicationName (Spec s) in
  let* pool := getApplicationPool applicationKey in
  let* oldCopy := getSession pool (GetUID s) in
  (match oldCopy with
   | None =>
       if util.SessionIsClosed s
       then onApplicationSessionDeleteEvent session
       else onApplicationSessionAddEvent session
   | Some oldCopy =>
       onApplicationSessionUpdateEvent oldCopy session
       >> go (GoUpdateSessionStatus oldCopy newStatus)
   end)
  >>
  let* s := load session in
  if KillInstanceWhenSessionClosed (Spec s)
     && bool_decide (sessionStatus newStatus = SessionStatusClosed)
     && PodNotTerminated E pod
  then podManager_TerminatePod_call pod >> ret None
  else ret None.

(** *** bindSessionToPod *)

Definition bindSessionToPod (applicationKey : string) (pod : v1.Pod)
  (session : loc) : M (option string) :=
  let* s := load session in
  let newStatus := boundStatus pod s in
  let oldStatus := Status s in
  modify session (setStatus newStatus)
  >>
  let* err := sessionManager_OpenSession_call pod session in
  match err with
  | Some err => modify session (setStatus oldStatus) >> ret (Some err)
  | None => ret None
  end.

(** *** deleteApplicationSession *)

Definition deleteApplicationSession (applicationKey : string) (session : loc)
  : M (option string) :=
  let* s := load session in
  let sessionId := GetUID s in
  let* pool := getApplicationPool applicationKey in
  match pool with
  | None => ret None
  | Some _ =>
      if util.SessionIsOpen s then closeApplicationSession session
      else
        let* err :=
          if util.SessionIsPending s
          then changeSessionStatus session SessionStatusTimeout
          else ret None in
        match err with
        | Some err => ret (Some err)
        | None =>
            let* s := load session in
            (match PodReference (Status s) with
             | Some ref =>
                 let* pod := getPod pool (v1.Name ref) in
                 match pod with
                 | Some pod => podSessionsDelete pool pod sessionId
                 | None => ret tt
                 end
             | None => ret tt
             end)
            >> deleteSession pool sessionId
            >> ret None
        end
  end.

(** *** syncApplicationSessions *)

(** Phase 1: the loop over [idleRunningPods], with the index [si] of the
    next pending session and the errors so far. The pods [rp] are named by
    [rp.podName]; a name that is no pod of the pool is passed over. *)
Fixpoint bindPendingSessions (applicationKey : string) (pool : option string)
  (pendingSessions : list loc) (idleRunningPods : list string)
  (si : nat) (sessionErrors : list string) : M (nat * list string) :=
  match idleRunningPods with
  | [] => ret (si, sessionErrors)
  | rp :: rest =>
      let next := bindPendingSessions applicationKey pool pendingSessions rest in
      let* p := derefPool pool in
      match pool_pods p !! rp with
      | None => next si sessionErrors
      | Some rpod =>
          let* pod := podManager_FindPod_call (podName rpod) in
          match pod with
          | None => next si sessionErrors
          | Some pod =>
              if decide (size (sessions rpod) = 0%nat) then
                if decide (si = length pendingSessions)
                then ret (si, sessionErrors)
                else
                  match pendingSessions !! si with
                  | None => panic
                  | Some session =>
                      let* err := bindSessionToPod applicationKey pod session in
                      match err with
                      | Some err => next si (sessionErrors ++ [err])
                      | None =>
                          let* s := load session in
                          podSessionsAdd pool rp (GetUID s)
                          >> next (S si) sessionErrors
                      end
                  end
              else next si sessionErrors
          end
      end
  end.

(** Phase 2 and phase 3. *)
Fixpoint cleanupTimeoutSessions (timeoutSessions : list loc)
  (sessionErrors : list string) : M (list string) :=
  match timeoutSessions with
  | [] => ret sessionErrors
  | v :: rest =>
      let* err := changeSessionStatus v SessionStatusTimeout in
      match err with
      | Some err => cleanupTimeoutSessions rest (sessionErrors ++ [err])
      | None => cleanupTimeoutSessions rest sessionErrors
      end
  end.

Fixpoint cleanupDeletingSessions (applicationKey : string)
  (deletingSessions : list loc) (sessionErrors : list string)
  : M (list string) :=
  match deletingSessions with
  | [] => ret sessionErrors
  | v :: rest =>
      let* err := deleteApplicationSession applicationKey v in
      match err with
      | Some err =>
          cleanupDeletingSessions applicationKey rest (sessionErrors ++ [err])
      | None => cleanupDeletingSessions applicationKey rest sessionErrors
      end
  end.

(** Modelled from the spec: [groupApplicationPods] is missing from the
    sources; its third result is the idle running pods of the
    application, as the external pod classifier gives them. *)
Definition groupApplicationPods (applicationKey : string) : M (list string) :=
  let* w := get in ret (idleRunningPodsOf E w applicationKey).

Definition syncApplicationSessions (applicationKey : string)
  : M (option string) :=
  let* pool := getApplicationPool applicationKey in
  match pool with
  | None => ret None
  | Some _ =>
      let* idleRunningPods := groupApplicationPods applicationKey in
      let* g := groupSessionsByState pool in
      let* r :=
        bindPendingSessions applicationKey pool (pendingSessions g)
          idleRunningPods 0%nat [] in
      let sessionErrors := r.2 in
      let* sessionErrors :=
        cleanupTimeoutSessions (timeoutSessions g) sessionErrors in
      let* sessionErrors :=
        cleanupDeletingSessions applicationKey (deletingSessions g)
          sessionErrors in
      if decide (0 < length sessionErrors)%nat
      then ret (Some ("Some sessions failed to be sync, errors="
                      +:+ formatErrors sessionErrors))
      else ret None
  end.

End application.

(** ** Sample objects *)
Module sample.

Definition meta (name uid : string) (created : Z) (deleted : option Z)
  : metav1.ObjectMeta :=
  {| metav1.Name := name; metav1.Namespace := "a"; metav1.UID := uid;
     metav1.CreationTimestamp := created;
     metav1.DeletionTimestamp := deleted; metav1.Finalizers := [] |}.

Definition status (st : SessionStatus) (podRef : option string)
  : ApplicationSessionStatus :=
  {| AccessEndPoints := []; sessionStatus := st;
     ClientSessions := [{| v1.Name := "client" |}];
     PodReference := (fun n => {| v1.Name := n |}) <$> podRef;
     AvailableTime := None; CloseTime := None; AvailableTimeMicro := 0 |}.

Definition session (uid app : string) (kill : bool) (st : SessionStatus)
  (podRef : option string) (deleted : option Z) : ApplicationSession :=
  {| ObjectMeta := meta uid uid 0 deleted;
     Spec := {| ApplicationName := app; SessionData := "data";
                KillInstanceWhenSessionClosed := kill;
                CloseGracePeriodSeconds := None;
                OpenTimeoutSeconds := 10 |};
     Status := status st podRef |}.

Definition port (p : Z) : v1.ContainerPort :=
  {| v1.PortName := "http"; v1.HostPort := p; v1.ContainerPort_ := 80;
     v1.Protocol := "TCP"; v1.HostIP := "10.0.0.1" |}.

Definition pod (name : string) (ports : list Z) : v1.Pod :=
  {| v1.ObjectMeta := meta name name 0 None;
     v1.Spec := {| v1.Containers :=
                     [{| v1.ContainerName := "main";
                         v1.Ports := port <$> ports |}] |};
     v1.Phase := "Running" |}.

(** A world with the session objects [ss] at the addresses 0, 1, ... and
    the pools [pools]. *)
Definition world (ss : list ApplicationSession)
  (pools : gmap string ApplicationPool) : World :=
  {| heap := map_seq 0 ss; applicationPools := pools; queue := [];
     calls := []; goroutines := []; errorLog := []; ticks := 0 |}.

(** An environment where the clock stands at 5 s, every pod of [pods] is
    found, running and idle, a call fails exactly when [failing] says
    so, and two session objects differ in nothing that the records leave
    out. *)
Definition env (pods : list v1.Pod) (failing : Call -> bool) : Env :=
  {| clock := fun _ => 5 * time.Second;
     podManager_FindPod := fun _ name =>
       List.find (fun p => bool_decide (util.Name p = name)) pods;
     podManager_TerminatePod := fun _ pod =>
       if failing (TerminatePod pod) then Some "terminate failed"%string else None;
     sessionManager_OpenSession := fun _ pod s =>
       if failing (OpenSession pod 0%nat s) then Some "open failed"%string else None;
     sessionManager_CloseSession := fun _ pod s =>
       if failing (CloseSession pod 0%nat s) then Some "close failed"%string else None;
     sessionManager_UpdateSessionStatus := fun _ s st =>
       if failing (UpdateSessionStatus s st) then Some "update failed"%string else None;
     PodNotTerminated := fun _ => true;
     idleRunningPodsOf := fun _ _ => util.Name <$> pods;
     DeepEqual_unmodelled := fun _ _ _ => true;
     DeepEqual_Status_unmodelled := fun _ _ _ => true |}.

Definition noFailure (c : Call) : bool := false.

(** A pool with the given uid-to-address entries and pool pods. *)
Definition pool (ss : list (string * loc)) (pods : list ApplicationPod)
  : ApplicationPool :=
  {| pool_sessions := list_to_map ss;
     pool_pods := list_to_map ((fun p => (podName p, p)) <$> pods) |}.

Definition openFailsOn (name : string) (c : Call) : bool :=
  match c with
  | OpenSession pod _ _ => bool_decide (util.Name pod = name)
  | _ => false
  end.

End sample.

(** ** The bands of the specification *)

Inductive Band :=
| BandClosing
| BandDeleting
| BandTimeout
| BandPending
| BandActive.

#[global] Instance Band_eq_dec : EqDecision Band.
Proof. solve_decision. Defined.

(** The open timeout as the specification words it:
    [spec.openTimeoutSeconds] seconds when positive, 10 s otherwise. *)
Definition specOpenTimeout (s : ApplicationSession) : Z :=
  if decide (0 < OpenTimeoutSeconds (Spec s))
  then OpenTimeoutSeconds (Spec s) * 1000000000
  else 10 * 1000000000.

(** The band of a session as the specification words it, by precedence:
    closing, deleting, timeout, pending, active, or none. *)
Definition specBand (now : Z) (s : ApplicationSession) : option Band :=
  let st := sessionStatus (Status s) in
  if decide (st = SessionStatusClosing) then Some BandClosing
  else if decide (DeletionTimestamp s <> None) then Some BandDeleting
  else if decide ((st = SessionStatusUnspecified \/ st = SessionStatusPending
                   \/ st = SessionStatusStarting)
                  /\ now - CreationTimestamp s > specOpenTimeout s)
       then Some BandTimeout
  else if decide (st = SessionStatusUnspecified \/ st = SessionStatusPending)
       then Some BandPending
  else if decide (st = SessionStatusStarting \/ st = SessionStatusAvailable
                  \/ st = SessionStatusInUse)
       then Some BandActive
  else None.

(** The list of [groupSessionsByState] that holds a band. *)
Definition bandList (b : Band) (g : SessionGroups) : list loc :=
  match b with
  | BandClosing => closingSessions g
  | BandDeleting => deletingSessions g
  | BandTimeout => timeoutSessions g
  | BandPending => pendingSessions g
  | BandActive => activeSessions g
  end.

(** [OpenTimeoutSeconds] is a [uint32]. *)
Definition uint32 (z : Z) : Prop := 0 <= z < 2 ^ 32.

(** ** The invariant of the pools *)

(** A session that is not in a terminal state. *)
Definition notTerminal (s : ApplicationSession) : Prop :=
  util.SessionInTerminalState s = false.

(** Any session at all. *)
Definition anySession (s : ApplicationSession) : Prop := True.

(** Every session of the pool [p] is an object of the heap [h] and
    satisfies [P]. With [anySession] this says that the pool holds no
    dangling pointer; with [notTerminal] it also says that no session of the
    pool is in a terminal state. *)
Definition poolOk (P : ApplicationSession -> Prop)
  (h : gmap loc ApplicationSession) (p : ApplicationPool) : Prop :=
  forall uid v, pool_sessions p !! uid = Some v ->
    exists s, h !! v = Some s /\ P s.

Definition poolInv (P : ApplicationSession -> Prop) (w : World) : Prop :=
  forall key p, applicationPools w !! key = Some p -> poolOk P (heap w) p.

(** What the handlers need of [P]: it holds of the sessions they put in a
    pool, and the two assignments they make to a pooled session keep it. *)
Definition preserved (P : ApplicationSession -> Prop) : Prop :=
  (forall s, notTerminal s -> P s)
  /\ (forall s t, P s -> P (setDeletionTimestamp t s))
  /\ (forall s, P (setStatus (setSessionStatus SessionStatusClosing (Status s)) s)).

(** A sequence of events on the pools: a new session object arrives from
    the informer or from a node, or [updateSessionPool] is run on an object
    that exists. *)
Inductive poolSteps (E : Env) : World -> World -> Prop :=
| poolSteps_refl w : poolSteps E w w
| poolSteps_alloc w w' l s :
    poolSteps E w w' ->
    heap w' !! l = None ->
    poolSteps E w (setHeap (<[l := s]> (heap w')) w')
| poolSteps_update w w' w'' key l deleted :
    poolSteps E w w' ->
    is_Some (heap w' !! l) ->
    updateSessionPool E key l deleted w' = Some (tt, w'') ->
    poolSteps E w w''.

(** ** What a handler leaves alone *)

Definition isTerminatePod (c : Call) : bool :=
  match c with
  | TerminatePod _ => true
  | _ => false
  end.

(** From [w] to [w']: the calls made in between do not terminate a pod, and
    every session object is still there with the [Spec] it had. *)
Definition extends (w w' : World) : Prop :=
  (exists cs, calls w' = calls w ++ cs /\ List.filter isTerminatePod cs = [])
  /\ (forall l s, heap w !! l = Some s ->
        exists s', heap w' !! l = Some s' /\ Spec s' = Spec s).

(** The computation [m] returns from [w], keeps the invariant of the pools
    and terminates no pod. *)
Definition safe {A} (P : ApplicationSession -> Prop) (m : M A) (w : World)
  : Prop :=
  exists a w', m w = Some (a, w') /\ poolInv P w' /\ extends w w'.

(** ** package application: the functions around the handlers *)

(** [int32] arithmetic wraps around. *)
Definition wrap32 (z : Z) : Z := (z + 2 ^ 31) mod 2 ^ 32 - 2 ^ 31.

(** The counters are [int32]. *)
Record ApplicationSessionSummary := {
  pendingCount : Z;
  startingCount : Z;
  idleCount : Z;
  inUseCount : Z;
  timeoutCount : Z;
  closedCount : Z;
  deletingCount : Z
}.

Definition noSummary : ApplicationSessionSummary :=
  {| pendingCount := 0; startingCount := 0; idleCount := 0; inUseCount := 0;
     timeoutCount := 0; closedCount := 0; deletingCount := 0 |}.

(** [summary.pendingCount += 1] and its six siblings. *)
Definition incPending (c : ApplicationSessionSummary) : ApplicationSessionSummary :=
  {| pendingCount := wrap32 (pendingCount c + 1);
     startingCount := startingCount c; idleCount := idleCount c;
     inUseCount := inUseCount c; timeoutCount := timeoutCount c;
     closedCount := closedCount c; deletingCount := deletingCount c |}.

Definition incStarting (c : ApplicationSessionSummary) : ApplicationSessionSummary :=
  {| pendingCount := pendingCount c;
     startingCount := wrap32 (startingCount c + 1); idleCount := idleCount c;
     inUseCount := inUseCount c; timeoutCount := timeoutCount c;
     closedCount := closedCount c; deletingCount := deletingCount c |}.

Definition incIdle (c : ApplicationSessionSummary) : ApplicationSessionSummary :=
  {| pendingCount := pendingCount c;
     startingCount := startingCount c; idleCount := wrap32 (idleCount c + 1);
     inUseCount := inUseCount c; timeoutCount := timeoutCount c;
     closedCount := closedCount c; deletingCount := deletingCount c |}.

Definition incInUse (c : ApplicationSessionSummary) : ApplicationSessionSummary :=
  {| pendingCount := pendingCount c;
     startingCount := startingCount c; idleCount := idleCount c;
     inUseCount := wrap32 (inUseCount c + 1); timeoutCount := timeoutCount c;
     closedCount := closedCount c; deletingCount := deletingCount c |}.

Definition incTimeout (c : ApplicationSessionSummary) : ApplicationSessionSummary :=
  {| pendingCount := pendingCount c;
     startingCount := startingCount c; idleCount := idleCount c;
     inUseCount := inUseCount c; timeoutCount := wrap32 (timeoutCount c + 1);
     closedCount := closedCount c; deletingCount := deletingCount c |}.

Definition incClosed (c : ApplicationSessionSummary) : ApplicationSessionSummary :=
  {| pendingCount := pendingCount c;
     startingCount := startingCount c; idleCount := idleCount c;
     inUseCount := inUseCount c; timeoutCount := timeoutCount c;
     closedCount := wrap32 (closedCount c + 1); deletingCount := deletingCount c |}.

Definition incDeleting (c : ApplicationSessionSummary) : ApplicationSessionSummary :=
  {| pendingCount := pendingCount c;
     startingCount := startingCount c; idleCount := idleCount c;
     inUseCount := inUseCount c; timeoutCount := timeoutCount c;
     closedCount := closedCount c; deletingCount := wrap32 (deletingCount c + 1) |}.

(** Modelled from the spec: the constant [SessionStatusOccupied] is missing
    from the sources, whose API types name the status of a session in use
    [SessionStatusInUse]. *)
Definition SessionStatusOccupied : SessionStatus := SessionStatusInUse.

(** The body of the loop of [summarySessions]. *)
Definition summarySession (v : ApplicationSession)
  (summary : ApplicationSessionSummary) : ApplicationSessionSummary :=
  match DeletionTimestamp v with
  | None =>
      let st := sessionStatus (Status v) in
      if decide (st = SessionStatusUnspecified \/ st = SessionStatusPending)
      then incPending summary
      else if decide (st = SessionStatusAvailable) then incIdle summary
      else if decide (st = SessionStatusStarting) then incStarting summary
      else if decide (st = SessionStatusOccupied) then incInUse summary
      else if decide (st = SessionStatusClosed) then incClosed summary
      else if decide (st = SessionStatusTimeout) then incTimeout summary
      else incPending summary
  | Some _ => incDeleting summary
  end.

(** Whether the session at [v] refers to the pod [podName]:
    [v.Status.PodReference != nil && v.Status.PodReference.Name == podName]. *)
Definition refersToPod (podName : string) (s : ApplicationSession) : bool :=
  match PodReference (Status s) with
  | Some ref => bool_decide (v1.Name ref = podName)
  | None => false
  end.

(** k8s.io/apimachinery/pkg/util/validation/field *)
Module field.

Inductive ErrorType :=
| ErrorTypeNotFound
| ErrorTypeRequired
| ErrorTypeDuplicate
| ErrorTypeInvalid
| ErrorTypeNotSupported
| ErrorTypeForbidden
| ErrorTypeTooLong
| ErrorTypeTooMany
| ErrorTypeInternal
| ErrorTypeTypeInvalid.

Record Error := {
  Type_ : ErrorType;
  Field : string;
  Detail : string
}.

End field.

(** [Validate] of an [ApplicationSession]: the list of errors, nil when
    there is none. *)
Definition Validate (s : ApplicationSession) : list field.Error :=
  let errorList := [] in
  let errorList :=
    if (String.length (ApplicationName (Spec s)) =? 0)%nat
    then errorList ++ [{| field.Type_ := field.ErrorTypeRequired;
                          field.Field := "Spec.ApplicationName";
                          field.Detail := "" |}]
    else errorList in
  let errorList :=
    if (String.length (SessionData (Spec s)) =? 0)%nat
    then errorList ++ [{| field.Type_ := field.ErrorTypeRequired;
                          field.Field := "Spec.SessionData";
                          field.Detail := "" |}]
    else errorList in
  if decide (0 < length errorList)%nat then errorList else [].

Section application_more.

Context (E : Env).

(** *** sessionLength, summarySessions, getTotalAndPendingSessionNum *)

Definition sessionLength (pool : option string) : M Z :=
  let* p := derefPool pool in
  ret (Z.of_nat (size (pool_sessions p))).

Fixpoint summarySessionsLoop (vs : list loc)
  (summary : ApplicationSessionSummary) : M ApplicationSessionSummary :=
  match vs with
  | [] => ret summary
  | v :: rest =>
      let* s := load v in
      summarySessionsLoop rest (summarySession s summary)
  end.

Definition summarySessions (pool : option string)
  : M ApplicationSessionSummary :=
  (* pool.mu.RLock() *)
  derefPool pool >>
  let* vs := sessionList pool in
  summarySessionsLoop vs noSummary.

Definition getTotalAndPendingSessionNum (applicationKey : string)
  : M (Z * Z) :=
  let* pool := getApplicationPool applicationKey in
  match pool with
  | Some _ =>
      let* summary := summarySessions pool in
      ret (wrap32 (wrap32 (wrap32 (wrap32 (idleCount summary + inUseCount summary)
                                     + pendingCount summary)
                             + startingCount summary)
                     + deletingCount summary),
           pendingCount summary)
  | None => ret (0, 0)
  end.

(** *** sessionHouseKeeping *)

(** Modelled from the spec: [applicationList] is missing from the sources;
    it is a snapshot of all the pools. *)
Definition applicationList : M (list (option string)) :=
  let* w := get in
  ret (Some <$> (map_to_list (applicationPools w)).*1).

Fixpoint houseKeepSessions (timeoutSessions : list loc) : M unit :=
  match timeoutSessions with
  | [] => ret tt
  | v :: rest =>
      changeSessionStatus E v SessionStatusTimeout
      >> houseKeepSessions rest
  end.

Fixpoint houseKeepPools (apps : list (option string)) : M unit :=
  match apps with
  | [] => ret tt
  | v :: rest =>
      let* g := groupSessionsByState E v in
      houseKeepSessions (timeoutSessions g)
      >> houseKeepPools rest
  end.

Definition sessionHouseKeeping : M (option string) :=
  let* apps := applicationList in
  houseKeepPools apps >> ret None.

(** *** cleanupSessionOnDeletedPod *)

(** The first loop: the sessions of the pod leave the pool and are
    collected in [podSessions]. *)
Fixpoint deletePodSessions (pool : option string) (podName : string)
  (sessions : list loc) (podSessions : list loc) : M (list loc) :=
  match sessions with
  | [] => ret podSessions
  | v :: rest =>
      let* s := load v in
      if refersToPod podName s then
        deleteSession pool (GetUID s)
        >> deletePodSessions pool podName rest (podSessions ++ [v])
      else deletePodSessions pool podName rest podSessions
  end.

(** The body of the goroutine started at the end. *)
Fixpoint updateDeadSessions (podSessions : list loc) : M unit :=
  match podSessions with
  | [] => ret tt
  | v :: rest =>
      let* s := load v in
      (if util.SessionIsOpen s
       then changeSessionStatus E v SessionStatusClosed >> ret tt
       else if util.SessionIsPending s
       then changeSessionStatus E v SessionStatusTimeout >> ret tt
       else ret tt)
      >> updateDeadSessions rest
  end.

(** [cleanupSessionOnDeletedPod]: the error, and the list [podSessions]
    that the goroutine it starts, [updateDeadSessions], is going to walk. *)
Definition cleanupSessionOnDeletedPod (pool : option string)
  (podName : string) : M (option string * list loc) :=
  let* sessions := sessionList pool in
  let* podSessions := deletePodSessions pool podName sessions [] in
  ret (None, podSessions).

(** *** cleanupSessionOfApplication *)

Definition cleanupSessionOfApplication (applicationKey : string)
  : M (option string) :=
  let* pool := getApplicationPool applicationKey in
  match pool with
  | None => ret None
  | Some _ =>
      let* sessions := sessionList pool in
      let* deleteErrors :=
        cleanupDeletingSessions E applicationKey sessions [] in
      if decide (length deleteErrors <> 0%nat)
      then ret (Some ("Some sessions failed to be deleted, errors="
                      +:+ formatErrors deleteErrors))
      else ret None
  end.

End application_more.

(** ** Notions used to state the properties *)

(** The computation [m] returns from [w], with a result and a world that
    satisfy [Q]. *)
Definition runs {A} (m : M A) (w : World) (Q : A -> World -> Prop) : Prop :=
  exists a w', m w = Some (a, w') /\ Q a w'.

(** The number of sessions of [ss] that satisfy [f]. *)
Definition countWhere (f : ApplicationSession -> bool)
  (ss : list ApplicationSession) : Z :=
  Z.of_nat (length (List.filter f ss)).

(** [ss] are the session objects at the addresses [vs]. *)
Definition objectsAt (w : World) (vs : list loc) (ss : list ApplicationSession)
  : Prop :=
  Forall2 (fun v s => heap w !! v = Some s) vs ss.

(** [summarySessions] on the objects themselves. *)
Definition summarize (ss : list ApplicationSession)
  (summary : ApplicationSessionSummary) : ApplicationSessionSummary :=
  fold_left (fun summary v => summarySession v summary) ss summary.

(** A session has a deletion timestamp. *)
Definition isDeleting (s : ApplicationSession) : bool :=
  bool_decide (DeletionTimestamp s <> None).

(** A session has no deletion timestamp and its status is one of [sts]. *)
Definition liveWith (sts : list SessionStatus) (s : ApplicationSession) : bool :=
  negb (isDeleting s) && bool_decide (sessionStatus (Status s) ∈ sts).

(** The pods of [p] once [uid] has left the session set of the pod that the
    session [s] refers to, if that pod is in the pool. *)
Definition podsWithout (s : ApplicationSession) (p : ApplicationPool)
  : gmap string ApplicationPod :=
  match PodReference (Status s) with
  | Some ref =>
      match pool_pods p !! v1.Name ref with
      | Some pod =>
          <[v1.Name ref := {| podName := podName pod;
                              sessions := sessions pod ∖ {[GetUID s]} |}]>
            (pool_pods p)
      | None => pool_pods p
      end
  | None => pool_pods p
  end.

(** The pool [p] once the session [s] has left it. *)
Definition poolWithout (s : ApplicationSession) (p : ApplicationPool)
  : ApplicationPool :=
  {| pool_sessions := delete (GetUID s) (pool_sessions p);
     pool_pods := podsWithout s p |}.

Definition isOpenSession (c : Call) : bool :=
  match c with
  | OpenSession _ _ _ => true
  | _ => false
  end.

(** From [w] to [w'] no pool appears and no pool gains a session. *)
Definition shrinks (w w' : World) : Prop :=
  forall k p', applicationPools w' !! k = Some p' ->
    exists p, applicationPools w !! k = Some p
              /\ pool_sessions p' ⊆ pool_sessions p.

(** From [w] to [w'] no pool gains a session, nothing is enqueued, no pod is
    terminated, and every session object is still there with its metadata
    and its spec. *)
Definition evolves (w w' : World) : Prop :=
  shrinks w w'
  /\ queue w' = queue w
  /\ (exists cs, calls w' = calls w ++ cs /\ List.filter isTerminatePod cs = [])
  /\ (forall l s, heap w !! l = Some s ->
        exists s', heap w' !! l = Some s' /\ Spec s' = Spec s
                   /\ ObjectMeta s' = ObjectMeta s).

(** A call that reports the status Timeout, with the client sessions
    emptied, for a session that has no deletion timestamp and is
    Unspecified, Pending or Starting. *)
Definition isHouseKeepingCall (c : Call) : bool :=
  match c with
  | UpdateSessionStatus s st =>
      bool_decide (st = setClientSessions []
                          (setSessionStatus SessionStatusTimeout (Status s)))
      && liveWith [SessionStatusUnspecified; SessionStatusPending;
                   SessionStatusStarting] s
  | _ => false
  end.

(** From [w] to [w'] nothing changes but the clock and the calls, and every
    call made satisfies [ok]. *)
Definition reportsOnly (ok : Call -> bool) (w w' : World) : Prop :=
  heap w' = heap w
  /\ applicationPools w' = applicationPools w
  /\ queue w' = queue w
  /\ goroutines w' = goroutines w
  /\ exists cs, calls w' = calls w ++ cs /\ forallb ok cs = true.

(** Whether the object at [v] refers to the pod [podName]. *)
Definition refersAt (w : World) (podName : string) (v : loc) : bool :=
  match heap w !! v with
  | Some s => refersToPod podName s
  | None => false
  end.

(** The calls of the goroutine of [cleanupSessionOnDeletedPod] for one
    session. *)
Definition deadSessionCalls (s : ApplicationSession) : list Call :=
  if util.SessionIsOpen s
  then [UpdateSessionStatus s
          (setClientSessions []
             (setSessionStatus SessionStatusClosed (Status s)))]
  else if util.SessionIsPending s
  then [UpdateSessionStatus s
          (setClientSessions []
             (setSessionStatus SessionStatusTimeout (Status s)))]
  else [].

(** The address of the session that [onApplicationSessionUpdateEvent]
    copies to compare the new object with: the session the pool of [key]
    files under [uid] if there is one, [old] otherwise. *)
Definition cachedLoc (w : World) (key uid : string) (old : loc) : loc :=
  match applicationPools w !! key with
  | Some p => default old (pool_sessions p !! uid)
  | None => old
  end.

(** The number of slashes of a string. *)
Fixpoint countSlash (key : string) : nat :=
  match key with
  | EmptyString => 0
  | String c rest =>
      ((if Ascii.eqb c "/"%char then 1 else 0) + countSlash rest)%nat
  end.

(** Whether the object at [v] is an open session. *)
Definition openAt (w : World) (v : loc) : bool :=
  match heap w !! v with
  | Some s => util.SessionIsOpen s
  | None => false
  end.

(** The environment [E] but for [reflect.DeepEqual]: here any two session
    objects at different addresses differ in something that the records
    leave out, a resource version for instance. *)
Definition withUnmodelledChanges (E : Env) : Env :=
  {| clock := clock E;
     podManager_FindPod := podManager_FindPod E;
     podManager_TerminatePod := podManager_TerminatePod E;
     sessionManager_OpenSession := sessionManager_OpenSession E;
     sessionManager_CloseSession := sessionManager_CloseSession E;
     sessionManager_UpdateSessionStatus := sessionManager_UpdateSessionStatus E;
     PodNotTerminated := PodNotTerminated E;
     idleRunningPodsOf := idleRunningPodsOf E;
     DeepEqual_unmodelled := fun _ _ _ => false;
     DeepEqual_Status_unmodelled := fun _ x y => bool_decide (x = y) |}.

(** * Properties *)

(** ** The monad *)

Lemma bind_Some {A B} (m : M A) (k : A -> M B) w a w' :
  m w = Some (a, w') -> bind m k w = k a w'.
Proof. intros H. unfold bind. by rewrite H. Qed.

Lemma bind_assoc {A B C} (m : M A) (f : A -> M B) (g : B -> M C) w :
  bind (bind m f) g w = bind m (fun x => bind (f x) g) w.
Proof. unfold bind. destruct (m w) as [[a w']|]; done. Qed.

Lemma bind_ret {A B} (a : A) (k : A -> M B) w : bind (ret a) k w = k a w.
Proof. done. Qed.

Lemma load_Some w l s : heap w !! l = Some s -> load l w = Some (s, w).
Proof. intros H. unfold load. by rewrite H. Qed.

Lemma modify_Some w l s f :
  heap w !! l = Some s ->
  modify l f w = Some (tt, setHeap (<[l := f s]> (heap w)) w).
Proof. intros H. unfold modify. by rewrite (bind_Some _ _ _ _ _ (load_Some _ _ _ H)). Qed.

Lemma setStatus_Status s : setStatus (Status s) s = s.
Proof. by destruct s. Qed.

Lemma setStatus_setStatus st st' s : setStatus st (setStatus st' s) = setStatus st s.
Proof. done. Qed.

(** ** changeSessionStatus *)

Lemma changeSessionStatus_run (E : Env) w v s status :
  heap w !! v = Some s ->
  changeSessionStatus E v status w
  = Some (sessionManager_UpdateSessionStatus E w s (changedStatus s status),
          record (UpdateSessionStatus s (changedStatus s status)) w).
Proof.
  intros Hv. unfold changeSessionStatus.
  by rewrite (bind_Some _ _ _ _ _ (load_Some _ _ _ Hv)).
Qed.

(** C10. [changeSessionStatus] hands to [UpdateSessionStatus] a copy of the
    session and a copy of its status whose [sessionStatus] is the target and
    whose [clientSessions] is emptied exactly when the target is Closed or
    Timeout; every other field of the status is carried over, and neither
    the session objects nor the pools change. *)
Theorem changeSessionStatus_persists_copy (E : Env) (w : World) (v : loc)
    (s : ApplicationSession) (status : SessionStatus) :
  heap w !! v = Some s ->
  exists newStatus w',
    changeSessionStatus E v status w
      = Some (sessionManager_UpdateSessionStatus E w s newStatus, w')
    /\ calls w' = calls w ++ [UpdateSessionStatus s newStatus]
    /\ sessionStatus newStatus = status
    /\ ClientSessions newStatus
       = (if decide (status = SessionStatusClosed \/ status = SessionStatusTimeout)
          then [] else ClientSessions (Status s))
    /\ AccessEndPoints newStatus = AccessEndPoints (Status s)
    /\ PodReference newStatus = PodReference (Status s)
    /\ AvailableTime newStatus = AvailableTime (Status s)
    /\ CloseTime newStatus = CloseTime (Status s)
    /\ AvailableTimeMicro newStatus = AvailableTimeMicro (Status s)
    /\ heap w' = heap w
    /\ applicationPools w' = applicationPools w
    /\ queue w' = queue w.
Proof.
  intros Hv.
  exists (changedStatus s status),
    (record (UpdateSessionStatus s (changedStatus s status)) w).
  rewrite (changeSessionStatus_run E w v s status Hv).
  unfold changedStatus.
  repeat split; case_decide; reflexivity.
Qed.

Lemma changeSessionStatus_persists_copy_witness :
  exists newStatus w',
    changeSessionStatus (sample.env [] sample.noFailure) 0%nat SessionStatusTimeout
      (sample.world [sample.session "u1" "a/x" false SessionStatusPending None None] ∅)
      = Some (None, w')
    /\ calls w' = [UpdateSessionStatus
                     (sample.session "u1" "a/x" false SessionStatusPending None None)
                     newStatus]
    /\ sessionStatus newStatus = SessionStatusTimeout
    /\ ClientSessions newStatus = [].
Proof.
  destruct (changeSessionStatus_persists_copy (sample.env [] sample.noFailure)
    (sample.world [sample.session "u1" "a/x" false SessionStatusPending None None] ∅)
    0%nat (sample.session "u1" "a/x" false SessionStatusPending None None)
    SessionStatusTimeout) as (st & w' & H1 & H2 & H3 & H4 & _).
  - reflexivity.
  - exists st, w'. repeat split; assumption.
Defined.

(** ** bindSessionToPod *)

Lemma bindPorts_endpoints s ports st :
  AccessEndPoints (bindPorts s ports st)
  = match last ports with
    | Some port => AccessEndPoints (Status s) ++ [endPointOfPort port]
    | None => AccessEndPoints st
    end.
Proof.
  revert st. induction ports as [|p ports IH]; intros st; [done|].
  unfold bindPorts in *. simpl fold_left. rewrite IH.
  rewrite last_cons. by destruct (last ports).
Qed.

Lemma bindPorts_other s ports st :
  sessionStatus (bindPorts s ports st) = sessionStatus st
  /\ ClientSessions (bindPorts s ports st) = ClientSessions st
  /\ PodReference (bindPorts s ports st) = PodReference st.
Proof.
  revert st. induction ports as [|p ports IH]; intros st; [done|].
  unfold bindPorts in *. simpl fold_left.
  destruct (IH (setAccessEndPoints
    (AccessEndPoints (Status s) ++ [endPointOfPort p]) st)) as (-> & -> & ->).
  done.
Qed.

(** The endpoints of the bound status: the prior endpoints of the session
    and, when the pod declares a port at all, the endpoint of the last
    declared port only. *)
Lemma bindContainers_endpoints s containers st :
  AccessEndPoints (bindContainers s containers st)
  = match last (concat (v1.Ports <$> containers)) with
    | Some port => AccessEndPoints (Status s) ++ [endPointOfPort port]
    | None => AccessEndPoints st
    end.
Proof.
  revert st. induction containers as [|c cs IH]; intros st; [done|].
  unfold bindContainers in *. simpl fold_left. rewrite IH.
  rewrite fmap_cons. simpl concat. rewrite last_app.
  destruct (last (concat (v1.Ports <$> cs))); [done|].
  apply bindPorts_endpoints.
Qed.

Lemma bindContainers_other s containers st :
  sessionStatus (bindContainers s containers st) = sessionStatus st
  /\ ClientSessions (bindContainers s containers st) = ClientSessions st
  /\ PodReference (bindContainers s containers st) = PodReference st.
Proof.
  revert st. induction containers as [|c cs IH]; intros st; [done|].
  unfold bindContainers in *. simpl fold_left.
  destruct (IH (bindPorts s (v1.Ports c) st)) as (-> & -> & ->).
  apply bindPorts_other.
Qed.

Lemma boundStatus_fields pod s :
  sessionStatus (boundStatus pod s) = SessionStatusStarting
  /\ PodReference (boundStatus pod s) = Some {| v1.Name := util.Name pod |}
  /\ AccessEndPoints (boundStatus pod s)
     = AccessEndPoints (Status s)
       ++ match last (concat (v1.Ports <$> v1.Containers (v1.Spec pod))) with
          | Some port => [endPointOfPort port]
          | None => []
          end.
Proof.
  unfold boundStatus. simpl. split; [|split; [done|]].
  - by destruct (bindContainers_other s (v1.Containers (v1.Spec pod))
      (setSessionStatus SessionStatusStarting (Status s))) as (-> & _).
  - rewrite bindContainers_endpoints.
    destruct (last _); [done|]. simpl. by rewrite app_nil_r.
Qed.

(** What [bindSessionToPod] does, for either answer of [OpenSession]. *)
Lemma bindSessionToPod_run (E : Env) key pod (session : loc) s w :
  heap w !! session = Some s ->
  let s1 := setStatus (boundStatus pod s) s in
  let w1 := setHeap (<[session := s1]> (heap w)) w in
  bindSessionToPod E key pod session w
  = match sessionManager_OpenSession E w1 pod s1 with
    | Some err => Some (Some err, record (OpenSession pod session s1) w)
    | None => Some (None, record (OpenSession pod session s1) w1)
    end.
Proof.
  intros Hs s1 w1. unfold bindSessionToPod.
  rewrite (bind_Some _ _ _ _ _ (load_Some _ _ _ Hs)).
  rewrite (bind_Some _ _ _ _ _ (modify_Some _ _ _ _ Hs)).
  fold s1 w1.
  assert (Hs1 : heap w1 !! session = Some s1) by apply lookup_insert_eq.
  unfold sessionManager_OpenSession_call.
  rewrite (bind_Some _ _ _ _ _
    (bind_Some _ _ _ _ _ (load_Some _ _ _ Hs1))).
  destruct (sessionManager_OpenSession E w1 pod s1) as [err|]; [|done].
  assert (Hs2 : heap (record (OpenSession pod session s1) w1) !! session = Some s1)
    by apply Hs1.
  rewrite (bind_Some _ _ _ _ _ (modify_Some _ _ _ _ Hs2)).
  unfold ret. do 2 f_equal.
  unfold record, setCalls, setHeap, w1. simpl. f_equal.
  rewrite insert_insert_eq. subst s1. rewrite setStatus_setStatus, setStatus_Status.
  by apply insert_id.
Qed.

(** C7. When [OpenSession] answers with an error, [bindSessionToPod] returns
    that error and leaves the session as it was before the bind: status,
    pod reference and endpoints are those of the snapshot (a Pending session
    is still Pending), and the pools are untouched. *)
Theorem bindSessionToPod_error_reverts (E : Env) (key : string) (pod : v1.Pod)
    (session : loc) (s : ApplicationSession) (w : World) (err : string) :
  heap w !! session = Some s ->
  sessionManager_OpenSession E
    (setHeap (<[session := setStatus (boundStatus pod s) s]> (heap w)) w)
    pod (setStatus (boundStatus pod s) s) = Some err ->
  exists w',
    bindSessionToPod E key pod session w = Some (Some err, w')
    /\ heap w' !! session = Some s
    /\ heap w' = heap w
    /\ applicationPools w' = applicationPools w
    /\ calls w'
       = calls w ++ [OpenSession pod session (setStatus (boundStatus pod s) s)].
Proof.
  intros Hs Herr. rewrite (bindSessionToPod_run E key pod session s w Hs).
  simpl. rewrite Herr. eexists. split; [reflexivity|]. by repeat split.
Qed.

Lemma bindSessionToPod_error_reverts_witness :
  let s := sample.session "u1" "a/x" false SessionStatusPending None None in
  let pod := sample.pod "P1" [8080] in
  exists w',
    bindSessionToPod (sample.env [pod] (sample.openFailsOn "P1")) "a/x" pod 0%nat
      (sample.world [s] ∅) = Some (Some "open failed"%string, w')
    /\ heap w' !! 0%nat = Some s
    /\ sessionStatus (Status s) = SessionStatusPending.
Proof.
  intros s pod.
  destruct (bindSessionToPod_error_reverts
    (sample.env [pod] (sample.openFailsOn "P1")) "a/x" pod 0%nat s
    (sample.world [s] ∅) "open failed") as (w' & H1 & H2 & _).
  - reflexivity.
  - reflexivity.
  - exists w'. repeat split; assumption.
Defined.

(** C1, at a pod that declares two ports. The bind succeeds, the session is
    Starting and refers to the pod, and its endpoints are the single
    endpoint of the last port: every iteration of the loop over the ports
    appends to the endpoints of the session, not to those collected so far,
    so the endpoint of port 8080 is lost. *)
Theorem bindSessionToPod_two_ports_keeps_last :
  let s := sample.session "u1" "a/x" false SessionStatusPending None None in
  let pod := sample.pod "P1" [8080; 8081] in
  exists w' s',
    bindSessionToPod (sample.env [pod] sample.noFailure) "a/x" pod 0%nat
      (sample.world [s] ∅) = Some (None, w')
    /\ heap w' !! 0%nat = Some s'
    /\ sessionStatus (Status s') = SessionStatusStarting
    /\ PodReference (Status s') = Some {| v1.Name := "P1" |}
    /\ AccessEndPoints (Status s')
       = [{| Protocol := "TCP"; IPAddress := "10.0.0.1"; Port := 8081 |}]
    /\ length (concat (v1.Ports <$> v1.Containers (v1.Spec pod))) = 2%nat.
Proof.
  intros s pod.
  rewrite (bindSessionToPod_run _ "a/x" pod 0%nat s (sample.world [s] ∅) eq_refl).
  simpl. eexists _, _. split; [reflexivity|]. split; [reflexivity|].
  by repeat split.
Qed.

(** ** closeApplicationSession *)

(** C8. For an open session (Starting, Available or InUse) with a pod
    reference, [closeApplicationSession] asks PodManager for the pod; when
    the pod is found, the session object becomes Closing and
    [CloseSession] is called with that pod and session; when it is not
    found, the session is marked Closed through [UpdateSessionStatus] (on a
    copy) and nil is returned. For a session that is not open, or that has
    no pod reference, nothing happens at all and nil is returned. *)
Theorem closeApplicationSession_cases (E : Env) (w : World) (session : loc)
    (s : ApplicationSession) :
  heap w !! session = Some s ->
  let isOpen :=
    sessionStatus (Status s) = SessionStatusStarting
    \/ sessionStatus (Status s) = SessionStatusAvailable
    \/ sessionStatus (Status s) = SessionStatusInUse in
  (forall ref pod,
     isOpen -> PodReference (Status s) = Some ref ->
     podManager_FindPod E w (v1.Name ref) = Some pod ->
     let closing := setStatus (setSessionStatus SessionStatusClosing (Status s)) s in
     let w1 := setHeap (<[session := closing]> (heap w)) (record (FindPod (v1.Name ref)) w) in
     closeApplicationSession E session w
     = Some (sessionManager_CloseSession E w1 pod closing,
             record (CloseSession pod session closing) w1)
     /\ sessionStatus (Status closing) = SessionStatusClosing)
  /\ (forall ref,
        isOpen -> PodReference (Status s) = Some ref ->
        podManager_FindPod E w (v1.Name ref) = None ->
        exists newStatus,
          closeApplicationSession E session w
          = Some (None, record (UpdateSessionStatus s newStatus)
                          (record (FindPod (v1.Name ref)) w))
          /\ sessionStatus newStatus = SessionStatusClosed)
  /\ (~ isOpen \/ PodReference (Status s) = None ->
      closeApplicationSession E session w = Some (None, w)).
Proof.
  intros Hs isOpen.
  assert (Hopen : isOpen <-> util.SessionIsOpen s = true).
  { unfold isOpen, util.SessionIsOpen.
    destruct (sessionStatus (Status s)); simpl; split; intros H;
      try reflexivity; try discriminate; auto;
      destruct H as [H|[H|H]]; discriminate. }
  unfold closeApplicationSession.
  rewrite (bind_Some _ _ _ _ _ (load_Some _ _ _ Hs)).
  split; [|split].
  - intros ref pod Ho Href Hpod.
    apply Hopen in Ho. rewrite Ho, Href. split; [|done].
    unfold podManager_FindPod_call at 1. unfold bind at 1. rewrite Hpod.
    assert (Hs0 : heap (record (FindPod (v1.Name ref)) w) !! session = Some s)
      by apply Hs.
    rewrite (bind_Some _ _ _ _ _ (modify_Some _ _ _ _ Hs0)).
    unfold sessionManager_CloseSession_call.
    match goal with
    | |- context [setHeap (<[session := ?c]> ?h) ?w0] =>
        assert (Hs1 : heap (setHeap (<[session := c]> h) w0) !! session = Some c)
          by apply lookup_insert_eq
    end.
    by rewrite (bind_Some _ _ _ _ _ (load_Some _ _ _ Hs1)).
  - intros ref Ho Href Hpod.
    apply Hopen in Ho. rewrite Ho, Href.
    unfold podManager_FindPod_call at 1. unfold bind at 1. rewrite Hpod.
    assert (Hs0 : heap (record (FindPod (v1.Name ref)) w) !! session = Some s)
      by apply Hs.
    exists (changedStatus s SessionStatusClosed).
    unfold changeSessionStatus.
    unfold bind at 1.
    rewrite (bind_Some _ _ _ _ _ (load_Some _ _ _ Hs0)).
    unfold sessionManager_UpdateSessionStatus_call. done.
  - intros [Hno | Href].
    + destruct (util.SessionIsOpen s) eqn:Ho; [|done].
      exfalso. by apply Hno, Hopen.
    + rewrite Href. by destruct (util.SessionIsOpen s).
Qed.

Lemma closeApplicationSession_cases_witness :
  let s := sample.session "u1" "a/x" false SessionStatusAvailable (Some "P1") None in
  let pod := sample.pod "P1" [8080] in
  let closing := setStatus (setSessionStatus SessionStatusClosing (Status s)) s in
  exists w',
    closeApplicationSession (sample.env [pod] sample.noFailure) 0%nat
      (sample.world [s] ∅) = Some (None, w')
    /\ calls w' = [FindPod "P1"; CloseSession pod 0%nat closing]
    /\ heap w' !! 0%nat = Some closing.
Proof.
  intros s pod closing.
  destruct (closeApplicationSession_cases (sample.env [pod] sample.noFailure)
    (sample.world [s] ∅) 0%nat s eq_refl) as (H & _).
  destruct (H {| v1.Name := "P1" |} pod) as (Hrun & _).
  - right. left. reflexivity.
  - reflexivity.
  - reflexivity.
  - eexists. split; [exact Hrun|]. split; reflexivity.
Defined.

(** ** groupSessionsByState *)

Lemma wrap64_small z : - 2 ^ 63 <= z < 2 ^ 63 -> time.wrap64 z = z.
Proof.
  intros H. unfold time.wrap64.
  rewrite Z.mod_small; lia.
Qed.

(** The threshold computed by the loop is [now] minus the open timeout of
    the specification. *)
Lemma pendingTimeoutTimeStamp_spec now s :
  uint32 (OpenTimeoutSeconds (Spec s)) ->
  time.Add now
    (time.mul (-1)
       (if 0 <? OpenTimeoutSeconds (Spec s)
        then time.mul (OpenTimeoutSeconds (Spec s)) time.Second
        else DefaultSessionOpenTimeoutDuration))
  = now - specOpenTimeout s.
Proof.
  unfold uint32, specOpenTimeout, time.Add,
    DefaultSessionOpenTimeoutDuration, time.Second.
  intros H. change (2 ^ 32) with 4294967296 in H.
  assert (Hw : forall z, -9223372036854775808 <= z < 9223372036854775808 ->
                         time.wrap64 z = z) by apply wrap64_small.
  unfold time.mul.
  destruct (Z.ltb_spec 0 (OpenTimeoutSeconds (Spec s))).
  - rewrite decide_True by done.
    rewrite (Hw (OpenTimeoutSeconds (Spec s) * 1000000000)).
    + rewrite Hw; lia.
    + lia.
  - rewrite decide_False by lia. rewrite Hw by lia. lia.
Qed.

(** One iteration of the loop puts the session in the band of the
    specification. *)
Lemma groupSession_bandList now v s g b x :
  uint32 (OpenTimeoutSeconds (Spec s)) ->
  x ∈ bandList b (groupSession now v s g)
  <-> x ∈ bandList b g \/ (x = v /\ specBand now s = Some b).
Proof.
  intros Hu. unfold groupSession.
  rewrite (pendingTimeoutTimeStamp_spec now s Hu).
  unfold specBand, util.SessionIsPending, util.SessionIsOpen, time.Before.
  destruct (Z.ltb_spec (CreationTimestamp s) (now - specOpenTimeout s)) as [Hlt|Hge];
    destruct (sessionStatus (Status s)) eqn:Hst;
    repeat (case_decide; simpl);
    try (exfalso; intuition (congruence || lia));
    destruct b; simpl; rewrite ?elem_of_app, ?list_elem_of_singleton;
    intuition congruence.
Qed.

Lemma groupSessionsLoop_run (E : Env) (vs : list loc) (g : SessionGroups) (w : World) :
  (forall v, v ∈ vs ->
     exists s, heap w !! v = Some s /\ uint32 (OpenTimeoutSeconds (Spec s))) ->
  exists g',
    groupSessionsLoop E vs g w = Some (g', setTicks (ticks w + length vs)%nat w)
    /\ forall b x,
         x ∈ bandList b g'
         <-> x ∈ bandList b g
             \/ exists i s, vs !! i = Some x /\ heap w !! x = Some s
                            /\ specBand (clock E (ticks w + i)%nat) s = Some b.
Proof.
  revert g w. induction vs as [|v vs IH]; intros g w Hvs.
  - exists g. split.
    + simpl. unfold ret. rewrite Nat.add_0_r. by destruct w.
    + intros b x. split; [by left|]. intros [H|(i & s & H & _)]; [done|].
      by rewrite lookup_nil in H.
  - destruct (Hvs v) as (s & Hs & Hu); [by left|].
    simpl groupSessionsLoop.
    rewrite (bind_Some _ _ _ _ _ (load_Some _ _ _ Hs)).
    unfold timeNow at 1. unfold bind at 1.
    destruct (IH (groupSession (clock E (ticks w)) v s g)
                (setTicks (S (ticks w)) w)) as (g' & Hrun & Hmem).
    { intros v' Hv'. apply Hvs. by right. }
    exists g'. split.
    + rewrite Hrun. do 2 f_equal. unfold setTicks. simpl. f_equal. lia.
    + intros b x. rewrite Hmem, groupSession_bandList by done. simpl.
      split.
      * intros [[H | [-> Hb]] | (i & s' & Hi & Hs' & Hb)].
        -- by left.
        -- right. exists 0%nat, s. by rewrite Nat.add_0_r.
        -- right. exists (S i), s'. by rewrite Nat.add_succ_r.
      * intros [H | (i & s' & Hi & Hs' & Hb)]; [by left; left|].
        destruct i as [|i].
        -- simpl in Hi. injection Hi as <-. left. right.
           rewrite Hs in Hs'. injection Hs' as <-.
           by rewrite Nat.add_0_r in Hb.
        -- right. exists i, s'. by rewrite Nat.add_succ_r in Hb.
Qed.

(** C2. [groupSessionsByState] reads the clock once per session and puts the
    session in the band the specification names, by precedence: closing iff
    the status is Closing; else deleting iff the deletion timestamp is set;
    else timeout iff the status is Unspecified, Pending or Starting and now
    minus the creation timestamp exceeds the open timeout
    ([openTimeoutSeconds] seconds when positive, 10 s otherwise); else
    pending iff Unspecified or Pending; else active iff Starting, Available
    or InUse. A session is therefore in at most one of the five lists. *)
Theorem groupSessionsByState_bands (E : Env) (w : World) (key : string)
    (pool : ApplicationPool) :
  applicationPools w !! key = Some pool ->
  let vs := (map_to_list (pool_sessions pool)).*2 in
  NoDup vs ->
  (forall v, v ∈ vs ->
     exists s, heap w !! v = Some s /\ uint32 (OpenTimeoutSeconds (Spec s))) ->
  exists g,
    groupSessionsByState E (Some key) w
      = Some (g, setTicks (ticks w + length vs)%nat w)
    /\ forall i v s,
         vs !! i = Some v -> heap w !! v = Some s ->
         (forall b, v ∈ bandList b g
                    <-> specBand (clock E (ticks w + i)%nat) s = Some b)
         /\ (forall b b', v ∈ bandList b g -> v ∈ bandList b' g -> b = b').
Proof.
  intros Hpool vs Hnd Hvs.
  destruct (groupSessionsLoop_run E vs noSessions w Hvs) as (g & Hrun & Hmem).
  exists g. split.
  - unfold groupSessionsByState, sessionList, derefPool, get.
    unfold bind at 1 2 3. simpl. rewrite Hpool. simpl. exact Hrun.
  - intros i v s Hi Hs.
    assert (Hb : forall b, v ∈ bandList b g
                   <-> specBand (clock E (ticks w + i)%nat) s = Some b).
    { intros b. rewrite Hmem. split.
      - intros [H | (j & s' & Hj & Hs' & Hb)].
        + destruct b; simpl in H; by apply elem_of_nil in H.
        + rewrite (NoDup_lookup _ _ _ _ Hnd Hi Hj). congruence.
      - intros Hb. right. by exists i, s. }
    split; [exact Hb|].
    intros b b' H H'. apply Hb in H. apply Hb in H'. congruence.
Qed.

Lemma groupSessionsByState_bands_witness :
  let s := sample.session "u1" "a/x" false SessionStatusPending None None in
  let w := sample.world [s] {["a/x" := sample.pool [("u1", 0%nat)] []]} in
  exists g,
    groupSessionsByState (sample.env [] sample.noFailure) (Some "a/x") w
      = Some (g, setTicks 1 w)
    /\ (forall b, 0%nat ∈ bandList b g <-> b = BandPending).
Proof.
  intros s w.
  destruct (groupSessionsByState_bands (sample.env [] sample.noFailure) w "a/x"
    (sample.pool [("u1", 0%nat)] [])) as (g & Hrun & Hband).
  - reflexivity.
  - vm_compute. apply NoDup_singleton.
  - intros v Hv. vm_compute in Hv. apply list_elem_of_singleton in Hv as ->.
    exists s. split; [reflexivity|]. unfold uint32. simpl. lia.
  - exists g. split; [exact Hrun|].
    intros b. destruct (Hband 0%nat 0%nat s eq_refl eq_refl) as [Hb _].
    rewrite Hb. vm_compute. split; congruence.
Defined.

(** ** The operations of a pool *)

Section pool_operations.

Context (w : World) (key : string) (p : ApplicationPool).
Hypothesis Hpool : applicationPools w !! key = Some p.

Lemma derefPool_run : derefPool (Some key) w = Some (p, w).
Proof using Hpool. unfold derefPool, get, bind. by rewrite Hpool. Qed.

Lemma updatePool_run f :
  updatePool (Some key) f w
  = Some (tt, setPools (<[key := f p]> (applicationPools w)) w).
Proof using Hpool. unfold updatePool. by rewrite (bind_Some _ _ _ _ _ derefPool_run). Qed.

Lemma getSession_run id :
  getSession (Some key) id w = Some (pool_sessions p !! id, w).
Proof using Hpool. unfold getSession. by rewrite (bind_Some _ _ _ _ _ derefPool_run). Qed.

Lemma addSession_run id l :
  addSession (Some key) id l w
  = Some (tt, setPools
                (<[key := {| pool_sessions := <[id := l]> (pool_sessions p);
                             pool_pods := pool_pods p |}]> (applicationPools w)) w).
Proof using Hpool. apply updatePool_run. Qed.

Lemma deleteSession_run id :
  deleteSession (Some key) id w
  = Some (tt, setPools
                (<[key := {| pool_sessions := delete id (pool_sessions p);
                             pool_pods := pool_pods p |}]> (applicationPools w)) w).
Proof using Hpool. apply updatePool_run. Qed.

Lemma getPod_run name :
  getPod (Some key) name w
  = Some (match pool_pods p !! name with Some _ => Some name | None => None end, w).
Proof using Hpool.
  unfold getPod. rewrite (bind_Some _ _ _ _ _ derefPool_run).
  by destruct (pool_pods p !! name).
Qed.

Lemma setPodSessions_run name pod f :
  pool_pods p !! name = Some pod ->
  setPodSessions (Some key) name f w
  = Some (tt, setPools
                (<[key := {| pool_sessions := pool_sessions p;
                             pool_pods :=
                               <[name := {| podName := podName pod;
                                            sessions := f (sessions pod) |}]>
                                 (pool_pods p) |}]> (applicationPools w)) w).
Proof using Hpool.
  intros Hpod. unfold setPodSessions.
  rewrite (bind_Some _ _ _ _ _ derefPool_run). rewrite Hpod.
  apply updatePool_run.
Qed.

Lemma addPod_run name pod :
  addPod (Some key) name pod w
  = Some (name,
          match pool_pods p !! name with
          | Some _ => w
          | None =>
              setPools
                (<[key := {| pool_sessions := pool_sessions p;
                             pool_pods := <[name := pod]> (pool_pods p) |}]>
                   (applicationPools w)) w
          end).
Proof using Hpool.
  unfold addPod. rewrite (bind_Some _ _ _ _ _ derefPool_run).
  destruct (pool_pods p !! name); [done|].
  by rewrite (bind_Some _ _ _ _ _ (updatePool_run _)).
Qed.

End pool_operations.

Lemma getOrCreateApplicationPool_run (key : string) (w : World) :
  getOrCreateApplicationPool key w
  = Some (Some key,
          match applicationPools w !! key with
          | Some _ => w
          | None => setPools (<[key := emptyPool]> (applicationPools w)) w
          end).
Proof.
  unfold getOrCreateApplicationPool, get, bind, modifyWorld, ret.
  by destruct (applicationPools w !! key).
Qed.

Lemma getApplicationPool_run (key : string) (w : World) :
  getApplicationPool key w
  = Some (match applicationPools w !! key with
          | Some _ => Some key
          | None => None
          end, w).
Proof.
  unfold getApplicationPool, get, bind, ret.
  by destruct (applicationPools w !! key).
Qed.

(** ** Frames of the handlers *)

Lemma extends_refl w : extends w w.
Proof.
  split.
  - exists []. by rewrite app_nil_r.
  - intros l s Hl. by exists s.
Qed.

Lemma extends_trans w1 w2 w3 : extends w1 w2 -> extends w2 w3 -> extends w1 w3.
Proof.
  intros [(cs & Hcs & Hf) Hh] [(cs' & Hcs' & Hf') Hh']. split.
  - exists (cs ++ cs'). split.
    + by rewrite Hcs', Hcs, app_assoc.
    + by rewrite List.filter_app, Hf, Hf'.
  - intros l s Hl. destruct (Hh l s Hl) as (s' & Hl' & Hs').
    destruct (Hh' l s' Hl') as (s'' & Hl'' & Hs'').
    exists s''. split; [done|]. congruence.
Qed.

(** [updateSessionPool] makes no call, enqueues nothing and logs nothing. *)
Lemma updateSessionPool_frame (E : Env) key l deleted w w' :
  updateSessionPool E key l deleted w = Some (tt, w') ->
  queue w' = queue w /\ calls w' = calls w /\ errorLog w' = errorLog w
  /\ goroutines w' = goroutines w.
Proof.
  unfold updateSessionPool, getOrCreateApplicationPool, getPod,
    podSessionsDelete, podSessionsAdd, setPodSessions, addPod, deleteSession,
    addSession, getSession, updatePool, derefPool, modify, load, timeNow,
    modifyWorld, get, bind, ret, panic.
  intros H. repeat (case_match; simplify_eq/=); done.
Qed.

Lemma updateSessionPool_keeps_specs (E : Env) key l deleted w w' :
  updateSessionPool E key l deleted w = Some (tt, w') ->
  forall l0 s0, heap w !! l0 = Some s0 ->
    exists s', heap w' !! l0 = Some s' /\ Spec s' = Spec s0.
Proof.
  unfold updateSessionPool, getOrCreateApplicationPool, getPod,
    podSessionsDelete, podSessionsAdd, setPodSessions, addPod, deleteSession,
    addSession, getSession, updatePool, derefPool, modify, load, timeNow,
    modifyWorld, get, bind, ret, panic.
  intros H l0 s0 Hl0. repeat (case_match; simplify_eq/=); eauto.
  all: destruct (decide (n = l0)) as [<-|Hne];
    [ rewrite lookup_insert_eq; eexists; split; [done|]; by simplify_eq
    | rewrite lookup_insert_ne by done; eauto ].
Qed.

(** ** closeApplicationSession, for every case *)

Lemma closeApplicationSession_run (E : Env) w l s :
  heap w !! l = Some s ->
  closeApplicationSession E l w
  = if util.SessionIsOpen s then
      match PodReference (Status s) with
      | Some ref =>
          let w0 := record (FindPod (v1.Name ref)) w in
          match podManager_FindPod E w (v1.Name ref) with
          | Some pod =>
              let closing :=
                setStatus (setSessionStatus SessionStatusClosing (Status s)) s in
              let w1 := setHeap (<[l := closing]> (heap w)) w0 in
              Some (sessionManager_CloseSession E w1 pod closing,
                    record (CloseSession pod l closing) w1)
          | None =>
              Some (None,
                    record (UpdateSessionStatus s
                              (changedStatus s SessionStatusClosed)) w0)
          end
      | None => Some (None, w)
      end
    else Some (None, w).
Proof.
  intros Hl. unfold closeApplicationSession.
  rewrite (bind_Some _ _ _ _ _ (load_Some _ _ _ Hl)).
  destruct (util.SessionIsOpen s); [|done].
  destruct (PodReference (Status s)) as [ref|]; [|done].
  unfold podManager_FindPod_call at 1. unfold bind at 1.
  assert (Hl0 : heap (record (FindPod (v1.Name ref)) w) !! l = Some s) by apply Hl.
  destruct (podManager_FindPod E w (v1.Name ref)) as [pod|].
  - rewrite (bind_Some _ _ _ _ _ (modify_Some _ _ _ _ Hl0)).
    unfold sessionManager_CloseSession_call.
    match goal with
    | |- context [setHeap (<[l := ?c]> ?h) ?w0] =>
        assert (Hl1 : heap (setHeap (<[l := c]> h) w0) !! l = Some c)
          by apply lookup_insert_eq
    end.
    by rewrite (bind_Some _ _ _ _ _ (load_Some _ _ _ Hl1)).
  - by rewrite (bind_Some _ _ _ _ _ (changeSessionStatus_run E _ l s _ Hl0)).
Qed.

Lemma getSessionApplicationKey_valid s :
  cache.SplitMetaNamespaceKey (ApplicationName (Spec s)) <> None ->
  getSessionApplicationKey s = (ApplicationName (Spec s), None).
Proof.
  intros H. unfold getSessionApplicationKey.
  by destruct (cache.SplitMetaNamespaceKey (ApplicationName (Spec s))).
Qed.

(** The pool of [key] in the world a pool operation runs in. *)
Ltac pool_lookup :=
  first [ eassumption | apply lookup_insert_eq ].

Ltac run_deleteSession :=
  match goal with
  | |- context [deleteSession (Some ?key) ?id ?w] =>
      let H := fresh in
      eassert (H : applicationPools w !! key = Some _) by pool_lookup;
      rewrite (deleteSession_run w key _ H id); clear H
  end.

Ltac run_addSession :=
  match goal with
  | |- context [addSession (Some ?key) ?id ?l ?w] =>
      let H := fresh in
      eassert (H : applicationPools w !! key = Some _) by pool_lookup;
      rewrite (addSession_run w key _ H id l); clear H
  end.

Ltac run_setPodSessions :=
  match goal with
  | |- context [bind (setPodSessions (Some ?key) ?name ?f) ?k ?w] =>
      rewrite (bind_Some _ _ _ _ _
                 (setPodSessions_run w key _ (lookup_insert_eq _ _ _) name _ f
                    (lookup_insert_eq _ _ _)))
  end.

(** ** The invariant

    The lemmas of this section hold for every property [P] of sessions
    that the handlers preserve. *)

Section invariant.

Context (P : ApplicationSession -> Prop) (HP : preserved P).

Lemma poolOk_empty h : poolOk P h emptyPool.
Proof using All. intros uid v H. simpl in H. by rewrite lookup_empty in H. Qed.

Lemma poolOk_pods h p pods :
  poolOk P h p ->
  poolOk P h {| pool_sessions := pool_sessions p; pool_pods := pods |}.
Proof using All. intros H uid v Hv. by apply (H uid v). Qed.

Lemma poolOk_delete h p id pods :
  poolOk P h p ->
  poolOk P h {| pool_sessions := delete id (pool_sessions p); pool_pods := pods |}.
Proof using All.
  intros H uid v Hv. simpl in Hv.
  apply lookup_delete_Some in Hv as [_ Hv]. by apply (H uid v).
Qed.

Lemma poolOk_insert h p id l s pods :
  poolOk P h p -> h !! l = Some s -> P s ->
  poolOk P h {| pool_sessions := <[id := l]> (pool_sessions p); pool_pods := pods |}.
Proof using All.
  intros H Hl Hs uid v Hv. simpl in Hv.
  apply lookup_insert_Some in Hv as [[_ <-] | [_ Hv]]; [by exists s|].
  by apply (H uid v).
Qed.

Lemma poolOk_stamp h p l s t :
  poolOk P h p -> h !! l = Some s ->
  poolOk P (<[l := setDeletionTimestamp t s]> h) p.
Proof using All.
  intros H Hl uid v Hv. destruct (H uid v Hv) as (s' & Hs' & Hterm).
  destruct (decide (l = v)) as [<- | Hne].
  - rewrite lookup_insert_eq. eexists. split; [done|].
    rewrite Hl in Hs'. injection Hs' as <-. by apply HP.
  - rewrite lookup_insert_ne by done. by exists s'.
Qed.

Lemma poolOk_alloc h p l s :
  poolOk P h p -> h !! l = None -> poolOk P (<[l := s]> h) p.
Proof using All.
  intros H Hl uid v Hv. destruct (H uid v Hv) as (s' & Hs' & Hterm).
  exists s'. split; [|done]. rewrite lookup_insert_ne; [done|]. congruence.
Qed.

Lemma poolInv_setPools w key p' :
  poolInv P w -> poolOk P (heap w) p' ->
  poolInv P (setPools (<[key := p']> (applicationPools w)) w).
Proof using All.
  intros Hinv Hp' k q Hq. simpl in *.
  apply lookup_insert_Some in Hq as [[_ <-] | [_ Hq]]; [done|].
  by apply (Hinv k).
Qed.

Lemma poolInv_setHeap w h :
  poolInv P w -> (forall p, poolOk P (heap w) p -> poolOk P h p) ->
  poolInv P (setHeap h w).
Proof using All. intros Hinv Hh k q Hq. simpl in *. apply Hh. by apply (Hinv k). Qed.

Lemma poolInv_ext w w' :
  heap w' = heap w -> applicationPools w' = applicationPools w ->
  poolInv P w -> poolInv P w'.
Proof using All. unfold poolInv. intros -> ->. done. Qed.

Lemma poolInv_ensure w key :
  poolInv P w ->
  poolInv P (match applicationPools w !! key with
           | Some _ => w
           | None => setPools (<[key := emptyPool]> (applicationPools w)) w
           end)
  /\ exists p1,
       applicationPools
         (match applicationPools w !! key with
          | Some _ => w
          | None => setPools (<[key := emptyPool]> (applicationPools w)) w
          end) !! key = Some p1.
Proof using All.
  intros Hinv. destruct (applicationPools w !! key) as [p1|] eqn:Hk.
  - split; [done|by exists p1].
  - split; [apply poolInv_setPools; [done|apply poolOk_empty]|].
    exists emptyPool. apply lookup_insert_eq.
Qed.

(** ** updateSessionPool *)

(** One run of [updateSessionPool] on an existing object: it returns, it
    keeps the invariant, touches no status, and removes a terminal session
    from the pool and from the session set of its pod. *)
Lemma updateSessionPool_step (E : Env) (key : string) (l : loc)
    (s : ApplicationSession) (deleted : bool) (w : World) :
  poolInv P w -> heap w !! l = Some s ->
  exists w',
    updateSessionPool E key l deleted w = Some (tt, w')
    /\ poolInv P w'
    /\ (forall l', is_Some (heap w !! l') -> is_Some (heap w' !! l'))
    /\ (util.SessionInTerminalState s = true ->
        heap w' = heap w
        /\ exists p',
             applicationPools w' !! key = Some p'
             /\ pool_sessions p' !! GetUID s = None
             /\ forall ref pod,
                  PodReference (Status s) = Some ref ->
                  pool_pods p' !! v1.Name ref = Some pod ->
                  GetUID s ∉ sessions pod).
Proof using All.
  intros Hinv Hl. unfold updateSessionPool.
  rewrite (bind_Some _ _ _ _ _ (load_Some _ _ _ Hl)).
  rewrite (bind_Some _ _ _ _ _ (getOrCreateApplicationPool_run key w)).
  destruct (poolInv_ensure w key Hinv) as (Hinv1 & p1 & Hp1).
  assert (Hl1 : heap (match applicationPools w !! key with
                      | Some _ => w
                      | None => setPools (<[key := emptyPool]> (applicationPools w)) w
                      end) = heap w)
    by (by destruct (applicationPools w !! key)).
  revert Hinv1 Hp1 Hl1.
  generalize (match applicationPools w !! key with
              | Some _ => w
              | None => setPools (<[key := emptyPool]> (applicationPools w)) w
              end).
  intros w1 Hinv1 Hp1 Hh1.
  assert (Hl1 : heap w1 !! l = Some s) by (by rewrite Hh1).
  assert (Hok1 : poolOk P (heap w1) p1) by (by apply (Hinv1 key)).
  destruct (util.SessionInTerminalState s) eqn:Hterm; cbv iota.
  - (* terminal *)
    destruct (PodReference (Status s)) as [ref|] eqn:Href; cbv iota.
    + rewrite bind_assoc.
      rewrite (bind_Some _ _ _ _ _ (getPod_run w1 key p1 Hp1 (v1.Name ref))).
      destruct (pool_pods p1 !! v1.Name ref) as [pod|] eqn:Hpod; cbv iota.
      * unfold podSessionsDelete.
        rewrite (bind_Some _ _ _ _ _
          (setPodSessions_run w1 key p1 Hp1 _ pod _ Hpod)).
        run_deleteSession. simpl.
        eexists. split; [reflexivity|]. split; [|split; [|intros _; split]].
        -- apply poolInv_setPools.
           ++ apply poolInv_setPools; [done|]. by apply poolOk_pods.
           ++ by apply poolOk_delete.
        -- intros l'. simpl. by rewrite Hh1.
        -- simpl. done.
        -- eexists. split; [apply lookup_insert_eq|]. simpl.
           split; [apply lookup_delete_eq|].
           intros ref' pod' [= <-] Hpod'.
           rewrite lookup_insert_eq in Hpod'. injection Hpod' as <-. simpl.
           apply not_elem_of_difference. right. by apply elem_of_singleton.
      * rewrite bind_ret. run_deleteSession.
        eexists. split; [reflexivity|]. split; [|split; [|intros _; split]].
        -- apply poolInv_setPools; [done|]. by apply poolOk_delete.
        -- intros l'. simpl. by rewrite Hh1.
        -- simpl. done.
        -- eexists. split; [apply lookup_insert_eq|]. simpl.
           split; [apply lookup_delete_eq|].
           intros ref' pod' [= <-] Hpod'. congruence.
    + rewrite bind_ret. run_deleteSession.
      eexists. split; [reflexivity|]. split; [|split; [|intros _; split]].
      * apply poolInv_setPools; [done|]. by apply poolOk_delete.
      * intros l'. simpl. by rewrite Hh1.
      * simpl. done.
      * eexists. split; [apply lookup_insert_eq|]. simpl.
        split; [apply lookup_delete_eq|]. intros ref' pod' [=].
  - destruct deleted; cbn [negb]; cbv iota.
    + (* the deletion raced ahead of the status *)
      rewrite (bind_Some _ _ _ _ _ (getSession_run w1 key p1 Hp1 _)).
      destruct (pool_sessions p1 !! GetUID s) as [saved|] eqn:Hsaved; cbv iota.
      * destruct (Hok1 _ _ Hsaved) as (sv & Hsv & _).
        rewrite (bind_Some _ _ _ _ _ (load_Some _ _ _ Hsv)).
        destruct (DeletionTimestamp sv); cbv iota.
        -- eexists. split; [reflexivity|]. split; [done|].
           split; [|done]. intros l'. by rewrite Hh1.
        -- unfold timeNow at 1. unfold bind at 1.
           erewrite modify_Some by exact Hsv.
           eexists. split; [reflexivity|]. split; [|split; [|done]].
           ++ apply poolInv_setHeap.
              ** by apply (poolInv_ext w1).
              ** intros q Hq. by apply poolOk_stamp.
           ++ intros l' Hl'. simpl. rewrite <- Hh1 in Hl'.
              destruct (decide (saved = l')) as [<-|Hne].
              ** rewrite lookup_insert_eq. by eexists.
              ** by rewrite lookup_insert_ne.
      * eexists. split; [reflexivity|]. split; [done|].
        split; [|done]. intros l'. by rewrite Hh1.
    + (* upsert *)
      destruct (PodReference (Status s)) as [ref|] eqn:Href; cbv iota.
      * rewrite !bind_assoc.
        rewrite (bind_Some _ _ _ _ _ (addPod_run w1 key p1 Hp1 (v1.Name ref) _)).
        unfold podSessionsAdd.
        destruct (pool_pods p1 !! v1.Name ref) as [pod|] eqn:Hpod; cbv iota.
        -- rewrite (bind_Some _ _ _ _ _
             (setPodSessions_run w1 key p1 Hp1 _ pod _ Hpod)).
           run_addSession. simpl.
           eexists. split; [reflexivity|]. split; [|split; [|done]].
           ++ apply poolInv_setPools.
              ** apply poolInv_setPools; [done|]. by apply poolOk_pods.
              ** apply (poolOk_insert _ _ _ _ s); [done..|]. by apply HP.
           ++ intros l'. simpl. by rewrite Hh1.
        -- run_setPodSessions.
           run_addSession. simpl.
           eexists. split; [reflexivity|]. split; [|split; [|done]].
           ++ apply poolInv_setPools.
              ** apply poolInv_setPools.
                 --- apply poolInv_setPools; [done|]. by apply poolOk_pods.
                 --- by apply poolOk_pods.
              ** apply (poolOk_insert _ _ _ _ s); [done..|]. by apply HP.
           ++ intros l'. simpl. by rewrite Hh1.
      * rewrite bind_ret. run_addSession.
        eexists. split; [reflexivity|]. split; [|split; [|done]].
        -- apply poolInv_setPools; [done|]. apply (poolOk_insert _ _ _ _ s); [done..|]. by apply HP.
        -- intros l'. simpl. by rewrite Hh1.
Qed.

Lemma poolSteps_inv (E : Env) (w w' : World) :
  poolInv P w -> poolSteps E w w' -> poolInv P w'.
Proof using All.
  intros Hinv Hsteps. induction Hsteps as [w|w w' l s _ IH Hfresh|w w' w'' key l deleted _ IH [s Hl] Hrun].
  - done.
  - apply poolInv_setHeap; [by apply IH|].
    intros p Hp. by apply poolOk_alloc.
  - destruct (updateSessionPool_step E key l s deleted w' (IH Hinv) Hl)
      as (w2 & Hrun2 & Hinv2 & _).
    rewrite Hrun in Hrun2. by injection Hrun2 as <-.
Qed.

(** [updateSessionPool] for a delete event on a session that is not in a
    terminal state: the pools keep their sessions, and the cached copy of
    the session, if any, carries a deletion timestamp afterwards. *)
Lemma updateSessionPool_deleted (E : Env) (key : string) (l : loc)
    (s : ApplicationSession) (w : World) :
  poolInv P w -> heap w !! l = Some s ->
  util.SessionInTerminalState s = false ->
  exists w',
    updateSessionPool E key l true w = Some (tt, w')
    /\ queue w' = queue w
    /\ calls w' = calls w
    /\ errorLog w' = errorLog w
    /\ (forall p, applicationPools w !! key = Some p ->
                  applicationPools w' !! key = Some p)
    /\ (forall p v, applicationPools w !! key = Some p ->
                    pool_sessions p !! GetUID s = Some v ->
                    exists sv, heap w' !! v = Some sv
                               /\ DeletionTimestamp sv <> None)
    /\ (forall l' s', heap w !! l' = Some s' ->
                      DeletionTimestamp s' <> None ->
                      heap w' !! l' = Some s').
Proof using All.
  intros Hinv Hl Hterm. unfold updateSessionPool.
  rewrite (bind_Some _ _ _ _ _ (load_Some _ _ _ Hl)).
  rewrite (bind_Some _ _ _ _ _ (getOrCreateApplicationPool_run key w)).
  rewrite Hterm. cbn [negb]. cbv iota.
  destruct (applicationPools w !! key) as [p|] eqn:Hp.
  - rewrite (bind_Some _ _ _ _ _ (getSession_run w key p Hp _)).
    destruct (pool_sessions p !! GetUID s) as [saved|] eqn:Hsaved; cbv iota.
    + destruct (Hinv key p Hp _ _ Hsaved) as (sv & Hsv & _).
      rewrite (bind_Some _ _ _ _ _ (load_Some _ _ _ Hsv)).
      destruct (DeletionTimestamp sv) as [t|] eqn:Hdel; cbv iota.
      * eexists. split; [reflexivity|]. split_and!; try done; try (by intros ? [= <-]).
        intros p' v [= <-] Hv. rewrite Hsaved in Hv. injection Hv as <-.
        exists sv. split; [done|]. by rewrite Hdel.
      * unfold timeNow at 1. unfold bind at 1.
        erewrite modify_Some by exact Hsv.
        eexists. split; [reflexivity|]. split_and!; try done; try (by intros ? [= <-]).
        -- intros p' v [= <-] Hv. rewrite Hsaved in Hv. injection Hv as <-.
           simpl. rewrite lookup_insert_eq. by eexists.
        -- intros l' s' Hl' Hdel'. simpl.
           rewrite lookup_insert_ne; [done|].
           intros <-. rewrite Hsv in Hl'. injection Hl' as <-. by rewrite Hdel in Hdel'.
    + eexists. split; [reflexivity|]. split_and!; try done; try (by intros ? [= <-]).
      intros p' v [= <-] Hv. by rewrite Hsaved in Hv.
  - erewrite (bind_Some _ _ _ _ _ (getSession_run _ key emptyPool _ _)).
    Unshelve. 2: { apply lookup_insert_eq. }
    simpl. rewrite lookup_empty.
    eexists. split; [reflexivity|]. split_and!; try done; by intros ? ?.
Qed.

Lemma poolInv_stamp w l s t :
  poolInv P w -> heap w !! l = Some s ->
  poolInv P (setHeap (<[l := setDeletionTimestamp t s]> (heap w)) w).
Proof using All.
  intros Hinv Hl. apply poolInv_setHeap; [done|].
  intros p Hp. by apply poolOk_stamp.
Qed.

Lemma safe_ret {A} (a : A) w : poolInv P w -> safe P (ret a) w.
Proof using All. intros H. exists a, w. split; [done|]. split; [done|apply extends_refl]. Qed.

Lemma safe_bind {A B} (m : M A) (k : A -> M B) w :
  safe P m w ->
  (forall a w', m w = Some (a, w') -> poolInv P w' -> extends w w' -> safe P (k a) w') ->
  safe P (bind m k) w.
Proof using All.
  intros (a & w' & Hm & Hinv & Hext) Hk.
  destruct (Hk a w' Hm Hinv Hext) as (b & w'' & Hkb & Hinv' & Hext').
  exists b, w''. rewrite (bind_Some _ _ _ _ _ Hm).
  split; [done|]. split; [done|]. by apply (extends_trans w w' w'').
Qed.

Lemma safe_frame {A} (m : M A) w a w' :
  m w = Some (a, w') -> poolInv P w ->
  heap w' = heap w -> applicationPools w' = applicationPools w ->
  (exists cs, calls w' = calls w ++ cs /\ List.filter isTerminatePod cs = []) ->
  safe P m w.
Proof using All.
  intros Hm Hinv Hh Hp Hc. exists a, w'. split; [done|].
  split; [by apply (poolInv_ext w)|]. split; [done|].
  intros l s Hl. exists s. by rewrite Hh.
Qed.

Lemma poolOk_update h p l s' :
  poolOk P h p -> P s' ->
  poolOk P (<[l := s']> h) p.
Proof using All.
  intros H Hs' uid v Hv. destruct (H uid v Hv) as (s & Hs & Hterm).
  destruct (decide (l = v)) as [<- | Hne].
  - rewrite lookup_insert_eq. by exists s'.
  - rewrite lookup_insert_ne by done. by exists s.
Qed.

Lemma safe_load w l s : poolInv P w -> heap w !! l = Some s -> safe P (load l) w.
Proof using All.
  intros Hinv Hl. apply (safe_frame _ w s w); try done.
  - by apply load_Some.
  - exists []. by rewrite app_nil_r.
Qed.

Lemma safe_klogErrorS msg w : poolInv P w -> safe P (klogErrorS msg) w.
Proof using All.
  intros Hinv. eapply (safe_frame _ w); try done.
  exists []. simpl. by rewrite app_nil_r.
Qed.

Lemma safe_enqueueApplication key w : poolInv P w -> safe P (enqueueApplication key) w.
Proof using All.
  intros Hinv. eapply (safe_frame _ w); try done.
  exists []. simpl. by rewrite app_nil_r.
Qed.

Lemma safe_go g w : poolInv P w -> safe P (go g) w.
Proof using All.
  intros Hinv. eapply (safe_frame _ w); try done.
  exists []. simpl. by rewrite app_nil_r.
Qed.

Lemma safe_changeSessionStatus E v status w s :
  poolInv P w -> heap w !! v = Some s -> safe P (changeSessionStatus E v status) w.
Proof using All.
  intros Hinv Hv.
  apply (safe_frame _ w _ _ (changeSessionStatus_run E w v s status Hv));
    [done..|].
  by eexists [_].
Qed.

Lemma safe_updateSessionPool E key l deleted w s :
  poolInv P w -> heap w !! l = Some s -> safe P (updateSessionPool E key l deleted) w.
Proof using All.
  intros Hinv Hl.
  destruct (updateSessionPool_step E key l s deleted w Hinv Hl)
    as (w' & Hrun & Hinv' & _).
  exists tt, w'. split; [done|]. split; [done|]. split.
  - exists []. destruct (updateSessionPool_frame E _ _ _ _ _ Hrun) as (_ & -> & _).
    by rewrite app_nil_r.
  - by apply (updateSessionPool_keeps_specs E key l deleted).
Qed.

Lemma safe_closeApplicationSession E l w s :
  poolInv P w -> heap w !! l = Some s -> safe P (closeApplicationSession E l) w.
Proof using All.
  intros Hinv Hl. unfold safe.
  rewrite (closeApplicationSession_run E w l s Hl).
  destruct (util.SessionIsOpen s);
    [|eexists _, _; split; [done|]; split; [done|apply extends_refl]].
  destruct (PodReference (Status s)) as [ref|];
    [|eexists _, _; split; [done|]; split; [done|apply extends_refl]].
  destruct (podManager_FindPod E w (v1.Name ref)) as [pod|].
  - eexists _, _. split; [done|]. split; [|split].
    + apply (poolInv_ext (setHeap (<[l := setStatus
             (setSessionStatus SessionStatusClosing (Status s)) s]> (heap w)) w));
        [done..|].
      apply poolInv_setHeap; [done|]. intros p Hp.
      apply poolOk_update; [done|]. by apply HP.
    + eexists. split; [simpl; rewrite <- ?app_assoc; reflexivity|reflexivity].
    + intros l0 s0 Hl0. simpl.
      destruct (decide (l = l0)) as [<-|Hne].
      * rewrite lookup_insert_eq. eexists. split; [done|].
        rewrite Hl in Hl0. by injection Hl0 as <-.
      * rewrite lookup_insert_ne by done. eauto.
  - eexists _, _. split; [done|]. split; [by apply (poolInv_ext w)|]. split.
    + eexists. split; [simpl; rewrite <- ?app_assoc; reflexivity|reflexivity].
    + intros l0 s0 Hl0. eauto.
Qed.

Lemma safe_bind_get {B} (k : World -> M B) w :
  safe P (k w) w -> safe P (bind get k) w.
Proof using All. done. Qed.

Lemma safe_bind_load {B} l (k : ApplicationSession -> M B) w s :
  poolInv P w -> heap w !! l = Some s -> safe P (k s) w -> safe P (bind (load l) k) w.
Proof using All.
  intros Hinv Hl Hk. apply safe_bind; [by apply (safe_load w l s)|].
  intros a w' Hload _ _. rewrite (load_Some _ _ _ Hl) in Hload.
  by injection Hload as <- <-.
Qed.

Lemma safe_stamp E obj s w :
  poolInv P w -> heap w !! obj = Some s ->
  safe P (match DeletionTimestamp s with
        | None => let* now := timeNow E in
                  modify obj (setDeletionTimestamp (Some now))
        | Some _ => ret tt
        end) w.
Proof using All.
  intros Hinv Hl. destruct (DeletionTimestamp s); [by apply safe_ret|].
  unfold timeNow at 1. unfold bind at 1. unfold safe.
  erewrite modify_Some by exact Hl.
  eexists _, _. split; [done|]. split; [|split].
  - apply (poolInv_stamp (setTicks (S (ticks w)) w)); [|done].
    by apply (poolInv_ext w).
  - exists []. simpl. by rewrite app_nil_r.
  - intros l0 s0 Hl0. simpl.
    destruct (decide (obj = l0)) as [<-|Hne].
    + rewrite lookup_insert_eq. eexists. split; [done|].
      rewrite Hl in Hl0. by injection Hl0 as <-.
    + rewrite lookup_insert_ne by done. eauto.
Qed.

Lemma safe_onApplicationSessionDeleteEvent E obj w s :
  poolInv P w -> heap w !! obj = Some s ->
  safe P (onApplicationSessionDeleteEvent E obj) w.
Proof using All.
  intros Hinv Hl. unfold onApplicationSessionDeleteEvent.
  apply (safe_bind_load obj _ w s); [done..|].
  apply safe_bind; [by apply safe_stamp|].
  intros _ w2 _ Hinv2 [_ Hh2].
  destruct (Hh2 obj s Hl) as (s2 & Hl2 & _).
  apply (safe_bind_load obj _ w2 s2); [done..|].
  destruct (getSessionApplicationKey s2) as [key [err|]].
  - by apply safe_klogErrorS.
  - apply safe_bind; [by apply (safe_updateSessionPool E key obj true w2 s2)|].
    intros _ w3 _ Hinv3 _. by apply safe_enqueueApplication.
Qed.

(** The error branch shared by the add and the update handler. *)
Lemma safe_invalid_key E (err : option string) obj (s s0 : ApplicationSession) w :
  poolInv P w -> heap w !! obj = Some s ->
  safe P (match err with
        | Some err =>
            klogErrorS err
            >> (if util.SessionIsOpen s0
                then closeApplicationSession E obj >> ret tt
                else ret tt)
        | None => ret tt
        end) w.
Proof using All.
  intros Hinv Hl. destruct err as [err|]; [|by apply safe_ret].
  apply safe_bind; [by apply safe_klogErrorS|].
  intros _ w1 _ Hinv1 [_ Hh1].
  destruct (Hh1 obj s Hl) as (s1 & Hl1 & _).
  destruct (util.SessionIsOpen s0); [|by apply safe_ret].
  apply safe_bind; [by apply (safe_closeApplicationSession E obj w1 s1)|].
  intros _ w2 _ Hinv2 _. by apply safe_ret.
Qed.

Lemma safe_onApplicationSessionAddEvent E obj w s :
  poolInv P w -> heap w !! obj = Some s ->
  safe P (onApplicationSessionAddEvent E obj) w.
Proof using All.
  intros Hinv Hl. unfold onApplicationSessionAddEvent.
  apply (safe_bind_load obj _ w s); [done..|].
  destruct (DeletionTimestamp s);
    [by apply (safe_onApplicationSessionDeleteEvent E obj w s)|].
  destruct (getSessionApplicationKey s) as [key err].
  apply safe_bind; [by apply (safe_invalid_key E err obj s s w)|].
  intros _ w1 _ Hinv1 [_ Hh1].
  destruct (Hh1 obj s Hl) as (s1 & Hl1 & _).
  apply safe_bind; [by apply (safe_updateSessionPool E key obj false w1 s1)|].
  intros _ w2 _ Hinv2 _. by apply safe_enqueueApplication.
Qed.

Lemma safe_getOrCreateApplicationPool key w :
  poolInv P w ->
  exists w1 p1,
    getOrCreateApplicationPool key w = Some (Some key, w1)
    /\ applicationPools w1 !! key = Some p1
    /\ poolInv P w1 /\ extends w w1.
Proof using All.
  intros Hinv. rewrite getOrCreateApplicationPool_run.
  destruct (poolInv_ensure w key Hinv) as (Hinv1 & p1 & Hp1).
  eexists _, p1. split; [done|]. split; [done|]. split; [done|].
  destruct (applicationPools w !! key); [apply extends_refl|].
  split; [exists []; simpl; by rewrite app_nil_r|]. intros l s Hl. eauto.
Qed.

Lemma safe_onApplicationSessionUpdateEvent E old cur w so sc :
  poolInv P w -> heap w !! old = Some so -> heap w !! cur = Some sc ->
  safe P (onApplicationSessionUpdateEvent E old cur) w.
Proof using All.
  intros Hinv Hold Hcur. unfold onApplicationSessionUpdateEvent.
  apply (safe_bind_load old _ w so); [done..|].
  apply (safe_bind_load cur _ w sc); [done..|].
  apply safe_bind_get.
  destruct (reflect_DeepEqual E w old cur so sc); [by apply safe_ret|].
  destruct (getSessionApplicationKey sc) as [key err].
  apply safe_bind; [by apply (safe_invalid_key E err cur sc sc w)|].
  intros _ w1 _ Hinv1 Hext1.
  destruct (safe_getOrCreateApplicationPool key w1 Hinv1)
    as (w2 & p2 & Hrun2 & Hp2 & Hinv2 & Hext2).
  pose proof (extends_trans _ _ _ Hext1 Hext2) as [_ Hh2].
  destruct (Hh2 old so Hold) as (so2 & Hold2 & _).
  destruct (Hh2 cur sc Hcur) as (sc2 & Hcur2 & _).
  apply safe_bind.
  { exists (Some key), w2. done. }
  intros pool w2' Hrun2' _ _. rewrite Hrun2 in Hrun2'.
  injection Hrun2' as <- <-.
  apply safe_bind.
  { exists (pool_sessions p2 !! GetUID sc), w2.
    split; [by apply getSession_run|]. split; [done|apply extends_refl]. }
  intros v w2' Hget _ _. rewrite (getSession_run w2 key p2 Hp2) in Hget.
  injection Hget as <- <-.
  apply safe_bind.
  { destruct (pool_sessions p2 !! GetUID sc) as [v|] eqn:Hv; [|by apply safe_ret].
    destruct (Hinv2 key p2 Hp2 _ _ Hv) as (c & Hc & _).
    apply (safe_bind_load v _ w2 c); [done..|]. by apply safe_ret. }
  intros cached w3 _ Hinv3 [_ Hh3].
  destruct (Hh3 old so2 Hold2) as (so3 & Hold3 & _).
  destruct (Hh3 cur sc2 Hcur2) as (sc3 & Hcur3 & _).
  apply safe_bind; [by apply (safe_updateSessionPool E key cur false w3 sc3)|].
  intros _ w4 _ Hinv4 [_ Hh4].
  destruct (Hh4 old so3 Hold3) as (so4 & Hold4 & _).
  destruct (Hh4 cur sc3 Hcur3) as (sc4 & Hcur4 & _).
  apply safe_bind.
  { destruct cached; [by apply safe_ret|].
    apply (safe_bind_load old _ w4 so4); [done..|]. by apply safe_ret. }
  intros oldCopy w5 _ Hinv5 [_ Hh5].
  destruct (Hh5 cur sc4 Hcur4) as (sc5 & Hcur5 & _).
  apply (safe_bind_load cur _ w5 sc5); [done..|].
  apply safe_bind_get.
  case_decide; [by apply safe_enqueueApplication|by apply safe_ret].
Qed.

End invariant.

Lemma preserved_notTerminal : preserved notTerminal.
Proof. unfold preserved, notTerminal. by split_and!. Qed.

Lemma preserved_anySession : preserved anySession.
Proof. unfold preserved, anySession. by split_and!. Qed.

Lemma poolInv_weaken P w : poolInv P w -> poolInv anySession w.
Proof.
  intros H key p Hp uid v Hv. destruct (H key p Hp uid v Hv) as (s & Hs & _).
  by exists s.
Qed.

(** ** updateSessionPool and the terminal states *)


(** C5. [updateSessionPool] always returns; on a session in a terminal
    state (Closed or Timeout) it deletes the session from the pool, after
    removing its uid from the session set of the referenced pod when that
    pod is in the pool; and it never leaves a terminal session in a pool.
    Hence, from pools without terminal sessions, no sequence of arrivals of
    session objects and runs of [updateSessionPool] leads to a pool that
    holds a session in a terminal state. *)
Theorem updateSessionPool_no_terminal_session (E : Env) :
  (forall w key l s deleted,
     poolInv notTerminal w -> heap w !! l = Some s ->
     exists w',
       updateSessionPool E key l deleted w = Some (tt, w')
       /\ poolInv notTerminal w'
       /\ (util.SessionInTerminalState s = true ->
           (exists p',
              applicationPools w' !! key = Some p'
              /\ pool_sessions p' !! GetUID s = None
              /\ forall ref pod,
                   PodReference (Status s) = Some ref ->
                   pool_pods p' !! v1.Name ref = Some pod ->
                   GetUID s ∉ sessions pod)
           /\ forall key' p' uid,
                applicationPools w' !! key' = Some p' ->
                pool_sessions p' !! uid <> Some l))
  /\ (forall w w',
        poolInv notTerminal w -> poolSteps E w w' ->
        forall key pool uid v,
          applicationPools w' !! key = Some pool ->
          pool_sessions pool !! uid = Some v ->
          exists s,
            heap w' !! v = Some s
            /\ sessionStatus (Status s) <> SessionStatusClosed
            /\ sessionStatus (Status s) <> SessionStatusTimeout).
Proof.
  split.
  - intros w key l s deleted Hinv Hl.
    destruct (updateSessionPool_step notTerminal preserved_notTerminal E key l s deleted w Hinv Hl)
      as (w' & Hrun & Hinv' & _ & Hterm).
    exists w'. split; [done|]. split; [done|].
    intros Ht. destruct (Hterm Ht) as (Hheap & p' & Hp').
    split; [by exists p'|].
    intros key' q uid Hq Huid.
    destruct (Hinv' key' q Hq uid l Huid) as (s' & Hs' & Hnt).
    rewrite Hheap, Hl in Hs'. injection Hs' as <-. congruence.
  - intros w w' Hinv Hsteps key pool uid v Hpool Hv.
    destruct (poolSteps_inv notTerminal preserved_notTerminal E w w' Hinv Hsteps key pool Hpool uid v Hv)
      as (s & Hs & Hnt).
    exists s. split; [done|].
    unfold notTerminal, util.SessionInTerminalState in Hnt.
    split; intros Hst; by rewrite Hst in Hnt.
Qed.

Lemma updateSessionPool_no_terminal_session_witness :
  let E := sample.env [] sample.noFailure in
  let open := sample.session "u1" "a/x" false SessionStatusAvailable (Some "P1") None in
  let closed := sample.session "u1" "a/x" false SessionStatusClosed (Some "P1") None in
  let w0 := sample.world [] ∅ in
  exists w',
    poolSteps E w0 w'
    /\ heap w' !! 1%nat = Some closed
    /\ exists pool,
         applicationPools w' !! "a/x" = Some pool
         /\ pool_sessions pool = ∅
         /\ forall uid v,
              pool_sessions pool !! uid = Some v ->
              exists s, heap w' !! v = Some s
                        /\ sessionStatus (Status s) <> SessionStatusClosed
                        /\ sessionStatus (Status s) <> SessionStatusTimeout.
Proof.
  intros E open closed w0.
  assert (Hinv : poolInv notTerminal w0).
  { intros key p Hp. simpl in Hp. by rewrite lookup_empty in Hp. }
  pose (w1 := setHeap (<[0%nat := open]> (heap w0)) w0).
  destruct (updateSessionPool E "a/x" 0%nat false w1) as [[[] w2]|] eqn:H2;
    [|discriminate H2].
  pose (w3 := setHeap (<[1%nat := closed]> (heap w2)) w2).
  destruct (updateSessionPool E "a/x" 1%nat false w3) as [[[] w4]|] eqn:H4;
    [|vm_compute in H2; injection H2 as <-; discriminate H4].
  assert (Hsteps : poolSteps E w0 w4).
  { apply (poolSteps_update E w0 w3 w4 "a/x" 1%nat false); [|by eexists; apply lookup_insert_eq|done].
    apply (poolSteps_alloc E w0 w2 1%nat closed).
    - apply (poolSteps_update E w0 w1 w2 "a/x" 0%nat false); [|by eexists|done].
      apply (poolSteps_alloc E w0 w0 0%nat open); [apply poolSteps_refl|done].
    - vm_compute in H2. by injection H2 as <-. }
  destruct (updateSessionPool_no_terminal_session E) as [_ Hseq].
  exists w4. split; [done|].
  vm_compute in H2. injection H2 as <-.
  vm_compute in H4. injection H4 as <-.
  split; [reflexivity|].
  eexists. split; [reflexivity|]. split; [reflexivity|].
  intros uid v Huid.
  exact (Hseq w0 _ Hinv Hsteps "a/x" _ uid v eq_refl Huid).
Defined.

(** ** onApplicationSessionDeleteEvent *)

(** C4, as the code has it. For every delete event the handler makes sure
    the event's session carries a deletion timestamp (the current time when
    it had none), whether or not the application name is a valid key. When
    it is a valid key, the handler enqueues the owning application; the
    session is removed from the pool when its status is terminal; in any
    other status it stays in the pool, and the cached copy carries a
    deletion timestamp afterwards. When the application name is no valid
    key, the handler logs the error and stops: nothing is enqueued and the
    pools are as before. *)
Theorem onApplicationSessionDeleteEvent_stamps_and_enqueues (E : Env)
    (w : World) (obj : loc) (s : ApplicationSession) :
  poolInv anySession w -> heap w !! obj = Some s ->
  let key := ApplicationName (Spec s) in
  exists w' s',
    onApplicationSessionDeleteEvent E obj w = Some (tt, w')
    /\ heap w' !! obj = Some s'
    /\ DeletionTimestamp s'
       = Some (default (clock E (ticks w)) (DeletionTimestamp s))
    /\ Status s' = Status s
    /\ (cache.SplitMetaNamespaceKey key <> None ->
        queue w' = queue w ++ [key]
        /\ (util.SessionInTerminalState s = true ->
            exists p', applicationPools w' !! key = Some p'
                       /\ pool_sessions p' !! GetUID s = None)
        /\ (util.SessionInTerminalState s = false ->
            forall p v,
              applicationPools w !! key = Some p ->
              pool_sessions p !! GetUID s = Some v ->
              applicationPools w' !! key = Some p
              /\ exists sv, heap w' !! v = Some sv
                            /\ DeletionTimestamp sv <> None))
    /\ (cache.SplitMetaNamespaceKey key = None ->
        queue w' = queue w
        /\ applicationPools w' = applicationPools w
        /\ errorLog w'
           = errorLog w
             ++ ["Session application label:" +:+ key
                 +:+ " is not valid meta namespace key"]).
Proof.
  intros Hinv Hobj key. unfold onApplicationSessionDeleteEvent.
  rewrite (bind_Some _ _ _ _ _ (load_Some _ _ _ Hobj)).
  (* the event's session after the stamp, and the world it lives in *)
  assert (Hstamp : exists w2 s1,
    (match DeletionTimestamp s with
     | None => let* now := timeNow E in
               modify obj (setDeletionTimestamp (Some now))
     | Some _ => ret tt
     end) w = Some (tt, w2)
    /\ heap w2 !! obj = Some s1
    /\ DeletionTimestamp s1
       = Some (default (clock E (ticks w)) (DeletionTimestamp s))
    /\ Status s1 = Status s /\ Spec s1 = Spec s /\ GetUID s1 = GetUID s
    /\ poolInv anySession w2
    /\ applicationPools w2 = applicationPools w
    /\ queue w2 = queue w
    /\ errorLog w2 = errorLog w).
  { destruct (DeletionTimestamp s) as [t|] eqn:Hdel.
    - exists w, s. by rewrite Hdel.
    - unfold timeNow at 1. unfold bind at 1.
      erewrite modify_Some by exact Hobj.
      eexists _, _. split; [reflexivity|]. simpl.
      split; [apply lookup_insert_eq|]. split_and!; try done.
      apply (poolInv_stamp anySession preserved_anySession (setTicks (S (ticks w)) w)); [|done].
      by apply (poolInv_ext anySession preserved_anySession w). }
  destruct Hstamp as (w2 & s1 & Hrun2 & Hobj2 & Hdel1 & Hst1 & Hsp1 & Huid1
                      & Hinv2 & Hpools2 & Hq2 & He2).
  rewrite (bind_Some _ _ _ _ _ Hrun2).
  rewrite (bind_Some _ _ _ _ _ (load_Some _ _ _ Hobj2)).
  destruct (cache.SplitMetaNamespaceKey key) as [parts|] eqn:Hkey.
  2: { (* no valid key: the error is logged and the handler returns *)
    unfold getSessionApplicationKey. rewrite Hsp1. fold key. rewrite Hkey.
    eexists _, s1. split; [reflexivity|]. simpl.
    split_and!; try done. intros _. split_and!; try done. by rewrite He2. }
  rewrite getSessionApplicationKey_valid
    by (rewrite Hsp1; fold key; by rewrite Hkey).
  rewrite Hsp1. fold key.
  assert (Hterm1 : util.SessionInTerminalState s1 = util.SessionInTerminalState s)
    by (unfold util.SessionInTerminalState; by rewrite Hst1).
  destruct (util.SessionInTerminalState s) eqn:Hterm.
  - destruct (updateSessionPool_step anySession preserved_anySession E key obj s1 true w2 Hinv2 Hobj2)
      as (w3 & Hrun & _ & _ & Hrem).
    destruct (Hrem Hterm1) as (Hheap3 & p' & Hp' & Hgone & _).
    rewrite (bind_Some _ _ _ _ _ Hrun).
    eexists _, s1. split; [reflexivity|]. simpl.
    split_and!; try done.
    + by rewrite Hheap3.
    + intros _. split_and!; try done.
      * destruct (updateSessionPool_frame E _ _ _ _ _ Hrun) as (Hq3 & _).
        by rewrite Hq3, Hq2.
      * intros _. exists p'. by rewrite <- Huid1.
  - destruct (updateSessionPool_deleted anySession preserved_anySession E key obj s1 w2 Hinv2 Hobj2 Hterm1)
      as (w3 & Hrun & Hq3 & _ & _ & Hkeep & Hcached & Hsame).
    rewrite (bind_Some _ _ _ _ _ Hrun).
    eexists _, s1. split; [reflexivity|]. simpl.
    split_and!; try done.
    + apply Hsame; [done|]. by rewrite Hdel1.
    + intros _. split_and!; try done.
      * by rewrite Hq3, Hq2.
      * intros _ p v Hp Hv. rewrite <- Hpools2 in Hp. split; [by apply Hkeep|].
        apply (Hcached p v Hp). by rewrite Huid1.
Qed.

Lemma sample_poolInv P (ss : list ApplicationSession) (key uid : string) (l : loc)
    (pods : list ApplicationPod) (s : ApplicationSession) :
  ss !! l = Some s -> P s ->
  poolInv P (sample.world ss {[key := sample.pool [(uid, l)] pods]}).
Proof.
  intros Hl Hs k p Hp. simpl in Hp.
  apply lookup_singleton_Some in Hp as [_ <-].
  intros u v Hv. simpl in Hv.
  apply lookup_insert_Some in Hv as [[_ <-] | [_ Hv]];
    [|by rewrite lookup_empty in Hv].
  exists s. split; [|done]. simpl. by rewrite lookup_map_seq_0.
Qed.

Lemma onApplicationSessionDeleteEvent_stamps_and_enqueues_witness :
  let s := sample.session "u1" "a/x" false SessionStatusAvailable (Some "P1") None in
  let w := sample.world [s] {["a/x" := sample.pool [("u1", 0%nat)] []]} in
  let bad := sample.session "u1" "a/b/c" false SessionStatusClosed None None in
  (exists w' s',
     onApplicationSessionDeleteEvent (sample.env [] sample.noFailure) 0%nat w
       = Some (tt, w')
     /\ heap w' !! 0%nat = Some s'
     /\ DeletionTimestamp s' = Some (5 * time.Second)
     /\ queue w' = ["a/x"%string])
  /\ (exists w' s',
        onApplicationSessionDeleteEvent (sample.env [] sample.noFailure) 0%nat
          (sample.world [bad] ∅) = Some (tt, w')
        /\ heap w' !! 0%nat = Some s'
        /\ DeletionTimestamp s' = Some (5 * time.Second)
        /\ queue w' = []).
Proof.
  intros s w bad. split.
  - destruct (onApplicationSessionDeleteEvent_stamps_and_enqueues
      (sample.env [] sample.noFailure) w 0%nat s)
      as (w' & s' & Hrun & Hs' & Hdel & _ & Hvalid & _).
    + by apply (sample_poolInv anySession [s] "a/x" "u1" 0%nat [] s).
    + reflexivity.
    + destruct Hvalid as (Hq & _); [vm_compute; discriminate|].
      exists w', s'. split_and!; assumption.
  - destruct (onApplicationSessionDeleteEvent_stamps_and_enqueues
      (sample.env [] sample.noFailure) (sample.world [bad] ∅) 0%nat bad)
      as (w' & s' & Hrun & Hs' & Hdel & _ & _ & Hinvalid).
    + intros k p Hp. simpl in Hp. by apply lookup_empty_Some in Hp.
    + reflexivity.
    + destruct Hinvalid as (Hq & _); [vm_compute; reflexivity|].
      exists w', s'. split_and!; assumption.
Defined.

(** C4, as stated, fails on a session that is not in a terminal state:
    after the delete event for the cached Available session [u1], the pool
    of [a/x] still holds [u1]. It also fails on a session whose application
    name is no valid key: no application is enqueued. *)
Lemma onApplicationSessionDeleteEvent_keeps_open_session :
  let E := sample.env [] sample.noFailure in
  let s := sample.session "u1" "a/x" false SessionStatusAvailable (Some "P1") None in
  let w := sample.world [s] {["a/x" := sample.pool [("u1", 0%nat)] []]} in
  let bad := sample.session "u1" "a/b/c" false SessionStatusClosed None None in
  (exists w' pool,
     onApplicationSessionDeleteEvent E 0%nat w = Some (tt, w')
     /\ applicationPools w' !! "a/x" = Some pool
     /\ pool_sessions pool !! "u1" = Some 0%nat
     /\ ~ (pool_sessions pool !! "u1" = None))
  /\ (exists w',
        onApplicationSessionDeleteEvent E 0%nat (sample.world [bad] ∅)
          = Some (tt, w')
        /\ queue w' = []).
Proof.
  intros E s w bad. split.
  - eexists _, _. split; [vm_compute; reflexivity|].
    split; [reflexivity|]. split; [reflexivity|]. discriminate.
  - eexists. split; [vm_compute; reflexivity|reflexivity].
Qed.

(** ** onApplicationSessionAddEvent *)

(** C3, at a Pending session whose application name [a/b/c] is no valid
    key. The handler logs the error and then goes on: the session is put in
    a pool registered under the empty key, and the empty key is enqueued. *)
Theorem onApplicationSessionAddEvent_invalid_key_goes_on :
  let s := sample.session "u1" "a/b/c" false SessionStatusPending None None in
  let w := sample.world [s] ∅ in
  cache.SplitMetaNamespaceKey "a/b/c" = None
  /\ exists w' pool,
       onApplicationSessionAddEvent (sample.env [] sample.noFailure) 0%nat w
         = Some (tt, w')
       /\ errorLog w'
          = ["Session application label:a/b/c is not valid meta namespace key"%string]
       /\ applicationPools w' !! ""%string = Some pool
       /\ pool_sessions pool !! "u1" = Some 0%nat
       /\ queue w' = [""%string].
Proof.
  intros s w. split; [reflexivity|].
  eexists _, _. split; [vm_compute; reflexivity|].
  split; [reflexivity|]. split; [reflexivity|]. split; reflexivity.
Qed.


(** ** onSessionEventFromNode *)

(** For a node session event whose application has a pool, the handler
    returns nil, and among the calls it makes there is a [TerminatePod], on
    the pod of the event and only once, exactly when the session asks for
    kill-on-close, the reported status is Closed and the pod is not
    terminated; this holds whether or not the pool holds a cached copy of
    the session. *)
Lemma onSessionEventFromNode_terminates_pod (E : Env) (w : World) (se : SessionEvent)
    (s : ApplicationSession) (p : ApplicationPool) :
  poolInv anySession w ->
  heap w !! Session se = Some s ->
  applicationPools w !! ApplicationName (Spec s) = Some p ->
  exists w' cs,
    onSessionEventFromNode E se w = Some (None, w')
    /\ calls w' = calls w ++ cs
    /\ List.filter isTerminatePod cs
       = if KillInstanceWhenSessionClosed (Spec s)
            && bool_decide (sessionStatus (Status s) = SessionStatusClosed)
            && PodNotTerminated E (Pod se)
         then [TerminatePod (Pod se)] else [].
Proof.
  intros Hinv Hs Hpool. unfold onSessionEventFromNode.
  rewrite (bind_Some _ _ _ _ _ (load_Some _ _ _ Hs)).
  rewrite (bind_Some _ _ _ _ _ (getApplicationPool_run _ w)), Hpool.
  rewrite (bind_Some _ _ _ _ _ (getSession_run w _ p Hpool _)).
  match goal with
  | |- context [bind ?h _ w] =>
      assert (Hsafe : safe anySession h w)
  end.
  { destruct (pool_sessions p !! GetUID s) as [oldCopy|] eqn:Hold.
    - destruct (Hinv _ p Hpool _ _ Hold) as (so & Hso & _).
      apply (safe_bind anySession preserved_anySession).
      + by apply (safe_onApplicationSessionUpdateEvent anySession
                    preserved_anySession E oldCopy (Session se) w so s).
      + intros _ w1 _ Hinv1 _.
        by apply (safe_go anySession preserved_anySession).
    - destruct (util.SessionIsClosed s).
      + by apply (safe_onApplicationSessionDeleteEvent anySession
                    preserved_anySession E (Session se) w s).
      + by apply (safe_onApplicationSessionAddEvent anySession
                    preserved_anySession E (Session se) w s). }
  destruct Hsafe as (a & w1 & Hrun & _ & (cs & Hcs & Hf) & Hh).
  rewrite (bind_Some _ _ _ _ _ Hrun).
  destruct (Hh _ s Hs) as (s1 & Hs1 & Hspec).
  rewrite (bind_Some _ _ _ _ _ (load_Some _ _ _ Hs1)). rewrite Hspec.
  destruct (KillInstanceWhenSessionClosed (Spec s)
            && bool_decide (sessionStatus (Status s) = SessionStatusClosed)
            && PodNotTerminated E (Pod se)).
  - exists (record (TerminatePod (Pod se)) w1), (cs ++ [TerminatePod (Pod se)]).
    split; [done|]. split.
    + simpl. by rewrite Hcs, app_assoc.
    + by rewrite List.filter_app, Hf.
  - by exists w1, cs.
Qed.

Lemma onSessionEventFromNode_terminates_pod_witness :
  let cached := sample.session "u3" "a/x" true SessionStatusAvailable (Some "P3") None in
  let reported := sample.session "u3" "a/x" true SessionStatusClosed (Some "P3") None in
  let pod := sample.pod "P3" [8080] in
  let E := sample.env [pod] sample.noFailure in
  let w := sample.world [cached; reported]
             {["a/x" := sample.pool [("u3", 0%nat)] []]} in
  exists w' cs,
    onSessionEventFromNode E {| Pod := pod; Session := 1%nat |} w = Some (None, w')
    /\ calls w' = cs
    /\ List.filter isTerminatePod cs = [TerminatePod pod].
Proof.
  intros cached reported pod E w.
  destruct (onSessionEventFromNode_terminates_pod E w
    {| Pod := pod; Session := 1%nat |} reported
    (sample.pool [("u3", 0%nat)] []))
    as (w' & cs & Hrun & Hcs & Hf).
  - by apply (sample_poolInv anySession [cached; reported] "a/x" "u3" 0%nat [] cached).
  - reflexivity.
  - reflexivity.
  - exists w', cs. split; [exact Hrun|]. split; [exact Hcs|exact Hf].
Defined.

(** C9, at a report for an application that has no pool (the pools are
    created lazily and destroyed with their application). The handler does
    not check the pool it gets from [getApplicationPool], as
    [syncApplicationSessions] and [deleteApplicationSession] do;
    [pool.getSession] dereferences nil and the handler panics before it
    looks at the status: [TerminatePod] is not called, although the session
    asks for kill-on-close, is reported Closed and its pod is not
    terminated. With an empty pool for the application the same report
    terminates the pod. *)
Theorem onSessionEventFromNode_without_pool_panics :
  let s := sample.session "u3" "a/x" true SessionStatusClosed (Some "P3") None in
  let pod := sample.pod "P3" [8080] in
  let E := sample.env [pod] sample.noFailure in
  let se := {| Pod := pod; Session := 0%nat |} in
  KillInstanceWhenSessionClosed (Spec s)
  && bool_decide (sessionStatus (Status s) = SessionStatusClosed)
  && PodNotTerminated E pod = true
  /\ onSessionEventFromNode E se (sample.world [s] ∅) = None
  /\ exists w',
       onSessionEventFromNode E se (sample.world [s] {["a/x" := emptyPool]})
         = Some (None, w')
       /\ calls w' = [TerminatePod pod].
Proof.
  intros s pod E se. split; [reflexivity|]. split; [reflexivity|].
  eexists. split; [vm_compute; reflexivity|reflexivity].
Qed.

(** ** syncApplicationSessions: the bind phase *)

Lemma FindPod_call_run (E : Env) name w :
  podManager_FindPod_call E name w
  = Some (podManager_FindPod E w name, record (FindPod name) w).
Proof. done. Qed.

(** Once every pending session is bound, the rest of the loop only looks
    pods up: it binds nothing and changes neither sessions nor pools. *)
Lemma bindPendingSessions_exhausted (E : Env) (key : string)
    (pending : list loc) (p : ApplicationPool) (pods : list string)
    (errs : list string) (w : World) :
  applicationPools w !! key = Some p ->
  exists w' cs,
    bindPendingSessions E key (Some key) pending pods (length pending) errs w
    = Some ((length pending, errs), w')
    /\ heap w' = heap w
    /\ applicationPools w' = applicationPools w
    /\ calls w' = calls w ++ cs
    /\ Forall (fun c => exists name, c = FindPod name) cs.
Proof.
  revert w. induction pods as [|rp rest IH]; intros w Hpool.
  - exists w, []. simpl. by rewrite app_nil_r.
  - simpl bindPendingSessions.
    rewrite (bind_Some _ _ _ _ _ (derefPool_run w key p Hpool)).
    destruct (pool_pods p !! rp) as [rpod|]; [|by apply IH].
    rewrite (bind_Some _ _ _ _ _ (FindPod_call_run E _ w)).
    assert (Hnext : exists w' cs,
      bindPendingSessions E key (Some key) pending rest (length pending) errs
        (record (FindPod (podName rpod)) w)
      = Some ((length pending, errs), w')
      /\ heap w' = heap w /\ applicationPools w' = applicationPools w
      /\ calls w' = calls w ++ cs
      /\ Forall (fun c => exists name, c = FindPod name) cs).
    { destruct (IH (record (FindPod (podName rpod)) w) Hpool)
        as (w' & cs & Hrun & Hh & Hp & Hc & Hall).
      exists w', (FindPod (podName rpod) :: cs). split_and!; try done.
      - rewrite Hc. simpl. by rewrite <- app_assoc.
      - constructor; [by eexists|done]. }
    destruct (podManager_FindPod E w (podName rpod)) as [pod|]; [|exact Hnext].
    case_decide; [|exact Hnext].
    rewrite decide_True by done.
    eexists _, [_]. split; [reflexivity|]. split_and!; try done.
    constructor; [by eexists|constructor].
Qed.

(** C6. One turn of the bind loop, for an idle pod [rp] of the pool that
    PodManager finds. A pod whose session set is not empty is offered
    nothing. Otherwise, with every pending session bound the loop stops;
    else the session at [si] is sent to the pod: when [OpenSession] fails
    the error is recorded, the session is as before and stays the candidate
    for the next pod; when it succeeds the session is Starting on the pod,
    its uid joins the pod's session set and the next pending session
    becomes the candidate. Once every pending session is bound no further
    session is opened, whatever pods are left. *)
Theorem bindPendingSessions_turn (E : Env) (key : string) (pending : list loc)
    (rp : string) (rest : list string) (si : nat) (errs : list string)
    (w : World) (p : ApplicationPool) (rpod : ApplicationPod) (pod : v1.Pod) :
  applicationPools w !! key = Some p ->
  pool_pods p !! rp = Some rpod ->
  podManager_FindPod E w (podName rpod) = Some pod ->
  let w0 := record (FindPod (podName rpod)) w in
  let run := bindPendingSessions E key (Some key) pending in
  (size (sessions rpod) <> 0%nat ->
   run (rp :: rest) si errs w = run rest si errs w0)
  /\ (size (sessions rpod) = 0%nat -> si = length pending ->
      run (rp :: rest) si errs w = Some ((si, errs), w0))
  /\ (forall session s,
        size (sessions rpod) = 0%nat ->
        pending !! si = Some session ->
        heap w !! session = Some s ->
        let s1 := setStatus (boundStatus pod s) s in
        let w1 := setHeap (<[session := s1]> (heap w)) w0 in
        (forall err,
           sessionManager_OpenSession E w1 pod s1 = Some err ->
           run (rp :: rest) si errs w
           = run rest si (errs ++ [err]) (record (OpenSession pod session s1) w0)
           /\ heap (record (OpenSession pod session s1) w0) !! session = Some s)
        /\ (sessionManager_OpenSession E w1 pod s1 = None ->
            run (rp :: rest) si errs w
            = run rest (S si) errs
                (setPools
                   (<[key := {| pool_sessions := pool_sessions p;
                                pool_pods :=
                                  <[rp := {| podName := podName rpod;
                                             sessions := sessions rpod ∪ {[GetUID s]} |}]>
                                    (pool_pods p) |}]> (applicationPools w))
                   (record (OpenSession pod session s1) w1))
            /\ sessionStatus (Status s1) = SessionStatusStarting
            /\ PodReference (Status s1) = Some {| v1.Name := util.Name pod |}))
  /\ (forall pods,
        exists w' cs,
          run pods (length pending) errs w = Some ((length pending, errs), w')
          /\ heap w' = heap w
          /\ applicationPools w' = applicationPools w
          /\ calls w' = calls w ++ cs
          /\ Forall (fun c => exists name, c = FindPod name) cs).
Proof.
  intros Hpool Hrp Hpod w0 run.
  assert (Hturn : forall k,
    (let* p := derefPool (Some key) in
     match pool_pods p !! rp with
     | None => run rest si errs
     | Some rpod =>
         let* pod := podManager_FindPod_call E (podName rpod) in
         match pod with
         | None => run rest si errs
         | Some pod => k rpod pod
         end
     end) w = k rpod pod w0).
  { intros k. rewrite (bind_Some _ _ _ _ _ (derefPool_run w key p Hpool)), Hrp.
    by rewrite (bind_Some _ _ _ _ _ (FindPod_call_run E _ w)), Hpod. }
  split_and!.
  - intros Hsize. unfold run at 1. simpl bindPendingSessions.
    rewrite Hturn. by rewrite decide_False.
  - intros Hsize Hsi. unfold run at 1. simpl bindPendingSessions.
    rewrite Hturn. by rewrite !decide_True.
  - intros session s Hsize Hsi Hs s1 w1.
    assert (Hlt : si <> length pending).
    { apply lookup_lt_Some in Hsi. lia. }
    assert (Hs0 : heap w0 !! session = Some s) by exact Hs.
    split.
    + intros err Herr. split; [|exact Hs].
      unfold run at 1. simpl bindPendingSessions. rewrite Hturn.
      rewrite decide_True by done. rewrite decide_False by done. rewrite Hsi.
      assert (Hbind : bindSessionToPod E key pod session w0
                      = Some (Some err, record (OpenSession pod session s1) w0)).
      { etrans; [apply (bindSessionToPod_run E key pod session s w0 Hs0)|].
        cbv zeta.
        change (sessionManager_OpenSession E _ pod _)
          with (sessionManager_OpenSession E w1 pod s1).
        by rewrite Herr. }
      by rewrite (bind_Some _ _ _ _ _ Hbind).
    + intros Hopen.
      split; [|destruct (boundStatus_fields pod s) as (? & ? & _); by split].
      unfold run at 1. simpl bindPendingSessions. rewrite Hturn.
      rewrite decide_True by done. rewrite decide_False by done. rewrite Hsi.
      assert (Hbind : bindSessionToPod E key pod session w0
                      = Some (None, record (OpenSession pod session s1) w1)).
      { etrans; [apply (bindSessionToPod_run E key pod session s w0 Hs0)|].
        cbv zeta.
        change (sessionManager_OpenSession E _ pod _)
          with (sessionManager_OpenSession E w1 pod s1).
        by rewrite Hopen. }
      rewrite (bind_Some _ _ _ _ _ Hbind).
      assert (Hs1 : heap (record (OpenSession pod session s1) w1) !! session
                    = Some s1) by apply lookup_insert_eq.
      rewrite (bind_Some _ _ _ _ _ (load_Some _ _ _ Hs1)).
      unfold podSessionsAdd.
      by rewrite (bind_Some _ _ _ _ _
        (setPodSessions_run (record (OpenSession pod session s1) w1)
           key p Hpool rp rpod _ Hrp)).
  - intros pods. by apply (bindPendingSessions_exhausted E key pending p).
Qed.

Lemma bindPendingSessions_turn_witness :
  let s := sample.session "u1" "a/x" false SessionStatusPending None None in
  let pod1 := sample.pod "P1" [8080] in
  let pod2 := sample.pod "P2" [8080] in
  let E := sample.env [pod1; pod2] (sample.openFailsOn "P1") in
  let pool := sample.pool [("u1", 0%nat)]
                [NewApplicationPod "P1"; NewApplicationPod "P2"] in
  let w := sample.world [s] {["a/x" := pool]} in
  exists w' s' pool' rpod1 rpod2,
    bindPendingSessions E "a/x" (Some "a/x") [0%nat] ["P1"; "P2"]%string 0%nat [] w
    = Some ((1%nat, ["open failed"%string]), w')
    /\ heap w' !! 0%nat = Some s'
    /\ sessionStatus (Status s') = SessionStatusStarting
    /\ PodReference (Status s') = Some {| v1.Name := "P2" |}
    /\ applicationPools w' !! "a/x" = Some pool'
    /\ pool_pods pool' !! "P1" = Some rpod1 /\ sessions rpod1 = ∅
    /\ pool_pods pool' !! "P2" = Some rpod2 /\ sessions rpod2 = {["u1"]}.
Proof.
  intros s pod1 pod2 E pool w.
  destruct (bindPendingSessions_turn E "a/x" [0%nat] "P1" ["P2"%string] 0%nat [] w
              pool (NewApplicationPod "P1") pod1 eq_refl eq_refl eq_refl)
    as (_ & _ & Hbind & _).
  destruct (Hbind 0%nat s eq_refl eq_refl eq_refl) as [Hfail _].
  destruct (Hfail "open failed"%string eq_refl) as [Hrun _].
  eexists _, _, _, _, _. split; [rewrite Hrun; vm_compute; reflexivity|].
  split; [reflexivity|]. split; [reflexivity|]. split; [reflexivity|].
  split; [reflexivity|]. split; [reflexivity|]. split; [reflexivity|].
  split; reflexivity.
Defined.

(** ** Scenarios of the specification *)

(** Successful bind: one Pending session, one idle pod with one port.
    [OpenSession] is called once, the sync returns nil, the session is
    Starting with the endpoint of the port and the pod holds its uid. *)
Example sync_successful_bind :
  let s := sample.session "u1" "a/x" false SessionStatusPending None None in
  let pod := sample.pod "P1" [8080] in
  let E := sample.env [pod] sample.noFailure in
  let w := sample.world [s]
             {["a/x" := sample.pool [("u1", 0%nat)] [NewApplicationPod "P1"]]} in
  exists w' s' pool' rpod,
    syncApplicationSessions E "a/x" w = Some (None, w')
    /\ heap w' !! 0%nat = Some s'
    /\ sessionStatus (Status s') = SessionStatusStarting
    /\ AccessEndPoints (Status s')
       = [{| Protocol := "TCP"; IPAddress := "10.0.0.1"; Port := 8080 |}]
    /\ PodReference (Status s') = Some {| v1.Name := "P1" |}
    /\ calls w' = [FindPod "P1"; OpenSession pod 0%nat s']
    /\ applicationPools w' !! "a/x" = Some pool'
    /\ pool_pods pool' !! "P1" = Some rpod
    /\ sessions rpod = {["u1"]}.
Proof.
  intros s pod E w.
  eexists _, _, _, _. split; [vm_compute; reflexivity|].
  split; [reflexivity|]. split; [reflexivity|]. split; [reflexivity|].
  split; [reflexivity|]. split; [reflexivity|]. split; [reflexivity|].
  split; reflexivity.
Qed.

(** Bind failure isolates pods, not sessions: [OpenSession] fails on [P1]
    and the same session is then opened on [P2]; the sync reports the
    error. *)
Example sync_bind_failure_moves_to_next_pod :
  let s := sample.session "u1" "a/x" false SessionStatusPending None None in
  let pod1 := sample.pod "P1" [8080] in
  let pod2 := sample.pod "P2" [8080] in
  let E := sample.env [pod1; pod2] (sample.openFailsOn "P1") in
  let w := sample.world [s]
             {["a/x" := sample.pool [("u1", 0%nat)]
                          [NewApplicationPod "P1"; NewApplicationPod "P2"]]} in
  exists w' s',
    syncApplicationSessions E "a/x" w
    = Some (Some "Some sessions failed to be sync, errors=[open failed]"%string, w')
    /\ heap w' !! 0%nat = Some s'
    /\ sessionStatus (Status s') = SessionStatusStarting
    /\ PodReference (Status s') = Some {| v1.Name := "P2" |}
    /\ List.filter (fun c => match c with OpenSession _ _ _ => true | _ => false end)
         (calls w')
       = [OpenSession pod1 0%nat (setStatus (boundStatus pod1 s) s);
          OpenSession pod2 0%nat s'].
Proof.
  intros s pod1 pod2 E w.
  eexists _, _. split; [vm_compute; reflexivity|].
  split; [reflexivity|]. split; [reflexivity|]. split; reflexivity.
Qed.

(** * Further properties *)

(** ** Runs *)

Lemma runs_eq {A} (m : M A) w a w' (Q : A -> World -> Prop) :
  m w = Some (a, w') -> Q a w' -> runs m w Q.
Proof. intros Hm HQ. by exists a, w'. Qed.

Lemma runs_ret {A} (a : A) w (Q : A -> World -> Prop) :
  Q a w -> runs (ret a) w Q.
Proof. intros HQ. by exists a, w. Qed.

Lemma runs_bind {A B} (m : M A) (k : A -> M B) w (Q : B -> World -> Prop) :
  runs m w (fun a w' => runs (k a) w' Q) -> runs (bind m k) w Q.
Proof.
  intros (a & w' & Hm & b & w'' & Hk & HQ).
  exists b, w''. by rewrite (bind_Some _ _ _ _ _ Hm).
Qed.

Lemma runs_mono {A} (m : M A) w (Q Q' : A -> World -> Prop) :
  runs m w Q -> (forall a w', Q a w' -> Q' a w') -> runs m w Q'.
Proof. intros (a & w' & Hm & HQ) H. exists a, w'. auto. Qed.

Lemma runs_load l w s (Q : ApplicationSession -> World -> Prop) :
  heap w !! l = Some s -> Q s w -> runs (load l) w Q.
Proof. intros Hl HQ. apply (runs_eq _ w s w); [by apply load_Some|done]. Qed.

Lemma runs_inv {A} (m : M A) w (Q : A -> World -> Prop) a w' :
  runs m w Q -> m w = Some (a, w') -> Q a w'.
Proof. intros (a0 & w0 & Hm & HQ) Hm'. rewrite Hm in Hm'. by injection Hm' as <- <-. Qed.

(** ** summarySessions *)

Lemma wrap32_small z : - 2 ^ 31 <= z < 2 ^ 31 -> wrap32 z = z.
Proof. intros H. unfold wrap32. rewrite Z.mod_small; lia. Qed.

Lemma summarySessionsLoop_run vs ss summary w :
  objectsAt w vs ss ->
  summarySessionsLoop vs summary w = Some (summarize ss summary, w).
Proof.
  intros H. revert summary.
  induction H as [|v s vs ss Hv _ IH]; intros summary; [done|].
  simpl summarySessionsLoop.
  rewrite (bind_Some _ _ _ _ _ (load_Some _ _ _ Hv)). apply IH.
Qed.

Lemma countWhere_cons f s ss :
  countWhere f (s :: ss) = (if f s then 1 else 0) + countWhere f ss.
Proof. unfold countWhere. simpl. destruct (f s); simpl; lia. Qed.

Lemma countWhere_nonneg f ss : 0 <= countWhere f ss.
Proof. unfold countWhere. lia. Qed.

(** One turn of the loop bumps the counter of the session's class. *)
Lemma summarySession_fields s c :
  0 <= pendingCount c < 2147483647 -> 0 <= startingCount c < 2147483647 ->
  0 <= idleCount c < 2147483647 -> 0 <= inUseCount c < 2147483647 ->
  0 <= timeoutCount c < 2147483647 -> 0 <= closedCount c < 2147483647 ->
  0 <= deletingCount c < 2147483647 ->
  let c' := summarySession s c in
  let one (b : bool) : Z := if b then 1 else 0 in
  pendingCount c'
  = pendingCount c
    + one (liveWith [SessionStatusUnspecified; SessionStatusPending;
                     SessionStatusClosing] s)
  /\ startingCount c'
     = startingCount c + one (liveWith [SessionStatusStarting] s)
  /\ idleCount c' = idleCount c + one (liveWith [SessionStatusAvailable] s)
  /\ inUseCount c' = inUseCount c + one (liveWith [SessionStatusInUse] s)
  /\ timeoutCount c' = timeoutCount c + one (liveWith [SessionStatusTimeout] s)
  /\ closedCount c' = closedCount c + one (liveWith [SessionStatusClosed] s)
  /\ deletingCount c' = deletingCount c + one (isDeleting s)
  /\ pendingCount c' + startingCount c' + idleCount c' + inUseCount c'
       + timeoutCount c' + closedCount c' + deletingCount c'
     = pendingCount c + startingCount c + idleCount c + inUseCount c
       + timeoutCount c + closedCount c + deletingCount c + 1.
Proof.
  intros H1 H2 H3 H4 H5 H6 H7.
  assert (Hw : forall z, 0 <= z < 2147483647 -> wrap32 (z + 1) = z + 1).
  { intros z Hz. apply wrap32_small. lia. }
  pose proof (Hw _ H1). pose proof (Hw _ H2). pose proof (Hw _ H3).
  pose proof (Hw _ H4). pose proof (Hw _ H5). pose proof (Hw _ H6).
  pose proof (Hw _ H7).
  unfold summarySession, liveWith, isDeleting, SessionStatusOccupied.
  destruct (DeletionTimestamp s); [|destruct (sessionStatus (Status s))];
    cbn -[wrap32 Z.add];
    repeat (case_decide;
            try (exfalso; rewrite ?elem_of_cons, ?elem_of_nil in *;
                 by intuition congruence));
    cbn -[wrap32 Z.add]; lia.
Qed.

(** The counters after the loop, as long as no counter overflows. *)
Lemma summarize_counts ss c :
  0 <= pendingCount c -> 0 <= startingCount c -> 0 <= idleCount c ->
  0 <= inUseCount c -> 0 <= timeoutCount c -> 0 <= closedCount c ->
  0 <= deletingCount c ->
  pendingCount c + startingCount c + idleCount c + inUseCount c
    + timeoutCount c + closedCount c + deletingCount c
    + Z.of_nat (length ss) < 2147483648 ->
  let c' := summarize ss c in
  pendingCount c'
  = pendingCount c
    + countWhere (liveWith [SessionStatusUnspecified; SessionStatusPending;
                            SessionStatusClosing]) ss
  /\ startingCount c'
     = startingCount c + countWhere (liveWith [SessionStatusStarting]) ss
  /\ idleCount c'
     = idleCount c + countWhere (liveWith [SessionStatusAvailable]) ss
  /\ inUseCount c'
     = inUseCount c + countWhere (liveWith [SessionStatusInUse]) ss
  /\ timeoutCount c'
     = timeoutCount c + countWhere (liveWith [SessionStatusTimeout]) ss
  /\ closedCount c'
     = closedCount c + countWhere (liveWith [SessionStatusClosed]) ss
  /\ deletingCount c' = deletingCount c + countWhere isDeleting ss
  /\ pendingCount c' + startingCount c' + idleCount c' + inUseCount c'
       + timeoutCount c' + closedCount c' + deletingCount c'
     = pendingCount c + startingCount c + idleCount c + inUseCount c
       + timeoutCount c + closedCount c + deletingCount c
       + Z.of_nat (length ss).
Proof.
  revert c. induction ss as [|s ss IH]; intros c H1 H2 H3 H4 H5 H6 H7 Hsum.
  - unfold countWhere. simpl. lia.
  - simpl length in Hsum. unfold summarize in *. simpl fold_left.
    rewrite !countWhere_cons.
    destruct (summarySession_fields s c)
      as (E1 & E2 & E3 & E4 & E5 & E6 & E7 & E8); [lia..|].
    simpl in E1, E2, E3, E4, E5, E6, E7, E8.
    assert (Hone : forall b : bool, 0 <= (if b then 1 else 0)).
    { intros []; lia. }
    pose proof (Hone (liveWith [SessionStatusUnspecified; SessionStatusPending;
                                SessionStatusClosing] s)).
    pose proof (Hone (liveWith [SessionStatusStarting] s)).
    pose proof (Hone (liveWith [SessionStatusAvailable] s)).
    pose proof (Hone (liveWith [SessionStatusInUse] s)).
    pose proof (Hone (liveWith [SessionStatusTimeout] s)).
    pose proof (Hone (liveWith [SessionStatusClosed] s)).
    pose proof (Hone (isDeleting s)).
    destruct (IH (summarySession s c))
      as (F1 & F2 & F3 & F4 & F5 & F6 & F7 & F8); [lia..|].
    simpl in F1, F2, F3, F4, F5, F6, F7, F8. simpl.
    split_and!; [rewrite F1, E1|rewrite F2, E2|rewrite F3, E3|rewrite F4, E4
                |rewrite F5, E5|rewrite F6, E6|rewrite F7, E7|rewrite F8, E8];
      lia.
Qed.

(** [summarySessions] counts every session of the pool once: a session with
    a deletion timestamp as deleting whatever its status, any other session
    by its status, Unspecified and Closing counting as pending. The seven
    counters add up to the number of sessions (below 2^31 sessions, where no
    counter overflows), and nothing changes. *)
Theorem summarySessions_counts (w : World) (key : string)
    (p : ApplicationPool) (ss : list ApplicationSession) :
  applicationPools w !! key = Some p ->
  objectsAt w (map_to_list (pool_sessions p)).*2 ss ->
  Z.of_nat (size (pool_sessions p)) < 2147483648 ->
  exists c,
    summarySessions (Some key) w = Some (c, w)
    /\ pendingCount c
       = countWhere (liveWith [SessionStatusUnspecified; SessionStatusPending;
                               SessionStatusClosing]) ss
    /\ startingCount c = countWhere (liveWith [SessionStatusStarting]) ss
    /\ idleCount c = countWhere (liveWith [SessionStatusAvailable]) ss
    /\ inUseCount c = countWhere (liveWith [SessionStatusInUse]) ss
    /\ timeoutCount c = countWhere (liveWith [SessionStatusTimeout]) ss
    /\ closedCount c = countWhere (liveWith [SessionStatusClosed]) ss
    /\ deletingCount c = countWhere isDeleting ss
    /\ pendingCount c + startingCount c + idleCount c + inUseCount c
         + timeoutCount c + closedCount c + deletingCount c
       = Z.of_nat (size (pool_sessions p)).
Proof.
  intros Hpool Hobj Hsize.
  assert (Hlen : length ss = size (pool_sessions p)).
  { rewrite <- (Forall2_length _ _ _ Hobj), length_fmap.
    apply length_map_to_list. }
  exists (summarize ss noSummary). split.
  - unfold summarySessions, sessionList.
    rewrite (bind_Some _ _ _ _ _ (derefPool_run w key p Hpool)).
    rewrite bind_assoc.
    rewrite (bind_Some _ _ _ _ _ (derefPool_run w key p Hpool)).
    rewrite bind_ret. by apply summarySessionsLoop_run.
  - destruct (summarize_counts ss noSummary)
      as (F1 & F2 & F3 & F4 & F5 & F6 & F7 & F8); simpl; try lia.
    simpl in *. rewrite Hlen in F8. split_and!; lia.
Qed.

(** ** getTotalAndPendingSessionNum *)

Lemma countWhere_none f ss :
  (forall s, s ∈ ss -> f s = false) -> countWhere f ss = 0.
Proof.
  intros H. induction ss as [|s ss IH]; [done|].
  rewrite countWhere_cons, H by (by left). rewrite IH; [done|].
  intros s' Hs'. apply H. by right.
Qed.

(** Without a pool both numbers are 0. With a pool, the total is the number
    of sessions of the pool that are not Closed or Timeout without a
    deletion timestamp, hence all of them when no session of the pool is
    in a terminal state; the pending number counts the sessions without
    deletion timestamp that are Unspecified, Pending or Closing. *)
Theorem getTotalAndPendingSessionNum_counts (w : World) (key : string) :
  (applicationPools w !! key = None ->
   getTotalAndPendingSessionNum key w = Some ((0, 0), w))
  /\ (forall p ss,
        applicationPools w !! key = Some p ->
        objectsAt w (map_to_list (pool_sessions p)).*2 ss ->
        Z.of_nat (size (pool_sessions p)) < 2147483648 ->
        exists total pending,
          getTotalAndPendingSessionNum key w = Some ((total, pending), w)
          /\ total
             = Z.of_nat (size (pool_sessions p))
               - countWhere (liveWith [SessionStatusClosed]) ss
               - countWhere (liveWith [SessionStatusTimeout]) ss
          /\ pending
             = countWhere (liveWith [SessionStatusUnspecified;
                                     SessionStatusPending;
                                     SessionStatusClosing]) ss
          /\ ((forall s, s ∈ ss -> notTerminal s) ->
              total = Z.of_nat (size (pool_sessions p)))).
Proof.
  split.
  - intros Hpool. unfold getTotalAndPendingSessionNum.
    rewrite (bind_Some _ _ _ _ _ (getApplicationPool_run key w)).
    by rewrite Hpool.
  - intros p ss Hpool Hobj Hsize.
    assert (Hlen : length ss = size (pool_sessions p)).
    { rewrite <- (Forall2_length _ _ _ Hobj), length_fmap.
      apply length_map_to_list. }
    destruct (summarize_counts ss noSummary)
      as (F1 & F2 & F3 & F4 & F5 & F6 & F7 & F8); simpl; try lia.
    simpl in F1, F2, F3, F4, F5, F6, F7, F8. rewrite Hlen in F8.
    assert (Hsum : summarySessions (Some key) w
                   = Some (summarize ss noSummary, w)).
    { unfold summarySessions, sessionList.
      rewrite (bind_Some _ _ _ _ _ (derefPool_run w key p Hpool)).
      rewrite bind_assoc.
      rewrite (bind_Some _ _ _ _ _ (derefPool_run w key p Hpool)).
      rewrite bind_ret. by apply summarySessionsLoop_run. }
    unfold getTotalAndPendingSessionNum.
    rewrite (bind_Some _ _ _ _ _ (getApplicationPool_run key w)), Hpool.
    rewrite (bind_Some _ _ _ _ _ Hsum).
    eexists _, _. split; [reflexivity|].
    pose proof (countWhere_nonneg
      (liveWith [SessionStatusUnspecified; SessionStatusPending;
                 SessionStatusClosing]) ss).
    pose proof (countWhere_nonneg (liveWith [SessionStatusStarting]) ss).
    pose proof (countWhere_nonneg (liveWith [SessionStatusAvailable]) ss).
    pose proof (countWhere_nonneg (liveWith [SessionStatusInUse]) ss).
    pose proof (countWhere_nonneg (liveWith [SessionStatusTimeout]) ss).
    pose proof (countWhere_nonneg (liveWith [SessionStatusClosed]) ss).
    pose proof (countWhere_nonneg isDeleting ss).
    assert (Htotal :
      wrap32 (wrap32 (wrap32 (wrap32
        (idleCount (summarize ss noSummary) + inUseCount (summarize ss noSummary))
        + pendingCount (summarize ss noSummary))
        + startingCount (summarize ss noSummary))
        + deletingCount (summarize ss noSummary))
      = Z.of_nat (size (pool_sessions p))
        - countWhere (liveWith [SessionStatusClosed]) ss
        - countWhere (liveWith [SessionStatusTimeout]) ss).
    { rewrite (wrap32_small (idleCount _ + inUseCount _)) by lia.
      rewrite (wrap32_small (idleCount _ + inUseCount _ + pendingCount _)) by lia.
      rewrite (wrap32_small (idleCount _ + inUseCount _ + pendingCount _
                             + startingCount _)) by lia.
      rewrite wrap32_small by lia. lia. }
    split; [exact Htotal|]. split; [lia|].
    intros Hnt. rewrite Htotal.
    rewrite !countWhere_none; [lia|..];
      intros s Hs; specialize (Hnt s Hs);
      unfold notTerminal, util.SessionInTerminalState in Hnt;
      unfold liveWith; apply andb_false_intro2, bool_decide_false;
      rewrite list_elem_of_singleton; intros Hst; by rewrite Hst in Hnt.
Qed.

(** ** deleteApplicationSession *)

(** The end of [deleteApplicationSession] (and the terminal branch of
    [updateSessionPool]): the uid leaves the session set of the referenced
    pod, then the session leaves the pool. *)
Lemma removeSession_run (w : World) (key : string) (p : ApplicationPool)
    (s : ApplicationSession) :
  applicationPools w !! key = Some p ->
  ((match PodReference (Status s) with
    | Some ref =>
        let* pod := getPod (Some key) (v1.Name ref) in
        match pod with
        | Some pod => podSessionsDelete (Some key) pod (GetUID s)
        | None => ret tt
        end
    | None => ret tt
    end) >> deleteSession (Some key) (GetUID s)) w
  = Some (tt, setPools (<[key := poolWithout s p]> (applicationPools w)) w).
Proof.
  intros Hpool. unfold poolWithout, podsWithout.
  destruct (PodReference (Status s)) as [ref|]; cbv iota.
  - rewrite bind_assoc.
    rewrite (bind_Some _ _ _ _ _ (getPod_run w key p Hpool (v1.Name ref))).
    destruct (pool_pods p !! v1.Name ref) as [pod|] eqn:Hpod; cbv iota.
    + unfold podSessionsDelete.
      rewrite (bind_Some _ _ _ _ _
        (setPodSessions_run w key p Hpool _ pod _ Hpod)).
      run_deleteSession. simpl. by rewrite insert_insert_eq.
    + rewrite bind_ret. by run_deleteSession.
  - rewrite bind_ret. by run_deleteSession.
Qed.

Lemma poolWithout_spec s p :
  pool_sessions (poolWithout s p) !! GetUID s = None
  /\ (forall uid, uid <> GetUID s ->
        pool_sessions (poolWithout s p) !! uid = pool_sessions p !! uid)
  /\ (forall ref pod,
        PodReference (Status s) = Some ref ->
        pool_pods (poolWithout s p) !! v1.Name ref = Some pod ->
        GetUID s ∉ sessions pod)
  /\ (forall name,
        PodReference (Status s) <> Some {| v1.Name := name |} ->
        pool_pods (poolWithout s p) !! name = pool_pods p !! name).
Proof.
  unfold poolWithout, podsWithout. simpl. split_and!.
  - apply lookup_delete_eq.
  - intros uid Hne. by apply lookup_delete_ne.
  - intros ref pod Href. rewrite Href.
    destruct (pool_pods p !! v1.Name ref) as [pod0|] eqn:Hpod.
    + rewrite lookup_insert_eq. intros [= <-]. simpl.
      apply not_elem_of_difference. right. by apply elem_of_singleton.
    + by rewrite Hpod.
  - intros name Hne. destruct (PodReference (Status s)) as [[n]|]; [|done].
    simpl. destruct (pool_pods p !! n); [|done].
    apply lookup_insert_ne. intros ->. by apply Hne.
Qed.

(** [deleteApplicationSession] does nothing for an application without a
    pool. It never takes an open session out of the pool: it hands it to
    [closeApplicationSession] and leaves the pools alone. For a pending
    session it persists the status Timeout first, and when that fails it
    returns the error and the session stays in the pool. In every other
    case it returns nil, the session has left the pool and its uid has left
    the session set of the pod it refers to; the session object itself is
    not changed. *)
Theorem deleteApplicationSession_cases (E : Env) (w : World) (key : string)
    (l : loc) (s : ApplicationSession) :
  heap w !! l = Some s ->
  (applicationPools w !! key = None ->
   deleteApplicationSession E key l w = Some (None, w))
  /\ (forall p,
        applicationPools w !! key = Some p ->
        util.SessionIsOpen s = true ->
        deleteApplicationSession E key l w = closeApplicationSession E l w
        /\ runs (closeApplicationSession E l) w
             (fun _ w' => applicationPools w' = applicationPools w))
  /\ (forall p err,
        applicationPools w !! key = Some p ->
        util.SessionIsOpen s = false ->
        util.SessionIsPending s = true ->
        sessionManager_UpdateSessionStatus E w s
          (changedStatus s SessionStatusTimeout) = Some err ->
        deleteApplicationSession E key l w
        = Some (Some err,
                record (UpdateSessionStatus s
                          (changedStatus s SessionStatusTimeout)) w))
  /\ (forall p,
        applicationPools w !! key = Some p ->
        util.SessionIsOpen s = false ->
        (util.SessionIsPending s = true ->
         sessionManager_UpdateSessionStatus E w s
           (changedStatus s SessionStatusTimeout) = None) ->
        exists w',
          deleteApplicationSession E key l w = Some (None, w')
          /\ heap w' = heap w
          /\ (exists p',
                applicationPools w' = <[key := p']> (applicationPools w)
                /\ pool_sessions p' = delete (GetUID s) (pool_sessions p)
                /\ forall ref pod,
                     PodReference (Status s) = Some ref ->
                     pool_pods p' !! v1.Name ref = Some pod ->
                     GetUID s ∉ sessions pod)
          /\ calls w'
             = calls w
               ++ (if util.SessionIsPending s
                   then [UpdateSessionStatus s
                           (changedStatus s SessionStatusTimeout)]
                   else [])).
Proof.
  intros Hl. unfold deleteApplicationSession.
  rewrite (bind_Some _ _ _ _ _ (load_Some _ _ _ Hl)).
  rewrite (bind_Some _ _ _ _ _ (getApplicationPool_run key w)).
  split_and!.
  - by intros ->.
  - intros p Hpool Hopen. rewrite Hpool, Hopen. split; [done|].
    unfold runs. rewrite (closeApplicationSession_run E w l s Hl), Hopen.
    destruct (PodReference (Status s)) as [ref|]; [|by eexists _, _].
    destruct (podManager_FindPod E w (v1.Name ref)); by eexists _, _.
  - intros p err Hpool Hopen Hpend Herr. rewrite Hpool, Hopen, Hpend.
    rewrite (bind_Some _ _ _ _ _ (changeSessionStatus_run E w l s _ Hl)).
    by rewrite Herr.
  - intros p Hpool Hopen Hok. rewrite Hpool, Hopen.
    destruct (util.SessionIsPending s) eqn:Hpend.
    + rewrite (bind_Some _ _ _ _ _ (changeSessionStatus_run E w l s _ Hl)).
      rewrite (Hok eq_refl).
      set (w0 := record _ w).
      assert (Hl0 : heap w0 !! l = Some s) by exact Hl.
      rewrite (bind_Some _ _ _ _ _ (load_Some _ _ _ Hl0)).
      rewrite <- bind_assoc.
      rewrite (bind_Some _ _ _ _ _ (removeSession_run w0 key p s Hpool)).
      eexists. split; [reflexivity|]. split; [done|]. split; [|done].
      exists (poolWithout s p). split; [done|]. split; [done|].
      apply poolWithout_spec.
    + rewrite bind_ret.
      rewrite (bind_Some _ _ _ _ _ (load_Some _ _ _ Hl)).
      rewrite <- bind_assoc.
      rewrite (bind_Some _ _ _ _ _ (removeSession_run w key p s Hpool)).
      eexists. split; [reflexivity|]. split; [done|].
      split; [|simpl; by rewrite app_nil_r].
      exists (poolWithout s p). split; [done|]. split; [done|].
      apply poolWithout_spec.
Qed.

(** ** syncApplicationSessions: the timeout phase *)

(** The timeout phase persists the status Timeout, with the client sessions
    emptied, once for every session it is given, in order, and goes on
    after a failure; it collects at most one error per session. It changes
    neither the session objects nor the pools: a timed-out session leaves
    the pool only through a later update event. *)
Theorem cleanupTimeoutSessions_persists (E : Env) (vs : list loc)
    (ss : list ApplicationSession) (errs : list string) (w : World) :
  objectsAt w vs ss ->
  exists errs' w',
    cleanupTimeoutSessions E vs errs w = Some (errs ++ errs', w')
    /\ heap w' = heap w
    /\ applicationPools w' = applicationPools w
    /\ queue w' = queue w
    /\ calls w'
       = calls w
         ++ ((fun s => UpdateSessionStatus s
                         (setClientSessions []
                            (setSessionStatus SessionStatusTimeout (Status s))))
             <$> ss)
    /\ (length errs' <= length vs)%nat
    /\ ((forall w0 s st, sessionManager_UpdateSessionStatus E w0 s st = None) ->
        errs' = []).
Proof.
  intros Hobj. revert errs w Hobj. revert vs.
  induction ss as [|s ss IH]; intros vs errs w Hobj.
  - apply Forall2_nil_inv_r in Hobj as ->.
    exists [], w. simpl. rewrite !app_nil_r. by split_and!.
  - apply Forall2_cons_inv_r in Hobj as (v & vs' & Hv & Hobj & ->).
    simpl cleanupTimeoutSessions.
    rewrite (bind_Some _ _ _ _ _ (changeSessionStatus_run E w v s _ Hv)).
    set (w1 := record (UpdateSessionStatus s
                         (changedStatus s SessionStatusTimeout)) w).
    assert (Hobj1 : objectsAt w1 vs' ss) by exact Hobj.
    destruct (sessionManager_UpdateSessionStatus E w s
                (changedStatus s SessionStatusTimeout)) as [err|] eqn:Herr.
    + destruct (IH vs' (errs ++ [err]) w1 Hobj1)
        as (errs1 & w' & Hrun & Hh & Hp & Hq & Hc & Hlen & Hok).
      exists (err :: errs1), w'. split.
      { rewrite Hrun. by rewrite <- app_assoc. }
      split_and!; try done.
      * rewrite Hc. simpl. by rewrite <- app_assoc.
      * simpl. lia.
      * intros Hnone. by rewrite Hnone in Herr.
    + destruct (IH vs' errs w1 Hobj1)
        as (errs1 & w' & Hrun & Hh & Hp & Hq & Hc & Hlen & Hok).
      exists errs1, w'. split; [done|]. split_and!; try done.
      * rewrite Hc. simpl. by rewrite <- app_assoc.
      * simpl. lia.
Qed.

(** ** syncApplicationSessions: the bind phase as a whole *)

Lemma shrinks_refl w : shrinks w w.
Proof. intros k p' Hp'. by exists p'. Qed.

Lemma shrinks_trans w1 w2 w3 : shrinks w1 w2 -> shrinks w2 w3 -> shrinks w1 w3.
Proof.
  intros H12 H23 k p3 Hp3. destruct (H23 k p3 Hp3) as (p2 & Hp2 & Hsub23).
  destruct (H12 k p2 Hp2) as (p1 & Hp1 & Hsub12).
  exists p1. split; [done|]. by etrans.
Qed.

Lemma shrinks_pools w w' :
  applicationPools w' = applicationPools w -> shrinks w w'.
Proof. intros Heq k p' Hp'. exists p'. by rewrite <- Heq. Qed.

Lemma shrinks_insert w w' key p p' :
  applicationPools w !! key = Some p ->
  applicationPools w' = <[key := p']> (applicationPools w) ->
  pool_sessions p' ⊆ pool_sessions p ->
  shrinks w w'.
Proof.
  intros Hp Heq Hsub k q Hq. rewrite Heq in Hq.
  apply lookup_insert_Some in Hq as [[<- <-] | [_ Hq]]; [by exists p|by exists q].
Qed.

Section bind_phase.

Context (E : Env) (P : ApplicationSession -> Prop) (HP : preserved P).
Hypothesis HPbound : forall pod s, P (setStatus (boundStatus pod s) s).
Context (key : string) (pending : list loc).

(** The bind loop always returns. It binds the pending sessions from [si]
    on, one per turn at most; a turn that opens a session either binds it
    or records an error. The sessions of the pools, the queue and the specs
    of the session objects do not change. *)
Lemma bindPendingSessions_total (pods : list string) :
  forall (si : nat) (errs : list string) (w : World) (p : ApplicationPool),
  applicationPools w !! key = Some p ->
  poolInv P w ->
  (forall l, l ∈ pending -> is_Some (heap w !! l)) ->
  (si <= length pending)%nat ->
  exists si' errs' w' p' cs,
    bindPendingSessions E key (Some key) pending pods si errs w
    = Some ((si', errs ++ errs'), w')
    /\ (si <= si' <= length pending)%nat
    /\ (si' - si + length errs' <= length pods)%nat
    /\ applicationPools w' = <[key := p']> (applicationPools w)
    /\ pool_sessions p' = pool_sessions p
    /\ poolInv P w'
    /\ queue w' = queue w
    /\ calls w' = calls w ++ cs
    /\ List.filter isTerminatePod cs = []
    /\ length (List.filter isOpenSession cs) = (si' - si + length errs')%nat
    /\ (forall l s, heap w !! l = Some s ->
          exists s', heap w' !! l = Some s' /\ Spec s' = Spec s
                     /\ ObjectMeta s' = ObjectMeta s).
Proof using All.
  induction pods as [|rp rest IH]; intros si errs w p Hpool Hinv Hlive Hsi.
  - exists si, [], w, p, []. simpl. rewrite !app_nil_r.
    split_and!;
      first [ done | lia | by rewrite insert_id | (intros l s Hl; by exists s) ].
  - simpl bindPendingSessions.
    rewrite (bind_Some _ _ _ _ _ (derefPool_run w key p Hpool)).
    (* the turns that bind nothing *)
    assert (Hskip : forall w0 cs0,
      heap w0 = heap w -> applicationPools w0 = applicationPools w ->
      queue w0 = queue w -> calls w0 = calls w ++ cs0 ->
      List.filter isTerminatePod cs0 = [] ->
      List.filter isOpenSession cs0 = [] ->
      exists si' errs' w' p' cs,
        bindPendingSessions E key (Some key) pending rest si errs w0
        = Some ((si', errs ++ errs'), w')
        /\ (si <= si' <= length pending)%nat
        /\ (si' - si + length errs' <= length (rp :: rest))%nat
        /\ applicationPools w' = <[key := p']> (applicationPools w)
        /\ pool_sessions p' = pool_sessions p
        /\ poolInv P w'
        /\ queue w' = queue w
        /\ calls w' = calls w ++ cs
        /\ List.filter isTerminatePod cs = []
        /\ length (List.filter isOpenSession cs) = (si' - si + length errs')%nat
        /\ (forall l s, heap w !! l = Some s ->
              exists s', heap w' !! l = Some s' /\ Spec s' = Spec s
                         /\ ObjectMeta s' = ObjectMeta s)).
    { intros w0 cs0 Hh0 Hp0 Hq0 Hc0 Hft0 Hfo0.
      destruct (IH si errs w0 p) as (si' & errs' & w' & p' & cs & Hrun & Hb
        & Hlen & Hp' & Hps & Hinv' & Hq' & Hc' & Hft & Hfo & Hspec).
      - by rewrite Hp0.
      - by apply (poolInv_ext P HP w).
      - intros l Hl. rewrite Hh0. by apply Hlive.
      - done.
      - exists si', errs', w', p', (cs0 ++ cs). split; [done|].
        split_and!;
          first [ done | lia | by (simpl; lia) | by rewrite Hp', Hp0
                | by rewrite Hq', Hq0 | by rewrite Hc', Hc0, app_assoc
                | by rewrite List.filter_app, Hft0, Hft
                | by rewrite List.filter_app, Hfo0
                | (intros l s Hl; apply Hspec; by rewrite Hh0) ]. }
    destruct (pool_pods p !! rp) as [rpod|] eqn:Hrp.
    2: { apply (Hskip w []); try done. by rewrite app_nil_r. }
    rewrite (bind_Some _ _ _ _ _ (FindPod_call_run E _ w)).
    set (w0 := record (FindPod (podName rpod)) w).
    destruct (podManager_FindPod E w (podName rpod)) as [pod|].
    2: { by apply (Hskip w0 [FindPod (podName rpod)]). }
    case_decide as Hsize.
    2: { by apply (Hskip w0 [FindPod (podName rpod)]). }
    case_decide as Hend.
    { exists si, [], w0, p, [FindPod (podName rpod)].
      rewrite app_nil_r. split; [done|].
      split_and!;
        first [ done | lia | by (simpl; lia) | by rewrite insert_id
              | by apply (poolInv_ext P HP w)
              | (intros l s Hl; by exists s) ]. }
    destruct (pending !! si) as [session|] eqn:Hsession.
    2: { apply lookup_ge_None in Hsession. lia. }
    destruct (Hlive session) as [s Hs]; [by eapply list_elem_of_lookup_2|].
    assert (Hs0 : heap w0 !! session = Some s) by exact Hs.
    pose proof (bindSessionToPod_run E key pod session s w0 Hs0) as Hbind.
    cbv zeta in Hbind.
    set (s1 := setStatus (boundStatus pod s) s) in *.
    set (w1 := setHeap (<[session := s1]> (heap w0)) w0) in *.
    destruct (sessionManager_OpenSession E w1 pod s1) as [err|];
      rewrite (bind_Some _ _ _ _ _ Hbind); clear Hbind.
    + (* the error is recorded and the same session goes to the next pod *)
      set (w2 := record (OpenSession pod session s1) w0).
      destruct (IH si (errs ++ [err]) w2 p) as (si' & errs' & w' & p' & cs
        & Hrun & Hb & Hlen & Hp' & Hps & Hinv' & Hq' & Hc' & Hft & Hfo & Hspec);
        [done|by apply (poolInv_ext P HP w)|done|done|].
      exists si', (err :: errs'), w', p',
        ([FindPod (podName rpod); OpenSession pod session s1] ++ cs).
      split; [by rewrite Hrun, <- app_assoc|].
      split_and!;
        first [ done | lia | by (simpl; lia) | by (simpl in *; lia)
              | by (rewrite Hc'; simpl; rewrite <- !app_assoc) ].
    + (* the session is bound and the next one becomes the candidate *)
      set (w2 := record (OpenSession pod session s1) w1).
      assert (Hs2 : heap w2 !! session = Some s1) by apply lookup_insert_eq.
      rewrite (bind_Some _ _ _ _ _ (load_Some _ _ _ Hs2)).
      unfold podSessionsAdd.
      rewrite (bind_Some _ _ _ _ _
        (setPodSessions_run w2 key p Hpool rp rpod _ Hrp)).
      set (p2 := {| pool_sessions := pool_sessions p; pool_pods := _ |}).
      set (w3 := setPools _ w2).
      destruct (IH (S si) errs w3 p2) as (si' & errs' & w' & p' & cs
        & Hrun & Hb & Hlen & Hp' & Hps & Hinv' & Hq' & Hc' & Hft & Hfo & Hspec).
      * apply lookup_insert_eq.
      * assert (Hinv2 : poolInv P w2).
        { apply (poolInv_ext P HP w1); [done..|].
          apply (poolInv_setHeap P HP w0); [by apply (poolInv_ext P HP w)|].
          intros q Hq. apply (poolOk_update P HP); [done|apply HPbound]. }
        apply (poolInv_setPools P HP w2); [done|].
        apply (poolOk_pods P HP). by apply (Hinv2 key).
      * intros l Hl. simpl. destruct (decide (session = l)) as [<-|Hne].
        -- rewrite lookup_insert_eq. by eexists.
        -- rewrite lookup_insert_ne by done. by apply Hlive.
      * apply lookup_lt_Some in Hsession. lia.
      * exists si', errs', w', p',
          ([FindPod (podName rpod); OpenSession pod session s1] ++ cs).
        split; [done|].
        split_and!;
          try first [ done | lia | by (simpl; lia) | by (simpl in *; lia)
                    | by (rewrite Hp'; simpl; rewrite insert_insert_eq)
                    | by (rewrite Hc'; simpl; rewrite <- !app_assoc) ].
        -- intros l s0 Hl. destruct (decide (session = l)) as [<-|Hne].
           ++ destruct (Hspec session s1) as (s' & Hs' & Hsp & Hom);
                [apply lookup_insert_eq|].
              exists s'. rewrite Hs in Hl. injection Hl as <-. by split_and!.
           ++ apply Hspec. simpl. by rewrite lookup_insert_ne.
Qed.

End bind_phase.

(** The bind phase of one sync: it always returns, with at most one session
    bound per idle pod and none beyond the pending ones; every
    [OpenSession] it makes either binds a session or records an error; it
    enqueues nothing and leaves the session tables of the pools as they
    are. *)
Theorem bindPendingSessions_bounds (E : Env) (key : string)
    (pending : list loc) (pods : list string) (w : World)
    (p : ApplicationPool) :
  applicationPools w !! key = Some p ->
  poolInv anySession w ->
  (forall l, l ∈ pending -> is_Some (heap w !! l)) ->
  exists si errs w' p' cs,
    bindPendingSessions E key (Some key) pending pods 0%nat [] w
    = Some ((si, errs), w')
    /\ (si <= length pending)%nat
    /\ (si + length errs <= length pods)%nat
    /\ calls w' = calls w ++ cs
    /\ length (List.filter isOpenSession cs) = (si + length errs)%nat
    /\ queue w' = queue w
    /\ applicationPools w' = <[key := p']> (applicationPools w)
    /\ pool_sessions p' = pool_sessions p.
Proof.
  intros Hpool Hinv Hlive.
  destruct (bindPendingSessions_total E anySession preserved_anySession
              (fun _ _ => I) key pending pods 0%nat [] w p Hpool Hinv Hlive)
    as (si & errs & w' & p' & cs & Hrun & Hb & Hlen & Hp' & Hps & _ & Hq
        & Hc & _ & Hfo & _); [lia|].
  exists si, errs, w', p', cs. rewrite Nat.sub_0_r in Hlen, Hfo.
  split_and!; try done. lia.
Qed.

(** ** syncApplicationSessions as a whole *)

Lemma evolves_refl w : evolves w w.
Proof.
  split_and!; [apply shrinks_refl|done|exists []; by rewrite app_nil_r|].
  intros l s Hl. by exists s.
Qed.

Lemma evolves_trans w1 w2 w3 : evolves w1 w2 -> evolves w2 w3 -> evolves w1 w3.
Proof.
  intros (Hs & Hq & (cs & Hc & Hf) & Hh) (Hs' & Hq' & (cs' & Hc' & Hf') & Hh').
  split_and!.
  - by apply (shrinks_trans w1 w2 w3).
  - by rewrite Hq', Hq.
  - exists (cs ++ cs'). split; [by rewrite Hc', Hc, app_assoc|].
    by rewrite List.filter_app, Hf, Hf'.
  - intros l s Hl. destruct (Hh l s Hl) as (s' & Hl' & Hsp & Hom).
    destruct (Hh' l s' Hl') as (s'' & Hl'' & Hsp' & Hom').
    exists s''. split; [done|]. split; congruence.
Qed.

Lemma evolves_frame w w' cs :
  heap w' = heap w -> applicationPools w' = applicationPools w ->
  queue w' = queue w -> calls w' = calls w ++ cs ->
  List.filter isTerminatePod cs = [] ->
  evolves w w'.
Proof.
  intros Hh Hp Hq Hc Hf. split_and!; [by apply shrinks_pools|done|by exists cs|].
  intros l s Hl. exists s. by rewrite Hh.
Qed.

Lemma groupSession_subset now v s g b x :
  x ∈ bandList b (groupSession now v s g) -> x ∈ bandList b g \/ x = v.
Proof.
  unfold groupSession.
  repeat case_match; destruct b; simpl;
    rewrite ?elem_of_app, ?list_elem_of_singleton; tauto.
Qed.

(** The grouping loop always returns, and its lists hold sessions of the
    snapshot only. *)
Lemma groupSessionsLoop_total (E : Env) (vs : list loc) (g : SessionGroups)
    (w : World) :
  (forall v, v ∈ vs -> is_Some (heap w !! v)) ->
  exists g',
    groupSessionsLoop E vs g w = Some (g', setTicks (ticks w + length vs)%nat w)
    /\ forall b x, x ∈ bandList b g' -> x ∈ bandList b g \/ x ∈ vs.
Proof.
  revert g w. induction vs as [|v vs IH]; intros g w Hvs.
  - exists g. split; [|by left].
    simpl. unfold ret. rewrite Nat.add_0_r. by destruct w.
  - destruct (Hvs v) as [s Hs]; [by left|].
    simpl groupSessionsLoop.
    rewrite (bind_Some _ _ _ _ _ (load_Some _ _ _ Hs)).
    unfold timeNow at 1. unfold bind at 1.
    destruct (IH (groupSession (clock E (ticks w)) v s g)
                (setTicks (S (ticks w)) w)) as (g' & Hrun & Hsub).
    { intros v' Hv'. apply Hvs. by right. }
    exists g'. split.
    + rewrite Hrun. do 2 f_equal. unfold setTicks. simpl. f_equal. lia.
    + intros b x Hx. destruct (Hsub b x Hx) as [Hg | Hin]; [|by right; right].
      apply groupSession_subset in Hg as [Hg | ->]; [by left|by right; left].
Qed.

Lemma evolves_remove w w' key p p' cs :
  applicationPools w !! key = Some p ->
  applicationPools w' = <[key := p']> (applicationPools w) ->
  pool_sessions p' ⊆ pool_sessions p ->
  heap w' = heap w -> queue w' = queue w ->
  calls w' = calls w ++ cs -> List.filter isTerminatePod cs = [] ->
  evolves w w'.
Proof.
  intros Hp Hp' Hsub Hh Hq Hc Hf.
  split_and!; [by apply (shrinks_insert w w' key p p')|done|by exists cs|].
  intros l s Hl. exists s. by rewrite Hh.
Qed.

Lemma evolves_live w w' l :
  evolves w w' -> is_Some (heap w !! l) -> is_Some (heap w' !! l).
Proof.
  intros (_ & _ & _ & Hh) [s Hs]. destruct (Hh l s Hs) as (s' & Hs' & _).
  by exists s'.
Qed.

Section sync_phases.

Context (E : Env) (P : ApplicationSession -> Prop) (HP : preserved P).
Hypothesis HPbound : forall pod s, P (setStatus (boundStatus pod s) s).
Context (key : string).

Lemma poolOk_subseteq h p p' :
  pool_sessions p' ⊆ pool_sessions p -> poolOk P h p -> poolOk P h p'.
Proof using All.
  intros Hsub Hok uid v Hv. apply (Hok uid v).
  by apply (lookup_weaken _ _ _ _ Hv).
Qed.

Lemma changeSessionStatus_evolves v st w :
  poolInv P w -> is_Some (heap w !! v) ->
  runs (changeSessionStatus E v st) w
    (fun _ w' => poolInv P w' /\ evolves w w').
Proof using All.
  intros Hinv [s Hs]. eexists _, _.
  split; [apply (changeSessionStatus_run E w v s st Hs)|].
  split; [by apply (poolInv_ext P HP w)|].
  by apply (evolves_frame _ _ [UpdateSessionStatus s (changedStatus s st)]).
Qed.

Lemma closeApplicationSession_evolves l w :
  poolInv P w -> is_Some (heap w !! l) ->
  runs (closeApplicationSession E l) w
    (fun _ w' => poolInv P w' /\ evolves w w').
Proof using All.
  intros Hinv [s Hl]. unfold runs.
  rewrite (closeApplicationSession_run E w l s Hl).
  destruct (util.SessionIsOpen s);
    [|eexists _, _; split; [done|]; split; [done|apply evolves_refl]].
  destruct (PodReference (Status s)) as [ref|];
    [|eexists _, _; split; [done|]; split; [done|apply evolves_refl]].
  destruct (podManager_FindPod E w (v1.Name ref)) as [pod|].
  - eexists _, _. split; [done|]. split.
    + apply (poolInv_ext P HP (setHeap (<[l := setStatus
             (setSessionStatus SessionStatusClosing (Status s)) s]> (heap w)) w));
        [done..|].
      apply (poolInv_setHeap P HP); [done|]. intros p Hp.
      apply (poolOk_update P HP); [done|]. by apply HP.
    + split_and!; [by apply shrinks_pools|done| |].
      * eexists. split; [simpl; rewrite <- ?app_assoc; reflexivity|reflexivity].
      * intros l0 s0 Hl0. simpl.
        destruct (decide (l = l0)) as [<-|Hne].
        -- rewrite lookup_insert_eq. eexists. split; [done|].
           rewrite Hl in Hl0. by injection Hl0 as <-.
        -- rewrite lookup_insert_ne by done. eauto.
  - eexists _, _. split; [done|]. split; [by apply (poolInv_ext P HP w)|].
    apply (evolves_frame _ _
             [FindPod (v1.Name ref);
              UpdateSessionStatus s (changedStatus s SessionStatusClosed)]);
      try done.
    simpl. by rewrite <- app_assoc.
Qed.

Lemma deleteApplicationSession_evolves l w :
  poolInv P w -> is_Some (heap w !! l) ->
  runs (deleteApplicationSession E key l) w
    (fun _ w' => poolInv P w' /\ evolves w w').
Proof using All.
  intros Hinv [s Hl]. unfold runs, deleteApplicationSession.
  rewrite (bind_Some _ _ _ _ _ (load_Some _ _ _ Hl)).
  rewrite (bind_Some _ _ _ _ _ (getApplicationPool_run key w)).
  destruct (applicationPools w !! key) as [p|] eqn:Hpool; cbv iota;
    [|eexists _, _; split; [done|]; split; [done|apply evolves_refl]].
  destruct (util.SessionIsOpen s).
  { apply closeApplicationSession_evolves; [done|by exists s]. }
  assert (Hsub : pool_sessions (poolWithout s p) ⊆ pool_sessions p)
    by apply delete_subseteq.
  destruct (util.SessionIsPending s).
  - rewrite (bind_Some _ _ _ _ _ (changeSessionStatus_run E w l s _ Hl)).
    set (w0 := record _ w).
    destruct (sessionManager_UpdateSessionStatus E w s _) as [err|].
    + eexists _, _. split; [done|]. split; [by apply (poolInv_ext P HP w)|].
      by eapply evolves_frame.
    + assert (Hl0 : heap w0 !! l = Some s) by exact Hl.
      rewrite (bind_Some _ _ _ _ _ (load_Some _ _ _ Hl0)).
      rewrite <- bind_assoc.
      rewrite (bind_Some _ _ _ _ _ (removeSession_run w0 key p s Hpool)).
      eexists _, _. split; [reflexivity|]. split.
      * apply (poolInv_setPools P HP); [by apply (poolInv_ext P HP w)|].
        apply (poolOk_subseteq _ p); [done|]. by apply (Hinv key).
      * by eapply (evolves_remove w _ key p (poolWithout s p)).
  - rewrite bind_ret.
    rewrite (bind_Some _ _ _ _ _ (load_Some _ _ _ Hl)).
    rewrite <- bind_assoc.
    rewrite (bind_Some _ _ _ _ _ (removeSession_run w key p s Hpool)).
    eexists _, _. split; [reflexivity|]. split.
    + apply (poolInv_setPools P HP); [done|].
      apply (poolOk_subseteq _ p); [done|]. by apply (Hinv key).
    + eapply (evolves_remove w _ key p (poolWithout s p) []); try done.
      simpl. by rewrite app_nil_r.
Qed.

Lemma cleanupTimeoutSessions_evolves vs :
  forall errs w,
  poolInv P w -> (forall v, v ∈ vs -> is_Some (heap w !! v)) ->
  runs (cleanupTimeoutSessions E vs errs) w
    (fun _ w' => poolInv P w' /\ evolves w w').
Proof using All.
  induction vs as [|v vs IH]; intros errs w Hinv Hlive.
  - eexists _, _. split; [done|]. split; [done|apply evolves_refl].
  - destruct (changeSessionStatus_evolves v SessionStatusTimeout w Hinv)
      as (err & w1 & Hrun & Hinv1 & Hev1); [apply Hlive; by left|].
    simpl cleanupTimeoutSessions. unfold runs.
    rewrite (bind_Some _ _ _ _ _ Hrun).
    assert (Hlive1 : forall v', v' ∈ vs -> is_Some (heap w1 !! v')).
    { intros v' Hv'. apply (evolves_live w); [done|]. apply Hlive. by right. }
    destruct err as [err|].
    + destruct (IH (errs ++ [err]) w1 Hinv1 Hlive1) as (r & w2 & Hrun2 & Hinv2 & Hev2).
      exists r, w2. split; [done|]. split; [done|].
      by apply (evolves_trans w w1 w2).
    + destruct (IH errs w1 Hinv1 Hlive1) as (r & w2 & Hrun2 & Hinv2 & Hev2).
      exists r, w2. split; [done|]. split; [done|].
      by apply (evolves_trans w w1 w2).
Qed.

Lemma cleanupDeletingSessions_evolves vs :
  forall errs w,
  poolInv P w -> (forall v, v ∈ vs -> is_Some (heap w !! v)) ->
  runs (cleanupDeletingSessions E key vs errs) w
    (fun _ w' => poolInv P w' /\ evolves w w').
Proof using All.
  induction vs as [|v vs IH]; intros errs w Hinv Hlive.
  - eexists _, _. split; [done|]. split; [done|apply evolves_refl].
  - destruct (deleteApplicationSession_evolves v w Hinv)
      as (err & w1 & Hrun & Hinv1 & Hev1); [apply Hlive; by left|].
    simpl cleanupDeletingSessions. unfold runs.
    rewrite (bind_Some _ _ _ _ _ Hrun).
    assert (Hlive1 : forall v', v' ∈ vs -> is_Some (heap w1 !! v')).
    { intros v' Hv'. apply (evolves_live w); [done|]. apply Hlive. by right. }
    destruct err as [err|].
    + destruct (IH (errs ++ [err]) w1 Hinv1 Hlive1) as (r & w2 & Hrun2 & Hinv2 & Hev2).
      exists r, w2. split; [done|]. split; [done|].
      by apply (evolves_trans w w1 w2).
    + destruct (IH errs w1 Hinv1 Hlive1) as (r & w2 & Hrun2 & Hinv2 & Hev2).
      exists r, w2. split; [done|]. split; [done|].
      by apply (evolves_trans w w1 w2).
Qed.

Lemma bindPendingSessions_evolves pending pods w :
  poolInv P w -> is_Some (applicationPools w !! key) ->
  (forall l, l ∈ pending -> is_Some (heap w !! l)) ->
  runs (bindPendingSessions E key (Some key) pending pods 0%nat []) w
    (fun _ w' => poolInv P w' /\ evolves w w').
Proof using All.
  intros Hinv [p Hpool] Hlive.
  destruct (bindPendingSessions_total E P HP HPbound key pending pods 0%nat []
              w p Hpool Hinv Hlive)
    as (si & errs & w' & p' & cs & Hrun & _ & _ & Hp' & Hps & Hinv' & Hq
        & Hc & Hf & _ & Hh); [lia|].
  eexists _, _. split; [exact Hrun|]. split; [done|].
  split_and!; [|done|by exists cs|done].
  apply (shrinks_insert w w' key p p'); [done..|]. by rewrite Hps.
Qed.

Lemma syncApplicationSessions_evolves w :
  poolInv P w ->
  runs (syncApplicationSessions E key) w
    (fun _ w' => poolInv P w' /\ evolves w w').
Proof using All.
  intros Hinv. unfold runs, syncApplicationSessions.
  rewrite (bind_Some _ _ _ _ _ (getApplicationPool_run key w)).
  destruct (applicationPools w !! key) as [p|] eqn:Hpool; cbv iota;
    [|eexists _, _; split; [done|]; split; [done|apply evolves_refl]].
  assert (Hg : groupApplicationPods E key w
               = Some (idleRunningPodsOf E w key, w)) by done.
  rewrite (bind_Some _ _ _ _ _ Hg).
  set (vs := (map_to_list (pool_sessions p)).*2).
  assert (Hvs : forall v, v ∈ vs -> is_Some (heap w !! v)).
  { intros v Hv. apply list_elem_of_fmap in Hv as ([uid v'] & -> & Hin).
    apply elem_of_map_to_list in Hin.
    destruct (Hinv key p Hpool uid v' Hin) as (s & Hs & _). by exists s. }
  destruct (groupSessionsLoop_total E vs noSessions w Hvs) as (g & Hloop & Hsub).
  assert (Hgroup : groupSessionsByState E (Some key) w
                   = Some (g, setTicks (ticks w + length vs)%nat w)).
  { unfold groupSessionsByState, sessionList, derefPool, get.
    unfold bind at 1 2 3. simpl. rewrite Hpool. simpl. exact Hloop. }
  rewrite (bind_Some _ _ _ _ _ Hgroup).
  set (w1 := setTicks _ w).
  assert (Hinv1 : poolInv P w1) by (by apply (poolInv_ext P HP w)).
  assert (Hev1 : evolves w w1).
  { apply (evolves_frame w w1 []); try done. simpl. by rewrite app_nil_r. }
  assert (Hlive : forall b v, v ∈ bandList b g -> is_Some (heap w1 !! v)).
  { intros b v Hv. destruct (Hsub b v Hv) as [Hn | Hin]; [|by apply Hvs].
    destruct b; simpl in Hn; by apply elem_of_nil in Hn. }
  destruct (bindPendingSessions_evolves (pendingSessions g)
              (idleRunningPodsOf E w key) w1 Hinv1)
    as (r & w2 & Hrun2 & Hinv2 & Hev2);
    [by exists p|apply (Hlive BandPending)|].
  rewrite (bind_Some _ _ _ _ _ Hrun2).
  destruct (cleanupTimeoutSessions_evolves (timeoutSessions g) r.2 w2 Hinv2)
    as (errs3 & w3 & Hrun3 & Hinv3 & Hev3).
  { intros v Hv. apply (evolves_live w1); [done|]. by apply (Hlive BandTimeout). }
  rewrite (bind_Some _ _ _ _ _ Hrun3).
  destruct (cleanupDeletingSessions_evolves (deletingSessions g) errs3 w3 Hinv3)
    as (errs4 & w4 & Hrun4 & Hinv4 & Hev4).
  { intros v Hv. apply (evolves_live w2); [done|].
    apply (evolves_live w1); [done|]. by apply (Hlive BandDeleting). }
  rewrite (bind_Some _ _ _ _ _ Hrun4).
  assert (Hev : evolves w w4).
  { apply (evolves_trans w w1); [done|]. apply (evolves_trans w1 w2); [done|].
    by apply (evolves_trans w2 w3). }
  destruct (decide (0 < length errs4)%nat); by eexists _, _.
Qed.

End sync_phases.

Lemma notTerminal_bound pod s : notTerminal (setStatus (boundStatus pod s) s).
Proof.
  unfold notTerminal, util.SessionInTerminalState.
  change (Status (setStatus (boundStatus pod s) s)) with (boundStatus pod s).
  by destruct (boundStatus_fields pod s) as (-> & _).
Qed.

(** One sync of an application, from pools that hold live session objects
    none of which is Closed or Timeout: it always returns; afterwards the
    pools still hold no session that is Closed or Timeout; no pool has
    appeared and no pool has gained a session; nothing was enqueued; no pod
    was terminated; every session object is still there with the metadata
    and the spec it had. Without a pool for the key it returns nil and
    changes nothing. *)
Theorem syncApplicationSessions_keeps_pools (E : Env) (key : string)
    (w : World) :
  poolInv notTerminal w ->
  (exists err w',
     syncApplicationSessions E key w = Some (err, w')
     /\ poolInv notTerminal w'
     /\ (forall k p', applicationPools w' !! k = Some p' ->
           exists p, applicationPools w !! k = Some p
                     /\ pool_sessions p' ⊆ pool_sessions p)
     /\ queue w' = queue w
     /\ (exists cs, calls w' = calls w ++ cs
                    /\ List.filter isTerminatePod cs = [])
     /\ (forall l s, heap w !! l = Some s ->
           exists s', heap w' !! l = Some s' /\ Spec s' = Spec s
                      /\ ObjectMeta s' = ObjectMeta s))
  /\ (applicationPools w !! key = None ->
      syncApplicationSessions E key w = Some (None, w)).
Proof.
  intros Hinv. split.
  - destruct (syncApplicationSessions_evolves E notTerminal
                preserved_notTerminal notTerminal_bound key w Hinv)
      as (err & w' & Hrun & Hinv' & Hshr & Hq & Hc & Hh).
    by exists err, w'.
  - intros Hpool. unfold syncApplicationSessions.
    rewrite (bind_Some _ _ _ _ _ (getApplicationPool_run key w)).
    by rewrite Hpool.
Qed.

Lemma summarySessions_counts_witness :
  let s := sample.session "u1" "a/x" false SessionStatusClosing (Some "P1") None in
  let w := sample.world [s] {["a/x" := sample.pool [("u1", 0%nat)] []]} in
  exists c,
    summarySessions (Some "a/x") w = Some (c, w)
    /\ pendingCount c = 1 /\ deletingCount c = 0.
Proof.
  intros s w.
  destruct (summarySessions_counts w "a/x" (sample.pool [("u1", 0%nat)] []) [s])
    as (c & Hrun & Hp & _ & _ & _ & _ & _ & Hd & _).
  - reflexivity.
  - unfold objectsAt.
    replace ((map_to_list (pool_sessions (sample.pool [("u1", 0%nat)] []))).*2)
      with [0%nat] by (vm_compute; reflexivity).
    constructor; [reflexivity|constructor].
  - vm_compute. reflexivity.
  - exists c. split; [exact Hrun|]. split; [exact Hp|exact Hd].
Defined.

Lemma getTotalAndPendingSessionNum_counts_witness :
  let s := sample.session "u1" "a/x" false SessionStatusClosing (Some "P1") None in
  let w := sample.world [s] {["a/x" := sample.pool [("u1", 0%nat)] []]} in
  exists total pending,
    getTotalAndPendingSessionNum "a/x" w = Some ((total, pending), w)
    /\ total = 1 /\ pending = 1.
Proof.
  intros s w.
  destruct (getTotalAndPendingSessionNum_counts w "a/x") as [_ H].
  destruct (H (sample.pool [("u1", 0%nat)] []) [s])
    as (total & pending & Hrun & Ht & Hp & _).
  - reflexivity.
  - unfold objectsAt.
    replace ((map_to_list (pool_sessions (sample.pool [("u1", 0%nat)] []))).*2)
      with [0%nat] by (vm_compute; reflexivity).
    constructor; [reflexivity|constructor].
  - vm_compute. reflexivity.
  - exists total, pending. split; [exact Hrun|]. split; [exact Ht|exact Hp].
Defined.

Lemma deleteApplicationSession_cases_witness :
  let s := sample.session "u1" "a/x" false SessionStatusPending None (Some 1) in
  let w := sample.world [s] {["a/x" := sample.pool [("u1", 0%nat)] []]} in
  exists w' p',
    deleteApplicationSession (sample.env [] sample.noFailure) "a/x" 0%nat w
      = Some (None, w')
    /\ applicationPools w' !! "a/x" = Some p'
    /\ pool_sessions p' !! "u1" = None
    /\ heap w' !! 0%nat = Some s.
Proof.
  intros s w.
  destruct (deleteApplicationSession_cases (sample.env [] sample.noFailure)
              w "a/x" 0%nat s eq_refl) as (_ & _ & _ & H).
  destruct (H (sample.pool [("u1", 0%nat)] []) eq_refl eq_refl (fun _ => eq_refl))
    as (w' & Hrun & Hh & (p' & Hp' & Hs' & _) & _).
  exists w', p'. split; [exact Hrun|]. split_and!.
  - rewrite Hp'. apply lookup_insert_eq.
  - rewrite Hs'. apply lookup_delete_eq.
  - rewrite Hh. reflexivity.
Defined.

Lemma cleanupTimeoutSessions_persists_witness :
  let s := sample.session "u1" "a/x" false SessionStatusPending None None in
  let w := sample.world [s] {["a/x" := sample.pool [("u1", 0%nat)] []]} in
  exists errs' w',
    cleanupTimeoutSessions (sample.env [] sample.noFailure) [0%nat] [] w
      = Some (errs', w')
    /\ heap w' = heap w
    /\ applicationPools w' = applicationPools w
    /\ calls w'
       = [UpdateSessionStatus s
            (setClientSessions []
               (setSessionStatus SessionStatusTimeout (Status s)))].
Proof.
  intros s w.
  destruct (cleanupTimeoutSessions_persists (sample.env [] sample.noFailure)
              [0%nat] [s] [] w)
    as (errs' & w' & Hrun & Hh & Hp & _ & Hc & _).
  - constructor; [reflexivity|constructor].
  - exists errs', w'. split; [exact Hrun|]. split; [exact Hh|].
    split; [exact Hp|exact Hc].
Defined.

Lemma bindPendingSessions_bounds_witness :
  let s := sample.session "u1" "a/x" false SessionStatusPending None None in
  let pod1 := sample.pod "P1" [8080] in
  let E := sample.env [pod1] sample.noFailure in
  let pool := sample.pool [("u1", 0%nat)] [NewApplicationPod "P1"] in
  let w := sample.world [s] {["a/x" := pool]} in
  exists si errs w',
    bindPendingSessions E "a/x" (Some "a/x") [0%nat] ["P1"%string] 0%nat [] w
    = Some ((si, errs), w')
    /\ (si + length errs <= 1)%nat
    /\ queue w' = [].
Proof.
  intros s pod1 E pool w.
  destruct (bindPendingSessions_bounds E "a/x" [0%nat] ["P1"%string] w pool)
    as (si & errs & w' & p' & cs & Hrun & _ & Hlen & _ & _ & Hq & _).
  - reflexivity.
  - by apply (sample_poolInv anySession [s] "a/x" "u1" 0%nat
                [NewApplicationPod "P1"] s).
  - intros l Hl. apply list_elem_of_singleton in Hl as ->. by exists s.
  - exists si, errs, w'. split; [exact Hrun|]. split; [exact Hlen|exact Hq].
Defined.

Lemma syncApplicationSessions_keeps_pools_witness :
  let s := sample.session "u1" "a/x" false SessionStatusPending None None in
  let pod1 := sample.pod "P1" [8080] in
  let E := sample.env [pod1] sample.noFailure in
  let pool := sample.pool [("u1", 0%nat)] [NewApplicationPod "P1"] in
  let w := sample.world [s] {["a/x" := pool]} in
  exists err w',
    syncApplicationSessions E "a/x" w = Some (err, w')
    /\ poolInv notTerminal w'
    /\ queue w' = [].
Proof.
  intros s pod1 E pool w.
  destruct (syncApplicationSessions_keeps_pools E "a/x" w)
    as [(err & w' & Hrun & Hinv & _ & Hq & _) _].
  - by apply (sample_poolInv notTerminal [s] "a/x" "u1" 0%nat
                [NewApplicationPod "P1"] s).
  - exists err, w'. split; [exact Hrun|]. split; [exact Hinv|exact Hq].
Defined.

(** ** sessionHouseKeeping *)

Lemma reportsOnly_refl ok w : reportsOnly ok w w.
Proof. split_and!; try done. exists []. by rewrite app_nil_r. Qed.

Lemma reportsOnly_trans ok w1 w2 w3 :
  reportsOnly ok w1 w2 -> reportsOnly ok w2 w3 -> reportsOnly ok w1 w3.
Proof.
  intros (Hh & Hp & Hq & Hg & cs & Hc & Hok) (Hh' & Hp' & Hq' & Hg' & cs' & Hc' & Hok').
  split_and!; try congruence.
  exists (cs ++ cs'). split; [by rewrite Hc', Hc, app_assoc|].
  by rewrite forallb_app, Hok, Hok'.
Qed.

Lemma groupSession_timeout now v s g x :
  x ∈ timeoutSessions (groupSession now v s g) ->
  x ∈ timeoutSessions g
  \/ (x = v /\ liveWith [SessionStatusUnspecified; SessionStatusPending;
                         SessionStatusStarting] s = true).
Proof.
  unfold groupSession. intros H.
  assert (Hlive : DeletionTimestamp s = None ->
            (util.SessionIsPending s = true
             \/ sessionStatus (Status s) = SessionStatusStarting) ->
            liveWith [SessionStatusUnspecified; SessionStatusPending;
                      SessionStatusStarting] s = true).
  { intros Hd Hst. unfold liveWith, isDeleting.
    rewrite bool_decide_false by (by rewrite Hd; intros []).
    apply bool_decide_true. unfold util.SessionIsPending in Hst.
    destruct (sessionStatus (Status s)); rewrite !elem_of_cons;
      intuition congruence. }
  repeat case_decide; repeat case_match; simpl in H; try (by left).
  all: apply elem_of_app in H as [H | H%list_elem_of_singleton]; [by left|].
  all: right; split; [done|]; apply Hlive; [|tauto].
  all: by destruct (DeletionTimestamp s); [exfalso; auto|].
Qed.

Lemma groupSessionsLoop_timeouts (E : Env) (vs : list loc) (g : SessionGroups)
    (w : World) :
  (forall v, v ∈ vs -> is_Some (heap w !! v)) ->
  exists g',
    groupSessionsLoop E vs g w = Some (g', setTicks (ticks w + length vs)%nat w)
    /\ forall x, x ∈ timeoutSessions g' ->
         x ∈ timeoutSessions g
         \/ exists s, heap w !! x = Some s
                      /\ liveWith [SessionStatusUnspecified; SessionStatusPending;
                                   SessionStatusStarting] s = true.
Proof.
  revert g w. induction vs as [|v vs IH]; intros g w Hvs.
  - exists g. split; [|by left].
    simpl. unfold ret. rewrite Nat.add_0_r. by destruct w.
  - destruct (Hvs v) as [s Hs]; [by left|].
    simpl groupSessionsLoop.
    rewrite (bind_Some _ _ _ _ _ (load_Some _ _ _ Hs)).
    unfold timeNow at 1. unfold bind at 1.
    destruct (IH (groupSession (clock E (ticks w)) v s g)
                (setTicks (S (ticks w)) w)) as (g' & Hrun & Hsub).
    { intros v' Hv'. apply Hvs. by right. }
    exists g'. split.
    + rewrite Hrun. do 2 f_equal. unfold setTicks. simpl. f_equal. lia.
    + intros x Hx. destruct (Hsub x Hx) as [Hg | Hin]; [|by right].
      apply groupSession_timeout in Hg as [Hg | [-> Hlive]]; [by left|].
      right. by exists s.
Qed.

Lemma houseKeepSessions_run (E : Env) (vs : list loc) :
  forall w,
  (forall v, v ∈ vs ->
     exists s, heap w !! v = Some s
               /\ liveWith [SessionStatusUnspecified; SessionStatusPending;
                            SessionStatusStarting] s = true) ->
  exists w',
    houseKeepSessions E vs w = Some (tt, w')
    /\ ticks w' = ticks w
    /\ reportsOnly isHouseKeepingCall w w'.
Proof.
  induction vs as [|v vs IH]; intros w Hvs.
  - exists w. split; [done|]. split; [done|apply reportsOnly_refl].
  - destruct (Hvs v) as (s & Hs & Hlive); [by left|].
    simpl houseKeepSessions.
    rewrite (bind_Some _ _ _ _ _ (changeSessionStatus_run E w v s _ Hs)).
    set (w1 := record _ w).
    destruct (IH w1) as (w' & Hrun & Ht & Hrep).
    { intros v' Hv'. apply Hvs. by right. }
    exists w'. split; [done|]. split; [done|].
    apply (reportsOnly_trans _ w w1 w'); [|done].
    split_and!; try done. eexists [_]. split; [done|].
    simpl. rewrite Hlive. rewrite bool_decide_true; [done|].
    unfold changedStatus. rewrite decide_True; [done|by right].
Qed.

Lemma houseKeepPools_run (E : Env) (keys : list string) :
  forall w,
  poolInv anySession w ->
  (forall key, key ∈ keys -> is_Some (applicationPools w !! key)) ->
  exists w',
    houseKeepPools E (Some <$> keys) w = Some (tt, w')
    /\ reportsOnly isHouseKeepingCall w w'.
Proof.
  induction keys as [|key keys IH]; intros w Hinv Hkeys.
  - exists w. split; [done|apply reportsOnly_refl].
  - destruct (Hkeys key) as [p Hpool]; [by left|].
    set (vs := (map_to_list (pool_sessions p)).*2).
    assert (Hvs : forall v, v ∈ vs -> is_Some (heap w !! v)).
    { intros v Hv. apply list_elem_of_fmap in Hv as ([uid v'] & -> & Hin).
      apply elem_of_map_to_list in Hin.
      destruct (Hinv key p Hpool uid v' Hin) as (s & Hs & _). by exists s. }
    destruct (groupSessionsLoop_timeouts E vs noSessions w Hvs)
      as (g & Hloop & Hsub).
    assert (Hgroup : groupSessionsByState E (Some key) w
                     = Some (g, setTicks (ticks w + length vs)%nat w)).
    { unfold groupSessionsByState, sessionList, derefPool, get.
      unfold bind at 1 2 3. simpl. rewrite Hpool. simpl. exact Hloop. }
    simpl fmap. simpl houseKeepPools.
    rewrite (bind_Some _ _ _ _ _ Hgroup).
    set (w1 := setTicks _ w).
    destruct (houseKeepSessions_run E (timeoutSessions g) w1)
      as (w2 & Hrun2 & _ & Hrep2).
    { intros v Hv. destruct (Hsub v Hv) as [Hn | H]; [|done].
      by apply elem_of_nil in Hn. }
    rewrite (bind_Some _ _ _ _ _ Hrun2).
    destruct Hrep2 as (Hh2 & Hp2 & Hq2 & Hg2 & cs2 & Hc2 & Hok2).
    destruct (IH w2) as (w' & Hrun & Hrep).
    { intros k q Hq. rewrite Hh2. apply (Hinv k). by rewrite Hp2 in Hq. }
    { intros k Hk. rewrite Hp2. apply Hkeys. by right. }
    exists w'. split; [done|].
    apply (reportsOnly_trans _ w w2 w'); [|done].
    split_and!; try done. by exists cs2.
Qed.

(** [sessionHouseKeeping], from pools that hold live session objects:
    it always returns nil. All it does is report the status Timeout, with
    the client sessions emptied, for sessions that have no deletion
    timestamp and are Unspecified, Pending or Starting; it changes no
    session object, takes no session out of a pool, enqueues nothing and
    starts no goroutine. *)
Theorem sessionHouseKeeping_reports_only (E : Env) (w : World) :
  poolInv anySession w ->
  exists w' cs,
    sessionHouseKeeping E w = Some (None, w')
    /\ heap w' = heap w
    /\ applicationPools w' = applicationPools w
    /\ queue w' = queue w
    /\ goroutines w' = goroutines w
    /\ calls w' = calls w ++ cs
    /\ forallb isHouseKeepingCall cs = true.
Proof.
  intros Hinv. unfold sessionHouseKeeping, applicationList.
  unfold bind at 1 2. unfold get, ret at 1.
  destruct (houseKeepPools_run E (map_to_list (applicationPools w)).*1 w Hinv)
    as (w' & Hrun & Hh & Hp & Hq & Hg & cs & Hc & Hok).
  { intros key Hkey. apply list_elem_of_fmap in Hkey as ([k p] & -> & Hin).
    apply elem_of_map_to_list in Hin. by exists p. }
  exists w', cs. rewrite (bind_Some _ _ _ _ _ Hrun). by split_and!.
Qed.

Lemma sessionHouseKeeping_reports_only_witness :
  let s := sample.session "u1" "a/x" false SessionStatusPending None None in
  let w := sample.world [s] {["a/x" := sample.pool [("u1", 0%nat)] []]} in
  exists w',
    sessionHouseKeeping (sample.env [] sample.noFailure) w = Some (None, w')
    /\ heap w' = heap w
    /\ applicationPools w' = applicationPools w.
Proof.
  intros s w.
  destruct (sessionHouseKeeping_reports_only (sample.env [] sample.noFailure) w)
    as (w' & cs & Hrun & Hh & Hp & _).
  - by apply (sample_poolInv anySession [s] "a/x" "u1" 0%nat [] s).
  - exists w'. split; [exact Hrun|]. split; [exact Hh|exact Hp].
Defined.

(** ** cleanupSessionOnDeletedPod *)

Lemma deletePodSessions_run (key podName : string) (vs : list loc) :
  forall (acc : list loc) (w : World) (p : ApplicationPool),
  applicationPools w !! key = Some p ->
  (forall v, v ∈ vs -> is_Some (heap w !! v)) ->
  exists w' p',
    deletePodSessions (Some key) podName vs acc w
    = Some (acc ++ List.filter (refersAt w podName) vs, w')
    /\ heap w' = heap w /\ calls w' = calls w /\ queue w' = queue w
    /\ goroutines w' = goroutines w
    /\ applicationPools w' = <[key := p']> (applicationPools w)
    /\ pool_pods p' = pool_pods p
    /\ pool_sessions p' ⊆ pool_sessions p
    /\ (forall uid,
          (forall v s, v ∈ vs -> heap w !! v = Some s ->
             refersToPod podName s = true -> GetUID s <> uid) ->
          pool_sessions p' !! uid = pool_sessions p !! uid)
    /\ (forall v s, v ∈ vs -> heap w !! v = Some s ->
          refersToPod podName s = true ->
          pool_sessions p' !! GetUID s = None).
Proof.
  induction vs as [|v vs IH]; intros acc w p Hpool Hvs.
  - exists w, p. simpl. rewrite app_nil_r, insert_id by done.
    split_and!; try done.
    intros v s Hv. by apply elem_of_nil in Hv.
  - destruct (Hvs v) as [s Hs]; [by left|].
    simpl deletePodSessions.
    rewrite (bind_Some _ _ _ _ _ (load_Some _ _ _ Hs)).
    simpl List.filter. unfold refersAt at 1. rewrite Hs.
    destruct (refersToPod podName s) eqn:Href.
    + rewrite (bind_Some _ _ _ _ _ (deleteSession_run w key p Hpool (GetUID s))).
      set (p1 := {| pool_sessions := delete (GetUID s) (pool_sessions p);
                    pool_pods := pool_pods p |}).
      set (w1 := setPools _ w).
      destruct (IH (acc ++ [v]) w1 p1) as
        (w' & p' & Hrun & Hh & Hc & Hq & Hg & Hp' & Hpods & Hsub & Hkeep & Hgone).
      { apply lookup_insert_eq. }
      { intros v' Hv'. apply Hvs. by right. }
      exists w', p'. split.
      { rewrite Hrun. by rewrite <- app_assoc. }
      split_and!; try done.
      * rewrite Hp'. simpl. by rewrite insert_insert_eq.
      * etrans; [exact Hsub|]. apply delete_subseteq.
      * intros uid Hne. rewrite Hkeep.
        -- simpl. apply lookup_delete_ne. apply (Hne v s); [by left|done..].
        -- intros v' s' Hv'. apply Hne. by right.
      * intros v' s' Hv' Hs' Href'.
        apply elem_of_cons in Hv' as [-> | Hv'].
        -- rewrite Hs in Hs'. injection Hs' as <-.
           apply (lookup_weaken_None _ _ _ (lookup_delete_eq _ _) Hsub).
        -- by apply (Hgone v' s').
    + destruct (IH acc w p Hpool) as
        (w' & p' & Hrun & Hh & Hc & Hq & Hg & Hp' & Hpods & Hsub & Hkeep & Hgone).
      { intros v' Hv'. apply Hvs. by right. }
      exists w', p'. split; [done|]. split_and!; try done.
      * intros uid Hne. apply Hkeep. intros v' s' Hv'. apply Hne. by right.
      * intros v' s' Hv' Hs' Href'.
        apply elem_of_cons in Hv' as [-> | Hv'].
        -- rewrite Hs in Hs'. injection Hs' as <-. congruence.
        -- by apply (Hgone v' s').
Qed.

(** [cleanupSessionOnDeletedPod], on a pool whose sessions are live objects
    filed under their own uid: it returns nil; afterwards the pool holds
    exactly the sessions that do not refer to the pod; the sessions handed
    to the goroutine are those that refer to it, in the order of the
    session list. The session objects, the pods of the pool, the queue and
    the calls are as before: the pod itself stays in the pool. On a nil
    pool it panics. *)
Theorem cleanupSessionOnDeletedPod_removes (w : World) (key podName : string)
    (p : ApplicationPool) :
  applicationPools w !! key = Some p ->
  (forall uid v, pool_sessions p !! uid = Some v ->
     exists s, heap w !! v = Some s /\ GetUID s = uid) ->
  (exists w' p',
     cleanupSessionOnDeletedPod (Some key) podName w
     = Some ((None,
              List.filter (refersAt w podName)
                (map_to_list (pool_sessions p)).*2), w')
     /\ heap w' = heap w /\ calls w' = calls w /\ queue w' = queue w
     /\ goroutines w' = goroutines w
     /\ applicationPools w' = <[key := p']> (applicationPools w)
     /\ pool_pods p' = pool_pods p
     /\ forall uid,
          pool_sessions p' !! uid
          = match pool_sessions p !! uid with
            | Some v => if refersAt w podName v then None else Some v
            | None => None
            end)
  /\ cleanupSessionOnDeletedPod None podName w = None.
Proof.
  intros Hpool Hkeyed. split; [|done].
  set (vs := (map_to_list (pool_sessions p)).*2).
  assert (Hin : forall v, v ∈ vs <-> exists uid, pool_sessions p !! uid = Some v).
  { intros v. unfold vs. rewrite list_elem_of_fmap. split.
    - intros ([uid v'] & -> & H). exists uid. by apply elem_of_map_to_list.
    - intros (uid & H). exists (uid, v). split; [done|].
      by apply elem_of_map_to_list. }
  destruct (deletePodSessions_run key podName vs [] w p Hpool)
    as (w' & p' & Hrun & Hh & Hc & Hq & Hg & Hp' & Hpods & Hsub & Hkeep & Hgone).
  { intros v Hv. apply Hin in Hv as (uid & Hv).
    destruct (Hkeyed uid v Hv) as (s & Hs & _). by exists s. }
  exists w', p'. split.
  { unfold cleanupSessionOnDeletedPod, sessionList.
    rewrite bind_assoc.
    rewrite (bind_Some _ _ _ _ _ (derefPool_run w key p Hpool)).
    rewrite bind_ret. fold vs. by rewrite (bind_Some _ _ _ _ _ Hrun). }
  split_and!; try done.
  intros uid. destruct (pool_sessions p !! uid) as [v|] eqn:Hv.
  - destruct (Hkeyed uid v Hv) as (s & Hs & Huid).
    unfold refersAt. rewrite Hs.
    destruct (refersToPod podName s) eqn:Href.
    + rewrite <- Huid. apply (Hgone v s); [|done..]. apply Hin. by exists uid.
    + rewrite Hkeep; [done|].
      intros v' s' Hv' Hs' Href' Heq. apply Hin in Hv' as (uid' & Hv').
      destruct (Hkeyed uid' v' Hv') as (s'' & Hs'' & Huid').
      assert (s'' = s') by congruence. subst s''.
      assert (uid' = uid) by congruence. subst uid'.
      assert (v' = v) by congruence. subst v'.
      congruence.
  - by apply (lookup_weaken_None _ _ _ Hv Hsub).
Qed.

Lemma cleanupSessionOnDeletedPod_removes_witness :
  let s := sample.session "u1" "a/x" false SessionStatusAvailable (Some "P1") None in
  let pool := sample.pool [("u1", 0%nat)] [NewApplicationPod "P1"] in
  let w := sample.world [s] {["a/x" := pool]} in
  exists w' p',
    cleanupSessionOnDeletedPod (Some "a/x") "P1" w = Some ((None, [0%nat]), w')
    /\ applicationPools w' !! "a/x" = Some p'
    /\ pool_sessions p' !! "u1" = None
    /\ pool_pods p' = pool_pods pool.
Proof.
  intros s pool w.
  destruct (cleanupSessionOnDeletedPod_removes w "a/x" "P1" pool)
    as [(w' & p' & Hrun & _ & _ & _ & _ & Hp' & Hpods & Hs') _].
  - reflexivity.
  - intros uid v Hv. exists s. simpl in Hv.
    apply lookup_insert_Some in Hv as [[<- <-] | [_ Hv]];
      [done|by rewrite lookup_empty in Hv].
  - exists w', p'. split; [exact Hrun|]. split_and!.
    + rewrite Hp'. apply lookup_insert_eq.
    + rewrite Hs'. reflexivity.
    + exact Hpods.
Defined.

(** ** The goroutine of cleanupSessionOnDeletedPod *)

Lemma changedStatus_terminal s st :
  st = SessionStatusClosed \/ st = SessionStatusTimeout ->
  changedStatus s st = setClientSessions [] (setSessionStatus st (Status s)).
Proof. intros H. unfold changedStatus. by rewrite decide_True. Qed.

(** The goroutine that [cleanupSessionOnDeletedPod] starts walks the
    sessions in order and reports Closed for an open session, Timeout for a
    pending one and nothing for any other, each time with the client
    sessions emptied; a failed report is dropped. It changes no session
    object, no pool and not the queue. *)
Theorem updateDeadSessions_reports (E : Env) (vs : list loc)
    (ss : list ApplicationSession) (w : World) :
  objectsAt w vs ss ->
  exists w',
    updateDeadSessions E vs w = Some (tt, w')
    /\ heap w' = heap w
    /\ applicationPools w' = applicationPools w
    /\ queue w' = queue w
    /\ calls w' = calls w ++ concat (deadSessionCalls <$> ss).
Proof.
  revert vs w. induction ss as [|s ss IH]; intros vs w Hobj.
  - apply Forall2_nil_inv_r in Hobj as ->.
    exists w. simpl. rewrite app_nil_r. by split_and!.
  - apply Forall2_cons_inv_r in Hobj as (v & vs' & Hv & Hobj & ->).
    simpl updateDeadSessions.
    rewrite (bind_Some _ _ _ _ _ (load_Some _ _ _ Hv)).
    assert (Hstep : exists w1,
      (if util.SessionIsOpen s
       then changeSessionStatus E v SessionStatusClosed >> ret tt
       else if util.SessionIsPending s
       then changeSessionStatus E v SessionStatusTimeout >> ret tt
       else ret tt) w = Some (tt, w1)
      /\ heap w1 = heap w /\ applicationPools w1 = applicationPools w
      /\ queue w1 = queue w
      /\ calls w1 = calls w ++ deadSessionCalls s).
    { unfold deadSessionCalls.
      destruct (util.SessionIsOpen s); [|destruct (util.SessionIsPending s)].
      - rewrite (bind_Some _ _ _ _ _ (changeSessionStatus_run E w v s _ Hv)).
        eexists. split; [reflexivity|].
        split_and!;
          first [done|simpl; by rewrite changedStatus_terminal by tauto].
      - rewrite (bind_Some _ _ _ _ _ (changeSessionStatus_run E w v s _ Hv)).
        eexists. split; [reflexivity|].
        split_and!;
          first [done|simpl; by rewrite changedStatus_terminal by tauto].
      - exists w. split; [done|]. split_and!; try done. by rewrite app_nil_r. }
    destruct Hstep as (w1 & Hrun1 & Hh1 & Hp1 & Hq1 & Hc1).
    rewrite (bind_Some _ _ _ _ _ Hrun1).
    destruct (IH vs' w1) as (w' & Hrun & Hh & Hp & Hq & Hc).
    { unfold objectsAt. by rewrite Hh1. }
    exists w'. split; [done|]. split_and!; try congruence.
    rewrite Hc, Hc1. simpl. by rewrite app_assoc.
Qed.

Lemma updateDeadSessions_reports_witness :
  let s := sample.session "u1" "a/x" false SessionStatusAvailable (Some "P1") None in
  let w := sample.world [s] {["a/x" := sample.pool [] []]} in
  exists w',
    updateDeadSessions (sample.env [] sample.noFailure) [0%nat] w = Some (tt, w')
    /\ heap w' = heap w
    /\ calls w'
       = [UpdateSessionStatus s
            (setClientSessions []
               (setSessionStatus SessionStatusClosed (Status s)))].
Proof.
  intros s w.
  destruct (updateDeadSessions_reports (sample.env [] sample.noFailure)
              [0%nat] [s] w) as (w' & Hrun & Hh & _ & _ & Hc).
  - constructor; [reflexivity|constructor].
  - exists w'. split; [exact Hrun|]. split; [exact Hh|exact Hc].
Defined.

(** ** updateSessionPool: the upsert branch *)

Lemma updateSessionPool_upsert_run (E : Env) (key : string) (l : loc)
    (s : ApplicationSession) (w : World) :
  heap w !! l = Some s ->
  util.SessionInTerminalState s = false ->
  exists w' p',
    updateSessionPool E key l false w = Some (tt, w')
    /\ heap w' = heap w
    /\ applicationPools w' = <[key := p']> (applicationPools w)
    /\ pool_sessions p'
       = <[GetUID s := l]>
           (pool_sessions (default emptyPool (applicationPools w !! key)))
    /\ match PodReference (Status s) with
       | None =>
           pool_pods p'
           = pool_pods (default emptyPool (applicationPools w !! key))
       | Some ref =>
           pool_pods p'
           = <[v1.Name ref :=
                 {| podName :=
                      podName (default (NewApplicationPod (v1.Name ref))
                                 (pool_pods (default emptyPool
                                    (applicationPools w !! key))
                                  !! v1.Name ref));
                    sessions :=
                      sessions (default (NewApplicationPod (v1.Name ref))
                                  (pool_pods (default emptyPool
                                     (applicationPools w !! key))
                                   !! v1.Name ref))
                      ∪ {[GetUID s]} |}]>
               (pool_pods (default emptyPool (applicationPools w !! key)))
       end.
Proof.
  intros Hl Hnt. unfold updateSessionPool.
  rewrite (bind_Some _ _ _ _ _ (load_Some _ _ _ Hl)).
  rewrite (bind_Some _ _ _ _ _ (getOrCreateApplicationPool_run key w)).
  rewrite Hnt. cbn [negb]. cbv iota.
  set (p0 := default emptyPool (applicationPools w !! key)).
  set (w1 := match applicationPools w !! key with
             | Some _ => w
             | None => setPools (<[key := emptyPool]> (applicationPools w)) w
             end).
  assert (Hp0 : applicationPools w1 !! key = Some p0).
  { unfold w1, p0. destruct (applicationPools w !! key) eqn:Hk; [done|].
    apply lookup_insert_eq. }
  assert (Hh1 : heap w1 = heap w).
  { unfold w1. by destruct (applicationPools w !! key). }
  assert (Hp1 : forall q, <[key := q]> (applicationPools w1)
                          = <[key := q]> (applicationPools w)).
  { intros q. unfold w1. destruct (applicationPools w !! key); [done|].
    simpl. by rewrite insert_insert_eq. }
  destruct (PodReference (Status s)) as [ref|]; cbv iota.
  - rewrite bind_assoc.
    rewrite (bind_Some _ _ _ _ _ (addPod_run w1 key p0 Hp0 (v1.Name ref) _)).
    unfold podSessionsAdd.
    destruct (pool_pods p0 !! v1.Name ref) as [pod0|] eqn:Hpod; cbv iota.
    + rewrite (bind_Some _ _ _ _ _
        (setPodSessions_run w1 key p0 Hp0 (v1.Name ref) pod0 _ Hpod)).
      run_addSession.
      eexists _, _. split; [reflexivity|]. simpl.
      split; [done|]. split; [by rewrite insert_insert_eq, Hp1|]. done.
    + run_setPodSessions. run_addSession.
      eexists _, _. split; [reflexivity|]. simpl.
      split; [done|].
      split; [by rewrite !insert_insert_eq, Hp1|].
      done.
  - rewrite bind_ret. rewrite (addSession_run w1 key p0 Hp0).
    eexists _, _. split; [reflexivity|]. simpl.
    split; [done|]. split; [by rewrite Hp1|]. done.
Qed.

(** [updateSessionPool] with [deleted] false, on a session that is not in a
    terminal state: it always returns, creating the pool if there is none,
    and touches no other pool. Afterwards the pool files the session object
    under its uid, a deletion timestamp notwithstanding, and every other
    uid is filed as before. If the session refers to a pod, that pod is in
    the pool and its session set is the one it had, or none if the pod was
    missing, with the uid added; every other pod of the pool is as before.
    No session object is changed. *)
Theorem updateSessionPool_upsert (E : Env) (key : string) (l : loc)
    (s : ApplicationSession) (w : World) :
  heap w !! l = Some s ->
  util.SessionInTerminalState s = false ->
  exists w' p',
    updateSessionPool E key l false w = Some (tt, w')
    /\ heap w' = heap w
    /\ applicationPools w' !! key = Some p'
    /\ (forall k, k <> key ->
          applicationPools w' !! k = applicationPools w !! k)
    /\ pool_sessions p' !! GetUID s = Some l
    /\ (forall uid, uid <> GetUID s ->
          pool_sessions p' !! uid
          = pool_sessions (default emptyPool (applicationPools w !! key))
            !! uid)
    /\ (forall ref,
          PodReference (Status s) = Some ref ->
          exists pod,
            pool_pods p' !! v1.Name ref = Some pod
            /\ sessions pod
               = sessions (default (NewApplicationPod (v1.Name ref))
                             (pool_pods (default emptyPool
                                (applicationPools w !! key))
                              !! v1.Name ref))
                 ∪ {[GetUID s]})
    /\ (forall name,
          PodReference (Status s) <> Some {| v1.Name := name |} ->
          pool_pods p' !! name
          = pool_pods (default emptyPool (applicationPools w !! key))
            !! name).
Proof.
  intros Hl Hnt.
  destruct (updateSessionPool_upsert_run E key l s w Hl Hnt)
    as (w' & p' & Hrun & Hh & Hp' & Hs' & Hpods).
  exists w', p'. split; [done|]. split; [done|]. split_and!.
  - rewrite Hp'. apply lookup_insert_eq.
  - intros k Hk. rewrite Hp'. by apply lookup_insert_ne.
  - rewrite Hs'. apply lookup_insert_eq.
  - intros uid Huid. rewrite Hs'. by apply lookup_insert_ne.
  - intros ref Href. rewrite Href in Hpods. rewrite Hpods.
    eexists. split; [apply lookup_insert_eq|done].
  - intros name Hname. destruct (PodReference (Status s)) as [[n]|].
    + simpl in Hpods. rewrite Hpods. apply lookup_insert_ne.
      intros Heq. apply Hname. by rewrite Heq.
    + by rewrite Hpods.
Qed.

Lemma updateSessionPool_upsert_witness :
  let s := sample.session "u1" "a/x" false SessionStatusAvailable (Some "P1") None in
  let w := sample.world [s] ∅ in
  exists w' p' pod,
    updateSessionPool (sample.env [] sample.noFailure) "a/x" 0%nat false w
      = Some (tt, w')
    /\ applicationPools w' !! "a/x" = Some p'
    /\ pool_sessions p' !! "u1" = Some 0%nat
    /\ pool_pods p' !! "P1" = Some pod
    /\ sessions pod = {["u1"]}.
Proof.
  intros s w.
  destruct (updateSessionPool_upsert (sample.env [] sample.noFailure)
              "a/x" 0%nat s w eq_refl eq_refl)
    as (w' & p' & Hrun & _ & Hp' & _ & Hs' & _ & Hpods & _).
  destruct (Hpods {| v1.Name := "P1" |} eq_refl) as (pod & Hpod & Hsess).
  exists w', p', pod. split; [exact Hrun|]. split_and!.
  - exact Hp'.
  - exact Hs'.
  - exact Hpod.
  - rewrite Hsess. apply (left_id_L ∅ (∪)).
Defined.

(** ** onApplicationSessionUpdateEvent *)

Lemma updateSessionPool_upsert_heap (E : Env) key l w w' :
  updateSessionPool E key l false w = Some (tt, w') -> heap w' = heap w.
Proof.
  unfold updateSessionPool, getOrCreateApplicationPool, getPod,
    podSessionsDelete, podSessionsAdd, setPodSessions, addPod, deleteSession,
    addSession, getSession, updatePool, derefPool, modify, load, timeNow,
    modifyWorld, get, bind, ret, panic.
  intros H. repeat (case_match; simplify_eq/=); done.
Qed.

Lemma onApplicationSessionUpdateEvent_run (E : Env) (old cur : loc)
    (so sc : ApplicationSession) (key : string) (w : World) :
  poolInv anySession w ->
  heap w !! old = Some so -> heap w !! cur = Some sc ->
  reflect_DeepEqual E w old cur so sc = false ->
  getSessionApplicationKey sc = (key, None) ->
  exists w1 c,
    heap w !! cachedLoc w key (GetUID sc) old = Some c
    /\ onApplicationSessionUpdateEvent E old cur w
       = Some (tt,
               if decide ((DeletionTimestamp sc <> None
                           /\ DeletionTimestamp c = None)
                          \/ reflect_DeepEqual_Status E w1
                               (cachedLoc w key (GetUID sc) old) cur
                               (Status c) (Status sc) = false)
               then setQueue (queue w1 ++ [key]) w1
               else w1)
    /\ heap w1 = heap w
    /\ calls w1 = calls w
    /\ queue w1 = queue w
    /\ goroutines w1 = goroutines w
    /\ exists p',
         applicationPools w1 !! key = Some p'
         /\ pool_sessions p' !! GetUID sc
            = if util.SessionInTerminalState sc then None else Some cur.
Proof.
  intros Hinv Hold Hcur Hne Hkey. unfold onApplicationSessionUpdateEvent.
  rewrite (bind_Some _ _ _ _ _ (load_Some _ _ _ Hold)).
  rewrite (bind_Some _ _ _ _ _ (load_Some _ _ _ Hcur)).
  unfold bind at 1, get at 1. rewrite Hne.
  rewrite Hkey. rewrite bind_ret.
  rewrite (bind_Some _ _ _ _ _ (getOrCreateApplicationPool_run key w)).
  destruct (poolInv_ensure anySession preserved_anySession w key Hinv)
    as (Hinv1 & p1 & Hp1).
  set (w1 := match applicationPools w !! key with
             | Some _ => w
             | None => setPools (<[key := emptyPool]> (applicationPools w)) w
             end) in *.
  assert (Hh1 : heap w1 = heap w /\ queue w1 = queue w /\ calls w1 = calls w
                /\ goroutines w1 = goroutines w).
  { unfold w1. by destruct (applicationPools w !! key). }
  destruct Hh1 as (Hh1 & Hq1 & Hc1 & Hg1).
  rewrite (bind_Some _ _ _ _ _ (getSession_run w1 key p1 Hp1 (GetUID sc))).
  set (src := cachedLoc w key (GetUID sc) old).
  assert (Hsrc : src = default old (pool_sessions p1 !! GetUID sc)).
  { unfold src, cachedLoc. unfold w1 in Hp1.
    destruct (applicationPools w !! key) as [p|] eqn:Hk.
    - by assert (p1 = p) as -> by congruence.
    - simpl in Hp1. rewrite lookup_insert_eq in Hp1. injection Hp1 as <-.
      simpl. by rewrite lookup_empty. }
  assert (Hcached : exists c cached,
    heap w !! src = Some c
    /\ (match pool_sessions p1 !! GetUID sc with
        | Some v => let* c := load v in ret (Some (v, c))
        | None => ret None
        end) w1 = Some (cached, w1)
    /\ forall w4, heap w4 = heap w ->
         (match cached with
          | Some c => ret c
          | None => let* o := load old in ret (old, o)
          end) w4 = Some ((src, c), w4)).
  { destruct (pool_sessions p1 !! GetUID sc) as [v|] eqn:Hv;
      simpl in Hsrc; rewrite Hsrc.
    - destruct (Hinv1 key p1 Hp1 _ _ Hv) as (c & Hc & _).
      exists c, (Some (v, c)). split; [by rewrite <- Hh1|].
      split; [|done].
      by rewrite (bind_Some _ _ _ _ _ (load_Some _ _ _ Hc)).
    - exists so, None. split; [done|]. split; [done|]. intros w4 Hh4.
      assert (Hold4 : heap w4 !! old = Some so) by (by rewrite Hh4).
      by rewrite (bind_Some _ _ _ _ _ (load_Some _ _ _ Hold4)). }
  destruct Hcached as (c & cached & Hc & Hrunc & Hrunold).
  rewrite (bind_Some _ _ _ _ _ Hrunc).
  assert (Hcur1 : heap w1 !! cur = Some sc) by (by rewrite Hh1).
  destruct (updateSessionPool_step anySession preserved_anySession E key cur sc
              false w1 Hinv1 Hcur1) as (w4 & Hrun4 & _ & _ & Hterm4).
  pose proof (updateSessionPool_upsert_heap E key cur w1 w4 Hrun4) as Hh4.
  destruct (updateSessionPool_frame E key cur false w1 w4 Hrun4)
    as (Hq4 & Hc4 & _ & Hg4).
  assert (Hfiled : exists p',
    applicationPools w4 !! key = Some p'
    /\ pool_sessions p' !! GetUID sc
       = if util.SessionInTerminalState sc then None else Some cur).
  { destruct (util.SessionInTerminalState sc) eqn:Hterm.
    - destruct (Hterm4 eq_refl) as (_ & p' & Hp' & Hgone & _). by exists p'.
    - destruct (updateSessionPool_upsert_run E key cur sc w1 Hcur1 Hterm)
        as (w4' & p' & Hrun4' & _ & Hp' & Hs' & _).
      rewrite Hrun4 in Hrun4'. injection Hrun4' as <-.
      exists p'. split.
      + rewrite Hp'. apply lookup_insert_eq.
      + rewrite Hs'. apply lookup_insert_eq. }
  rewrite (bind_Some _ _ _ _ _ Hrun4).
  assert (Hcur4 : heap w4 !! cur = Some sc) by (by rewrite Hh4, Hh1).
  rewrite (bind_Some _ _ _ _ _ (Hrunold w4 (eq_trans Hh4 Hh1))).
  rewrite (bind_Some _ _ _ _ _ (load_Some _ _ _ Hcur4)).
  unfold bind at 1, get at 1. cbn [fst snd].
  exists w4, c. split; [done|]. split.
  { by case_decide. }
  split_and!; first [congruence|done].
Qed.

(** [onApplicationSessionUpdateEvent], from pools that hold live session
    objects. [reflect.DeepEqual] also looks at what the records here leave
    out, so objects that the records cannot tell apart may still differ.
    When the two objects are deeply equal the handler does nothing.
    Otherwise, for a new object with a valid application label, it always
    returns, changes no session object and makes no call, files the new
    object under its uid unless it is in a terminal state, and then
    enqueues the application once exactly when the new object has a
    deletion timestamp that the compared copy lacks, or their statuses are
    not deeply equal; the compared copy is a copy of the session the pool
    filed under the uid if there was one, and [old] otherwise. So when the
    pool already files the new object itself, and a copy is deeply equal
    to its original, nothing is enqueued whatever [old] is. *)
Theorem onApplicationSessionUpdateEvent_enqueues (E : Env) (old cur : loc)
    (so sc : ApplicationSession) (w : World) :
  poolInv anySession w ->
  heap w !! old = Some so -> heap w !! cur = Some sc ->
  (reflect_DeepEqual E w old cur so sc = true ->
   onApplicationSessionUpdateEvent E old cur w = Some (tt, w))
  /\ (forall key,
        reflect_DeepEqual E w old cur so sc = false ->
        getSessionApplicationKey sc = (key, None) ->
        exists w1 c w',
          heap w !! cachedLoc w key (GetUID sc) old = Some c
          /\ onApplicationSessionUpdateEvent E old cur w = Some (tt, w')
          /\ heap w' = heap w
          /\ calls w' = calls w
          /\ heap w1 = heap w /\ calls w1 = calls w /\ queue w1 = queue w
          /\ applicationPools w' = applicationPools w1
          /\ (exists p',
                applicationPools w1 !! key = Some p'
                /\ pool_sessions p' !! GetUID sc
                   = if util.SessionInTerminalState sc
                     then None else Some cur)
          /\ queue w'
             = queue w
               ++ (if decide ((DeletionTimestamp sc <> None
                               /\ DeletionTimestamp c = None)
                              \/ reflect_DeepEqual_Status E w1
                                   (cachedLoc w key (GetUID sc) old) cur
                                   (Status c) (Status sc) = false)
                   then [key] else []))
  /\ (forall key p,
        (forall w0 l, DeepEqual_Status_unmodelled E w0 l l = true) ->
        reflect_DeepEqual E w old cur so sc = false ->
        getSessionApplicationKey sc = (key, None) ->
        applicationPools w !! key = Some p ->
        pool_sessions p !! GetUID sc = Some cur ->
        exists w',
          onApplicationSessionUpdateEvent E old cur w = Some (tt, w')
          /\ queue w' = queue w).
Proof.
  intros Hinv Hold Hcur. split_and!.
  - intros Heq. unfold onApplicationSessionUpdateEvent.
    rewrite (bind_Some _ _ _ _ _ (load_Some _ _ _ Hold)).
    rewrite (bind_Some _ _ _ _ _ (load_Some _ _ _ Hcur)).
    unfold bind at 1, get at 1. by rewrite Heq.
  - intros key Hne Hkey.
    destruct (onApplicationSessionUpdateEvent_run E old cur so sc key w
                Hinv Hold Hcur Hne Hkey)
      as (w1 & c & Hc & Hrun & Hh & Hcalls & Hq & _ & Hfiled).
    exists w1, c. revert Hrun. case_decide; intros Hrun.
    + eexists. split; [done|]. split; [exact Hrun|]. simpl.
      split_and!; first [done|by rewrite Hq].
    + exists w1. split; [done|]. split; [exact Hrun|]. rewrite app_nil_r.
      by split_and!.
  - intros key p Hcopy Hne Hkey Hpool Hfiled.
    destruct (onApplicationSessionUpdateEvent_run E old cur so sc key w
                Hinv Hold Hcur Hne Hkey)
      as (w1 & c & Hc & Hrun & _ & _ & Hq & _).
    assert (Hsrc : cachedLoc w key (GetUID sc) old = cur).
    { unfold cachedLoc. by rewrite Hpool, Hfiled. }
    rewrite Hsrc in Hc, Hrun. rewrite Hcur in Hc. injection Hc as <-.
    rewrite decide_False in Hrun.
    + by exists w1.
    + unfold reflect_DeepEqual_Status.
      rewrite bool_decide_true by done. rewrite Hcopy.
      intros [[Hd1 Hd2] | Hst]; [by apply Hd1|done].
Qed.

Lemma onApplicationSessionUpdateEvent_enqueues_witness :
  let so := sample.session "u1" "a/x" false SessionStatusPending None None in
  let sc := sample.session "u1" "a/x" false SessionStatusAvailable (Some "P1") None in
  let w := sample.world [so; sc] {["a/x" := sample.pool [("u1", 0%nat)] []]} in
  let w2 := sample.world [sc; sc] {["a/x" := sample.pool [("u1", 0%nat)] []]} in
  (exists w',
     onApplicationSessionUpdateEvent (sample.env [] sample.noFailure)
       0%nat 1%nat w = Some (tt, w')
     /\ heap w' = heap w
     /\ queue w' = ["a/x"%string])
  /\ (exists w' p',
        onApplicationSessionUpdateEvent
          (withUnmodelledChanges (sample.env [] sample.noFailure))
          0%nat 1%nat w2 = Some (tt, w')
        /\ applicationPools w' !! "a/x" = Some p'
        /\ pool_sessions p' !! "u1" = Some 1%nat
        /\ queue w' = ["a/x"%string]).
Proof.
  intros so sc w w2. split.
  - destruct (onApplicationSessionUpdateEvent_enqueues
                (sample.env [] sample.noFailure) 0%nat 1%nat so sc w)
      as (_ & H & _).
    + by apply (sample_poolInv anySession [so; sc] "a/x" "u1" 0%nat [] so).
    + reflexivity.
    + reflexivity.
    + destruct (H "a/x"%string eq_refl eq_refl)
        as (w1 & c & w' & Hc & Hrun & Hh & _ & _ & _ & _ & _ & _ & Hq).
      injection Hc as <-.
      exists w'. split; [exact Hrun|]. split; [exact Hh|exact Hq].
  - destruct (onApplicationSessionUpdateEvent_enqueues
                (withUnmodelledChanges (sample.env [] sample.noFailure))
                0%nat 1%nat sc sc w2)
      as (_ & H & _).
    + by apply (sample_poolInv anySession [sc; sc] "a/x" "u1" 0%nat [] sc).
    + reflexivity.
    + reflexivity.
    + destruct (H "a/x"%string eq_refl eq_refl)
        as (w1 & c & w' & Hc & Hrun & _ & _ & _ & _ & _ & Hp & (p' & Hp' & Hs')
            & Hq).
      injection Hc as <-.
      exists w', p'. split; [exact Hrun|]. split; [by rewrite Hp|].
      split; [exact Hs'|exact Hq].
Defined.

(** ** getSessionApplicationKey *)

Lemma splitSlash_length cur key :
  length (cache.splitSlash cur key) = S (countSlash key).
Proof.
  revert cur. induction key as [|c rest IH]; intros cur; [done|].
  simpl. destruct (Ascii.eqb c "/"%char); simpl; by rewrite IH.
Qed.

(** [getSessionApplicationKey] accepts exactly the application labels with
    at most one slash, the empty label among them, and then the key is the
    label itself; for any other label the key is empty and the error names
    the label. *)
Theorem getSessionApplicationKey_slashes (s : ApplicationSession) :
  getSessionApplicationKey s
  = if decide (countSlash (ApplicationName (Spec s)) <= 1)%nat
    then (ApplicationName (Spec s), None)
    else (EmptyString,
          Some ("Session application label:" +:+ ApplicationName (Spec s)
                +:+ " is not valid meta namespace key")).
Proof.
  unfold getSessionApplicationKey, cache.SplitMetaNamespaceKey.
  pose proof (splitSlash_length EmptyString (ApplicationName (Spec s))) as Hlen.
  destruct (cache.splitSlash EmptyString (ApplicationName (Spec s)))
    as [|a [|b [|c l]]]; simpl in Hlen; case_decide; try done; lia.
Qed.

(** ** Validate *)

(** [Validate] returns no error exactly when the application name and the
    session data are both non-empty; every error it returns is of type
    Required and names a field that is empty, the application name first.
    It does not look at the slashes of the application name, so it accepts
    labels that [getSessionApplicationKey] rejects. *)
Theorem Validate_required (s : ApplicationSession) :
  (Validate s = []
   <-> ApplicationName (Spec s) <> EmptyString
       /\ SessionData (Spec s) <> EmptyString)
  /\ (field.Field <$> Validate s)
     = (if decide (ApplicationName (Spec s) = EmptyString)
        then ["Spec.ApplicationName"%string] else [])
       ++ (if decide (SessionData (Spec s) = EmptyString)
           then ["Spec.SessionData"%string] else [])
  /\ (forall e, e ∈ Validate s -> field.Type_ e = field.ErrorTypeRequired)
  /\ ((1 < countSlash (ApplicationName (Spec s)))%nat ->
      SessionData (Spec s) <> EmptyString ->
      Validate s = [] /\ (getSessionApplicationKey s).2 <> None).
Proof.
  assert (Hlen : forall x : string,
            (String.length x =? 0)%nat = bool_decide (x = EmptyString)).
  { intros [|c x]; by simpl. }
  assert (Hform : Validate s
    = (if decide (ApplicationName (Spec s) = EmptyString)
       then [{| field.Type_ := field.ErrorTypeRequired;
                field.Field := "Spec.ApplicationName";
                field.Detail := "" |}] else [])
      ++ (if decide (SessionData (Spec s) = EmptyString)
          then [{| field.Type_ := field.ErrorTypeRequired;
                   field.Field := "Spec.SessionData";
                   field.Detail := "" |}] else [])).
  { unfold Validate. rewrite !Hlen.
    destruct (decide (ApplicationName (Spec s) = EmptyString)) as [Ha|Ha];
      [rewrite (bool_decide_true _ Ha)|rewrite (bool_decide_false _ Ha)];
      (destruct (decide (SessionData (Spec s) = EmptyString)) as [Hd|Hd];
        [rewrite (bool_decide_true _ Hd)|rewrite (bool_decide_false _ Hd)]);
      done. }
  split_and!.
  - rewrite Hform. repeat case_decide; simpl; split; try done; tauto.
  - rewrite Hform. by repeat case_decide.
  - intros e. rewrite Hform.
    repeat case_decide; simpl; rewrite ?elem_of_cons, ?elem_of_nil;
      intuition (by subst).
  - intros Hsl Hd. split.
    + rewrite Hform. rewrite decide_False; [by rewrite decide_False|].
      intros Heq. rewrite Heq in Hsl. simpl in Hsl. lia.
    + rewrite getSessionApplicationKey_slashes.
      rewrite decide_False by lia. done.
Qed.

(** ** bindSessionToPod when the session opens *)

(** When [OpenSession] answers nil, [bindSessionToPod] returns nil and the
    session object has become Starting on the pod: its pod reference is the
    pod's name, and its endpoints are the ones it had followed by the
    endpoint of the last port the pod declares, if it declares any, so at
    most one endpoint is added. Metadata, spec and client sessions are
    kept; no other object and no pool changes; [OpenSession] is the only
    call, made with the session as it is afterwards. *)
Theorem bindSessionToPod_opens (E : Env) (key : string) (pod : v1.Pod)
    (session : loc) (s : ApplicationSession) (w : World) :
  heap w !! session = Some s ->
  sessionManager_OpenSession E
    (setHeap (<[session := setStatus (boundStatus pod s) s]> (heap w)) w)
    pod (setStatus (boundStatus pod s) s) = None ->
  exists w' s',
    bindSessionToPod E key pod session w = Some (None, w')
    /\ heap w' = <[session := s']> (heap w)
    /\ ObjectMeta s' = ObjectMeta s /\ Spec s' = Spec s
    /\ sessionStatus (Status s') = SessionStatusStarting
    /\ PodReference (Status s') = Some {| v1.Name := util.Name pod |}
    /\ ClientSessions (Status s') = ClientSessions (Status s)
    /\ AccessEndPoints (Status s')
       = AccessEndPoints (Status s)
         ++ match last (concat (v1.Ports <$> v1.Containers (v1.Spec pod))) with
            | Some port => [endPointOfPort port]
            | None => []
            end
    /\ applicationPools w' = applicationPools w
    /\ queue w' = queue w
    /\ calls w' = calls w ++ [OpenSession pod session s'].
Proof.
  intros Hs Hopen. pose proof (bindSessionToPod_run E key pod session s w Hs) as Hrun.
  cbv zeta in Hrun. rewrite Hopen in Hrun.
  eexists _, (setStatus (boundStatus pod s) s). split; [exact Hrun|].
  destruct (boundStatus_fields pod s) as (Hst & Href & Hep).
  split_and!; try done.
  unfold boundStatus. simpl.
  by destruct (bindContainers_other s (v1.Containers (v1.Spec pod))
      (setSessionStatus SessionStatusStarting (Status s))) as (_ & -> & _).
Qed.

Lemma bindSessionToPod_opens_witness :
  let s := sample.session "u1" "a/x" false SessionStatusPending None None in
  let pod := sample.pod "P1" [8080; 8081; 8082] in
  exists w' s',
    bindSessionToPod (sample.env [pod] sample.noFailure) "a/x" pod 0%nat
      (sample.world [s] ∅) = Some (None, w')
    /\ heap w' !! 0%nat = Some s'
    /\ AccessEndPoints (Status s') = [endPointOfPort (sample.port 8082)].
Proof.
  intros s pod.
  destruct (bindSessionToPod_opens (sample.env [pod] sample.noFailure) "a/x"
              pod 0%nat s (sample.world [s] ∅) eq_refl eq_refl)
    as (w' & s' & Hrun & Hh & _ & _ & _ & _ & _ & Hep & _).
  exists w', s'. split; [exact Hrun|]. split.
  - rewrite Hh. apply lookup_insert_eq.
  - exact Hep.
Defined.

(** ** The informer handlers keep the pools *)

(** From pools that hold live session objects none of which is Closed or
    Timeout, each of the three informer handlers returns on an existing
    object, leaves the pools in such a state again, terminates no pod and
    keeps the spec of every session object. *)
Theorem informer_handlers_keep_pools (E : Env) (w : World) (obj : loc)
    (s : ApplicationSession) :
  poolInv notTerminal w ->
  heap w !! obj = Some s ->
  safe notTerminal (onApplicationSessionAddEvent E obj) w
  /\ safe notTerminal (onApplicationSessionDeleteEvent E obj) w
  /\ (forall old so,
        heap w !! old = Some so ->
        safe notTerminal (onApplicationSessionUpdateEvent E old obj) w).
Proof.
  intros Hinv Hobj. split_and!.
  - by apply (safe_onApplicationSessionAddEvent notTerminal
                preserved_notTerminal E obj w s).
  - by apply (safe_onApplicationSessionDeleteEvent notTerminal
                preserved_notTerminal E obj w s).
  - intros old so Hold.
    by apply (safe_onApplicationSessionUpdateEvent notTerminal
                preserved_notTerminal E old obj w so s).
Qed.

Lemma informer_handlers_keep_pools_witness :
  let s := sample.session "u1" "a/x" false SessionStatusClosed (Some "P1") None in
  let c := sample.session "u1" "a/x" false SessionStatusAvailable (Some "P1") None in
  let w := sample.world [c; s] {["a/x" := sample.pool [("u1", 0%nat)] []]} in
  safe notTerminal
    (onApplicationSessionUpdateEvent (sample.env [] sample.noFailure)
       0%nat 1%nat) w.
Proof.
  intros s c w.
  destruct (informer_handlers_keep_pools (sample.env [] sample.noFailure)
              w 1%nat s) as (_ & _ & H).
  - by apply (sample_poolInv notTerminal [c; s] "a/x" "u1" 0%nat [] c).
  - reflexivity.
  - by apply (H 0%nat c).
Defined.

(** ** The session table of a pool *)

(** The session table of a pool behaves as a map from uid to session
    object: [getSession] returns what [addSession] filed last under the
    uid and nil after [deleteSession]; neither touches another uid;
    [sessionLength] is the length of [sessionList], and adding under a uid
    that is already filed does not change it. None of them changes a
    session object, and each panics on a nil pool. *)
Theorem pool_session_table (w : World) (key : string) (p : ApplicationPool)
    (id : string) (l : loc) :
  applicationPools w !! key = Some p ->
  runs (addSession (Some key) id l) w
    (fun _ w1 =>
       heap w1 = heap w
       /\ getSession (Some key) id w1 = Some (Some l, w1)
       /\ (forall id', id' <> id ->
             getSession (Some key) id' w1 = Some (pool_sessions p !! id', w1))
       /\ sessionLength (Some key) w1
          = Some (Z.of_nat (size (pool_sessions p))
                  + match pool_sessions p !! id with
                    | Some _ => 0
                    | None => 1
                    end, w1))
  /\ runs (deleteSession (Some key) id) w
       (fun _ w1 =>
          heap w1 = heap w
          /\ getSession (Some key) id w1 = Some (None, w1)
          /\ (forall id', id' <> id ->
                getSession (Some key) id' w1
                = Some (pool_sessions p !! id', w1)))
  /\ runs (sessionList (Some key)) w
       (fun vs w1 =>
          w1 = w
          /\ sessionLength (Some key) w = Some (Z.of_nat (length vs), w)
          /\ forall v, v ∈ vs <-> exists id', pool_sessions p !! id' = Some v)
  /\ getSession None id w = None
  /\ addSession None id l w = None
  /\ deleteSession None id w = None
  /\ sessionLength None w = None
  /\ sessionList None w = None.
Proof.
  intros Hpool. split_and!; try done.
  - eexists _, _. split; [apply (addSession_run w key p Hpool)|].
    set (p1 := {| pool_sessions := <[id := l]> (pool_sessions p);
                  pool_pods := pool_pods p |}).
    set (w1 := setPools _ w).
    assert (Hp1 : applicationPools w1 !! key = Some p1) by apply lookup_insert_eq.
    split_and!; try done.
    + rewrite (getSession_run w1 key p1 Hp1). simpl.
      by rewrite lookup_insert_eq.
    + intros id' Hne. rewrite (getSession_run w1 key p1 Hp1). simpl.
      by rewrite lookup_insert_ne.
    + unfold sessionLength.
      rewrite (bind_Some _ _ _ _ _ (derefPool_run w1 key p1 Hp1)).
      unfold ret. do 2 f_equal. simpl.
      destruct (pool_sessions p !! id) as [v|] eqn:Hid.
      * rewrite map_size_insert_Some by (by exists v). lia.
      * rewrite map_size_insert_None by done. lia.
  - eexists _, _. split; [apply (deleteSession_run w key p Hpool)|].
    set (p1 := {| pool_sessions := delete id (pool_sessions p);
                  pool_pods := pool_pods p |}).
    set (w1 := setPools _ w).
    assert (Hp1 : applicationPools w1 !! key = Some p1) by apply lookup_insert_eq.
    split_and!; try done.
    + rewrite (getSession_run w1 key p1 Hp1). simpl.
      by rewrite lookup_delete_eq.
    + intros id' Hne. rewrite (getSession_run w1 key p1 Hp1). simpl.
      by rewrite lookup_delete_ne.
  - eexists _, _. split.
    { unfold sessionList.
      by rewrite (bind_Some _ _ _ _ _ (derefPool_run w key p Hpool)). }
    split_and!; try done.
    + unfold sessionLength.
      rewrite (bind_Some _ _ _ _ _ (derefPool_run w key p Hpool)).
      by rewrite length_fmap, length_map_to_list.
    + intros v. rewrite list_elem_of_fmap. split.
      * intros ([id' v'] & -> & H). exists id'. by apply elem_of_map_to_list.
      * intros (id' & H). exists (id', v). split; [done|].
        by apply elem_of_map_to_list.
Qed.

Lemma pool_session_table_witness :
  let w := sample.world [] {["a/x" := sample.pool [("u1", 0%nat)] []]} in
  runs (addSession (Some "a/x") "u2" 1%nat) w
    (fun _ w1 =>
       getSession (Some "a/x") "u2" w1 = Some (Some 1%nat, w1)
       /\ sessionLength (Some "a/x") w1 = Some (2, w1)).
Proof.
  intros w.
  destruct (pool_session_table w "a/x" (sample.pool [("u1", 0%nat)] [])
              "u2" 1%nat eq_refl) as ((u & w1 & Hrun & _ & Hget & _ & Hlen) & _).
  exists u, w1. split; [exact Hrun|]. split; [exact Hget|exact Hlen].
Defined.

(** ** cleanupSessionOfApplication *)

Section cleanup_of_application.

Context (E : Env) (key : string).
Hypothesis Hupd :
  forall w0 s st, sessionManager_UpdateSessionStatus E w0 s st = None.

Lemma deleteApplicationSession_step (v : loc) (s : ApplicationSession)
    (w : World) (p : ApplicationPool) :
  heap w !! v = Some s ->
  applicationPools w !! key = Some p ->
  exists err w1,
    deleteApplicationSession E key v w = Some (err, w1)
    /\ queue w1 = queue w
    /\ (forall l, l <> v -> heap w1 !! l = heap w !! l)
    /\ applicationPools w1
       = <[key := if util.SessionIsOpen s then p else poolWithout s p]>
           (applicationPools w).
Proof using Hupd.
  intros Hv Hpool. unfold deleteApplicationSession.
  rewrite (bind_Some _ _ _ _ _ (load_Some _ _ _ Hv)).
  rewrite (bind_Some _ _ _ _ _ (getApplicationPool_run key w)).
  rewrite Hpool. cbv iota.
  destruct (util.SessionIsOpen s) eqn:Hopen.
  - rewrite (closeApplicationSession_run E w v s Hv), Hopen.
    destruct (PodReference (Status s)) as [ref|];
      [|eexists _, _; split; [done|]; by rewrite insert_id].
    destruct (podManager_FindPod E w (v1.Name ref)) as [pod|].
    + eexists _, _. split; [done|]. simpl. split; [done|].
      split; [|by rewrite insert_id].
      intros l Hne. by rewrite lookup_insert_ne.
    + eexists _, _. split; [done|]. simpl. by rewrite insert_id.
  - destruct (util.SessionIsPending s).
    + rewrite (bind_Some _ _ _ _ _ (changeSessionStatus_run E w v s _ Hv)).
      rewrite Hupd.
      set (w0 := record _ w).
      assert (Hv0 : heap w0 !! v = Some s) by exact Hv.
      rewrite (bind_Some _ _ _ _ _ (load_Some _ _ _ Hv0)).
      rewrite <- bind_assoc.
      rewrite (bind_Some _ _ _ _ _ (removeSession_run w0 key p s Hpool)).
      by eexists _, _.
    + rewrite bind_ret.
      rewrite (bind_Some _ _ _ _ _ (load_Some _ _ _ Hv)).
      rewrite <- bind_assoc.
      rewrite (bind_Some _ _ _ _ _ (removeSession_run w key p s Hpool)).
      by eexists _, _.
Qed.

Lemma cleanupDeletingSessions_removes (vs : list loc) :
  forall (errs : list string) (w : World) (p : ApplicationPool),
  applicationPools w !! key = Some p ->
  NoDup vs ->
  (forall v, v ∈ vs -> is_Some (heap w !! v)) ->
  exists errs' w' p',
    cleanupDeletingSessions E key vs errs w = Some (errs', w')
    /\ applicationPools w' = <[key := p']> (applicationPools w)
    /\ queue w' = queue w
    /\ pool_sessions p' ⊆ pool_sessions p
    /\ (forall uid,
          (forall v s, v ∈ vs -> heap w !! v = Some s ->
             util.SessionIsOpen s = false -> GetUID s <> uid) ->
          pool_sessions p' !! uid = pool_sessions p !! uid)
    /\ (forall v s, v ∈ vs -> heap w !! v = Some s ->
          util.SessionIsOpen s = false ->
          pool_sessions p' !! GetUID s = None)
    /\ (forall l, l ∉ vs -> heap w' !! l = heap w !! l).
Proof using Hupd.
  induction vs as [|v vs IH]; intros errs w p Hpool Hnd Hvs.
  - exists errs, w, p. simpl. rewrite insert_id by done.
    split_and!; try done. intros v s Hv. by apply elem_of_nil in Hv.
  - apply NoDup_cons in Hnd as [Hnotin Hnd].
    destruct (Hvs v) as [s Hs]; [by left|].
    destruct (deleteApplicationSession_step v s w p Hs Hpool)
      as (err & w1 & Hrun1 & Hq1 & Hh1 & Hp1).
    set (p1 := if util.SessionIsOpen s then p else poolWithout s p) in *.
    assert (Hpool1 : applicationPools w1 !! key = Some p1).
    { rewrite Hp1. apply lookup_insert_eq. }
    assert (Hsub1 : pool_sessions p1 ⊆ pool_sessions p).
    { unfold p1. destruct (util.SessionIsOpen s); [done|apply delete_subseteq]. }
    assert (Hrest : forall v', v' ∈ vs -> heap w1 !! v' = heap w !! v').
    { intros v' Hv'. apply Hh1. intros ->. by apply Hnotin. }
    assert (Hlive1 : forall v', v' ∈ vs -> is_Some (heap w1 !! v')).
    { intros v' Hv'. rewrite Hrest by done. apply Hvs. by right. }
    assert (Hgoal : forall errs1,
      exists errs' w' p',
        cleanupDeletingSessions E key vs errs1 w1 = Some (errs', w')
        /\ applicationPools w' = <[key := p']> (applicationPools w)
        /\ queue w' = queue w
        /\ pool_sessions p' ⊆ pool_sessions p
        /\ (forall uid,
              (forall v0 s0, v0 ∈ v :: vs -> heap w !! v0 = Some s0 ->
                 util.SessionIsOpen s0 = false -> GetUID s0 <> uid) ->
              pool_sessions p' !! uid = pool_sessions p !! uid)
        /\ (forall v0 s0, v0 ∈ v :: vs -> heap w !! v0 = Some s0 ->
              util.SessionIsOpen s0 = false ->
              pool_sessions p' !! GetUID s0 = None)
        /\ (forall l, l ∉ v :: vs -> heap w' !! l = heap w !! l)).
    { intros errs1.
      destruct (IH errs1 w1 p1 Hpool1 Hnd Hlive1)
        as (errs' & w' & p' & Hrun & Hp' & Hq & Hsub & Hkeep & Hgone & Hh).
      exists errs', w', p'. split; [done|]. split_and!.
      - rewrite Hp', Hp1. by rewrite insert_insert_eq.
      - congruence.
      - by etrans.
      - intros uid Hne. rewrite Hkeep.
        + unfold p1. destruct (util.SessionIsOpen s) eqn:Hopen; [done|].
          simpl. apply lookup_delete_ne. apply (Hne v s); [by left|done..].
        + intros v0 s0 Hv0 Hs0. rewrite Hrest in Hs0 by done.
          intros Hopen0. apply (Hne v0 s0); [by right|done..].
      - intros v0 s0 Hv0 Hs0 Hopen0.
        apply elem_of_cons in Hv0 as [-> | Hv0].
        + rewrite Hs in Hs0. injection Hs0 as <-.
          apply (lookup_weaken_None _ (pool_sessions p1)); [|done].
          unfold p1. rewrite Hopen0. apply lookup_delete_eq.
        + apply (Hgone v0 s0); [done| |done]. by rewrite Hrest.
      - intros l Hl. apply not_elem_of_cons in Hl as [Hl1 Hl2].
        rewrite Hh by done. by apply Hh1. }
    simpl cleanupDeletingSessions.
    rewrite (bind_Some _ _ _ _ _ Hrun1).
    destruct err as [err|]; apply Hgoal.
Qed.

End cleanup_of_application.

(** [cleanupSessionOfApplication] when every status update succeeds, on a
    pool whose sessions are live objects filed under their own uid: it
    always returns, and afterwards the pool holds exactly the sessions
    that were open at the start; every other session has left the pool. Nothing is enqueued. Without a
    pool for the key it returns nil and changes nothing. *)
Theorem cleanupSessionOfApplication_leaves_open (E : Env) (key : string)
    (w : World) :
  (forall w0 s st, sessionManager_UpdateSessionStatus E w0 s st = None) ->
  (forall p,
     applicationPools w !! key = Some p ->
     (forall uid v, pool_sessions p !! uid = Some v ->
        exists s, heap w !! v = Some s /\ GetUID s = uid) ->
     exists err w' p',
       cleanupSessionOfApplication E key w = Some (err, w')
       /\ applicationPools w' = <[key := p']> (applicationPools w)
       /\ queue w' = queue w
       /\ forall uid,
            pool_sessions p' !! uid
            = match pool_sessions p !! uid with
              | Some v => if openAt w v then Some v else None
              | None => None
              end)
  /\ (applicationPools w !! key = None ->
      cleanupSessionOfApplication E key w = Some (None, w)).
Proof.
  intros Hupd. split.
  - intros p Hpool Hkeyed.
    set (vs := (map_to_list (pool_sessions p)).*2).
    assert (Hin : forall v, v ∈ vs <-> exists uid, pool_sessions p !! uid = Some v).
    { intros v. unfold vs. rewrite list_elem_of_fmap. split.
      - intros ([uid v'] & -> & H). exists uid. by apply elem_of_map_to_list.
      - intros (uid & H). exists (uid, v). split; [done|].
        by apply elem_of_map_to_list. }
    assert (Hnd : NoDup vs).
    { unfold vs. apply NoDup_fmap_2_strong; [|apply NoDup_map_to_list].
      intros [uid1 v1] [uid2 v2] H1 H2 Heq. simpl in Heq. subst v2.
      apply elem_of_map_to_list in H1, H2.
      destruct (Hkeyed uid1 v1 H1) as (s1 & Hs1 & Hu1).
      destruct (Hkeyed uid2 v1 H2) as (s2 & Hs2 & Hu2).
      f_equal. congruence. }
    destruct (cleanupDeletingSessions_removes E key Hupd vs [] w p Hpool Hnd)
      as (errs & w' & p' & Hrun & Hp' & Hq & Hsub & Hkeep & Hgone & _).
    { intros v Hv. apply Hin in Hv as (uid & Hv).
      destruct (Hkeyed uid v Hv) as (s & Hs & _). by exists s. }
    assert (Hsess : forall uid,
      pool_sessions p' !! uid
      = match pool_sessions p !! uid with
        | Some v => if openAt w v then Some v else None
        | None => None
        end).
    { intros uid. destruct (pool_sessions p !! uid) as [v|] eqn:Hv.
      - destruct (Hkeyed uid v Hv) as (s & Hs & Huid).
        unfold openAt. rewrite Hs.
        destruct (util.SessionIsOpen s) eqn:Hopen.
        + rewrite Hkeep; [done|].
          intros v' s' Hv' Hs' Hopen' Heq. apply Hin in Hv' as (uid' & Hv').
          destruct (Hkeyed uid' v' Hv') as (s'' & Hs'' & Huid').
          assert (s'' = s') by congruence. subst s''.
          assert (uid' = uid) by congruence. subst uid'.
          assert (v' = v) by congruence. subst v'.
          congruence.
        + rewrite <- Huid. apply (Hgone v s); [|done..]. apply Hin. by exists uid.
      - by apply (lookup_weaken_None _ _ _ Hv Hsub). }
    unfold cleanupSessionOfApplication.
    rewrite (bind_Some _ _ _ _ _ (getApplicationPool_run key w)), Hpool.
    cbv iota. unfold sessionList. rewrite bind_assoc.
    rewrite (bind_Some _ _ _ _ _ (derefPool_run w key p Hpool)).
    rewrite bind_ret. fold vs. rewrite (bind_Some _ _ _ _ _ Hrun).
    case_decide; by eexists _, _, p'.
  - intros Hpool. unfold cleanupSessionOfApplication.
    rewrite (bind_Some _ _ _ _ _ (getApplicationPool_run key w)).
    by rewrite Hpool.
Qed.

Lemma cleanupSessionOfApplication_leaves_open_witness :
  let s := sample.session "u1" "a/x" false SessionStatusPending None None in
  let pool := sample.pool [("u1", 0%nat)] [] in
  let w := sample.world [s] {["a/x" := pool]} in
  exists err w' p',
    cleanupSessionOfApplication (sample.env [] sample.noFailure) "a/x" w
      = Some (err, w')
    /\ applicationPools w' !! "a/x" = Some p'
    /\ pool_sessions p' !! "u1" = None.
Proof.
  intros s pool w.
  destruct (cleanupSessionOfApplication_leaves_open
              (sample.env [] sample.noFailure) "a/x" w) as [H _].
  - reflexivity.
  - destruct (H pool) as (err & w' & p' & Hrun & Hp' & _ & Hs').
    + reflexivity.
    + intros uid v Hv. exists s. simpl in Hv.
      apply lookup_insert_Some in Hv as [[<- <-] | [_ Hv]];
        [done|by apply lookup_empty_Some in Hv].
    + exists err, w', p'. split; [exact Hrun|]. split.
      * rewrite Hp'. apply lookup_insert_eq.
      * rewrite Hs'. reflexivity.
Defined.

Lemma Validate_required_witness :
  let s := sample.session "u1" "a/b/c" false SessionStatusPending None None in
  Validate s = [] /\ (getSessionApplicationKey s).2 <> None.
Proof.
  intros s.
  destruct (Validate_required s) as (_ & _ & _ & H).
  apply H.
  - simpl. lia.
  - discriminate.
Defined.

(** ** onApplicationSessionAddEvent with a valid label *)

(** [onApplicationSessionAddEvent] on a session with a valid application
    label and no deletion timestamp, from pools that hold live session
    objects: it always returns, makes no call, changes no session object
    and enqueues the application once, also for a session that is already
    Closed or Timeout. Afterwards the application has a pool; it files the
    session under its uid unless the session is in a terminal state, in
    which case the uid is not in the pool. With a deletion timestamp the
    handler is [onApplicationSessionDeleteEvent]. *)
Theorem onApplicationSessionAddEvent_files (E : Env) (obj : loc)
    (s : ApplicationSession) (w : World) :
  poolInv anySession w ->
  heap w !! obj = Some s ->
  (forall key,
     DeletionTimestamp s = None ->
     getSessionApplicationKey s = (key, None) ->
     exists w' p',
       onApplicationSessionAddEvent E obj w = Some (tt, w')
       /\ heap w' = heap w
       /\ calls w' = calls w
       /\ queue w' = queue w ++ [key]
       /\ applicationPools w' !! key = Some p'
       /\ pool_sessions p' !! GetUID s
          = if util.SessionInTerminalState s then None else Some obj)
  /\ (DeletionTimestamp s <> None ->
      onApplicationSessionAddEvent E obj w
      = onApplicationSessionDeleteEvent E obj w).
Proof.
  intros Hinv Hobj. split.
  - intros key Hdel Hkey. unfold onApplicationSessionAddEvent.
    rewrite (bind_Some _ _ _ _ _ (load_Some _ _ _ Hobj)).
    rewrite Hdel, Hkey. rewrite bind_ret.
    destruct (util.SessionInTerminalState s) eqn:Hterm.
    + destruct (updateSessionPool_step anySession preserved_anySession E key
                  obj s false w Hinv Hobj) as (w1 & Hrun & _ & _ & Ht).
      destruct (Ht Hterm) as (Hh & p' & Hp' & Hgone & _).
      destruct (updateSessionPool_frame E key obj false w w1 Hrun)
        as (Hq & Hc & _).
      rewrite (bind_Some _ _ _ _ _ Hrun).
      eexists _, p'. split; [reflexivity|]. simpl.
      split_and!; try done. by rewrite Hq.
    + destruct (updateSessionPool_upsert_run E key obj s w Hobj Hterm)
        as (w1 & p' & Hrun & Hh & Hp' & Hs' & _).
      destruct (updateSessionPool_frame E key obj false w w1 Hrun)
        as (Hq & Hc & _).
      rewrite (bind_Some _ _ _ _ _ Hrun).
      eexists _, p'. split; [reflexivity|]. simpl.
      split_and!; try done.
      * by rewrite Hq.
      * rewrite Hp'. apply lookup_insert_eq.
      * rewrite Hs'. apply lookup_insert_eq.
  - intros Hdel. unfold onApplicationSessionAddEvent.
    rewrite (bind_Some _ _ _ _ _ (load_Some _ _ _ Hobj)).
    by destruct (DeletionTimestamp s).
Qed.

Lemma onApplicationSessionAddEvent_files_witness :
  let s := sample.session "u1" "a/x" false SessionStatusClosed (Some "P1") None in
  let w := sample.world [s] ∅ in
  exists w' p',
    onApplicationSessionAddEvent (sample.env [] sample.noFailure) 0%nat w
      = Some (tt, w')
    /\ queue w' = ["a/x"%string]
    /\ applicationPools w' !! "a/x" = Some p'
    /\ pool_sessions p' !! "u1" = None.
Proof.
  intros s w.
  destruct (onApplicationSessionAddEvent_files (sample.env [] sample.noFailure)
              0%nat s w) as [H _].
  - intros k p Hp. simpl in Hp. by apply lookup_empty_Some in Hp.
  - reflexivity.
  - destruct (H "a/x"%string eq_refl eq_refl)
      as (w' & p' & Hrun & _ & _ & Hq & Hp' & Hs').
    exists w', p'. split; [exact Hrun|]. split; [exact Hq|].
    split; [exact Hp'|exact Hs'].
Defined.

(** ** syncApplicationSessions: the bind phase when nothing fails *)

Section bind_all.

Context (E : Env) (key : string) (pending : list loc).
Hypothesis Hopen : forall w0 pod s, sessionManager_OpenSession E w0 pod s = None.

Lemma bindPendingSessions_all (pods : list string) :
  forall (si : nat) (errs : list string) (w : World) (p : ApplicationPool),
  (forall w0 name, name ∈ pods -> is_Some (podManager_FindPod E w0 name)) ->
  applicationPools w !! key = Some p ->
  NoDup pods ->
  (forall name, name ∈ pods ->
     exists rpod, pool_pods p !! name = Some rpod
                  /\ podName rpod = name /\ sessions rpod = ∅) ->
  (forall l, l ∈ pending -> is_Some (heap w !! l)) ->
  (si <= length pending)%nat ->
  (forall i l, (i < si)%nat -> pending !! i = Some l ->
     exists s', heap w !! l = Some s'
                /\ sessionStatus (Status s') = SessionStatusStarting) ->
  exists w' p',
    bindPendingSessions E key (Some key) pending pods si errs w
    = Some ((Nat.min (length pending) (si + length pods), errs), w')
    /\ applicationPools w' !! key = Some p'
    /\ pool_sessions p' = pool_sessions p
    /\ (forall name, name ∉ pods -> pool_pods p' !! name = pool_pods p !! name)
    /\ (forall i l, (i < Nat.min (length pending) (si + length pods))%nat ->
          pending !! i = Some l ->
          exists s', heap w' !! l = Some s'
                     /\ sessionStatus (Status s') = SessionStatusStarting)
    /\ (forall j name l s,
          pods !! j = Some name -> pending !! (si + j)%nat = Some l ->
          heap w !! l = Some s ->
          exists rpod, pool_pods p' !! name = Some rpod
                       /\ sessions rpod = {[GetUID s]}).
Proof using Hopen.
  induction pods as [|rp rest IH];
    intros si errs w p Hfind Hpool Hnd Hidle Hlive Hsi Hbound.
  - exists w, p. simpl. rewrite Nat.add_0_r, Nat.min_r by lia.
    split_and!; try done.
  - apply NoDup_cons in Hnd as [Hnotin Hnd].
    destruct (Hidle rp) as (rpod & Hrp & Hname & Hempty); [by left|].
    destruct (Hfind w rp) as [pod Hpod]; [by left|].
    simpl bindPendingSessions.
    rewrite (bind_Some _ _ _ _ _ (derefPool_run w key p Hpool)).
    rewrite Hrp. cbv iota.
    rewrite (bind_Some _ _ _ _ _ (FindPod_call_run E _ w)).
    rewrite Hname, Hpod. cbv iota.
    set (w0 := record (FindPod rp) w).
    rewrite decide_True by (by rewrite Hempty).
    case_decide as Hend.
    { exists w0, p. rewrite Nat.min_l by lia. rewrite <- Hend.
      split_and!; try done.
      intros j name l s _ Hl. apply lookup_lt_Some in Hl. lia. }
    destruct (pending !! si) as [session|] eqn:Hsession.
    2: { apply lookup_ge_None in Hsession. lia. }
    destruct (Hlive session) as [s Hs]; [by eapply list_elem_of_lookup_2|].
    assert (Hs0 : heap w0 !! session = Some s) by exact Hs.
    pose proof (bindSessionToPod_run E key pod session s w0 Hs0) as Hbind.
    cbv zeta in Hbind. rewrite Hopen in Hbind.
    set (s1 := setStatus (boundStatus pod s) s) in *.
    set (w1 := setHeap (<[session := s1]> (heap w0)) w0) in *.
    rewrite (bind_Some _ _ _ _ _ Hbind). cbv iota.
    set (w2 := record (OpenSession pod session s1) w1).
    assert (Hs2 : heap w2 !! session = Some s1) by apply lookup_insert_eq.
    rewrite (bind_Some _ _ _ _ _ (load_Some _ _ _ Hs2)).
    unfold podSessionsAdd.
    rewrite (bind_Some _ _ _ _ _
      (setPodSessions_run w2 key p Hpool rp rpod _ Hrp)).
    set (p2 := {| pool_sessions := pool_sessions p; pool_pods := _ |}).
    set (w3 := setPools _ w2).
    assert (Hheap3 : forall l s0, heap w !! l = Some s0 ->
              exists s3, heap w3 !! l = Some s3 /\ GetUID s3 = GetUID s0).
    { intros l s0 Hl. simpl. destruct (decide (session = l)) as [<-|Hne].
      - rewrite lookup_insert_eq. exists s1. split; [done|].
        rewrite Hs in Hl. by injection Hl as <-.
      - rewrite lookup_insert_ne by done. by exists s0. }
    destruct (IH (S si) errs w3 p2)
      as (w' & p' & Hrun & Hp' & Hps & Hother & Hstart & Hpods).
    + intros w4 name Hin. apply Hfind. by right.
    + apply lookup_insert_eq.
    + done.
    + intros name Hin. destruct (Hidle name) as (rpod' & Hr' & Hn' & He');
        [by right|].
      exists rpod'. split; [|done]. simpl. rewrite lookup_insert_ne; [done|].
      intros ->. by apply Hnotin.
    + intros l Hl. destruct (Hlive l Hl) as [s0 Hs0'].
      destruct (Hheap3 l s0 Hs0') as (s3 & Hs3 & _). by exists s3.
    + apply lookup_lt_Some in Hsession. lia.
    + intros i l Hi Hl. simpl.
      destruct (decide (session = l)) as [<-|Hne].
      * rewrite lookup_insert_eq. exists s1. split; [done|].
        apply (boundStatus_fields pod s).
      * rewrite lookup_insert_ne by done.
        apply (Hbound i l); [|done].
        destruct (decide (i = si)) as [->|]; [congruence|lia].
    + exists w', p'. simpl length.
      replace (si + S (length rest))%nat with (S si + length rest)%nat by lia.
      split; [done|]. split_and!; try done.
      * intros name Hname'. apply not_elem_of_cons in Hname' as [Hne Hname'].
        rewrite Hother by done. simpl. by rewrite lookup_insert_ne.
      * intros j name l s0 Hj Hl Hs0'. destruct j as [|j].
        -- simpl in Hj. injection Hj as <-. rewrite Nat.add_0_r in Hl.
           rewrite Hsession in Hl. injection Hl as <-.
           rewrite Hs in Hs0'. injection Hs0' as <-.
           rewrite Hother by done. simpl. rewrite lookup_insert_eq.
           eexists. split; [done|]. simpl. rewrite Hempty.
           apply (left_id_L ∅ (∪)).
        -- simpl in Hj. rewrite Nat.add_succ_r in Hl.
           destruct (Hheap3 l s0 Hs0') as (s3 & Hs3 & Huid).
           destruct (Hpods j name l s3 Hj Hl Hs3) as (rpod' & Hr' & Hsess).
           exists rpod'. split; [done|]. by rewrite Hsess, Huid.
Qed.

End bind_all.

(** The bind phase when nothing fails: the idle pods are distinct pods of
    the pool with no session, the pod manager finds each of them and every
    [OpenSession] succeeds. Then the loop binds the first
    min(#pending, #pods) pending sessions, the i-th one to the i-th pod:
    each of them is Starting afterwards and is the one session of its pod;
    no error is recorded. A pending session is left waiting only when the
    idle pods have run out. *)
Theorem bindPendingSessions_binds_in_order (E : Env) (key : string)
    (pending : list loc) (pods : list string) (w : World)
    (p : ApplicationPool) :
  (forall w0 pod s, sessionManager_OpenSession E w0 pod s = None) ->
  (forall w0 name, name ∈ pods -> is_Some (podManager_FindPod E w0 name)) ->
  applicationPools w !! key = Some p ->
  NoDup pods ->
  (forall name, name ∈ pods ->
     exists rpod, pool_pods p !! name = Some rpod
                  /\ podName rpod = name /\ sessions rpod = ∅) ->
  (forall l, l ∈ pending -> is_Some (heap w !! l)) ->
  exists w' p',
    bindPendingSessions E key (Some key) pending pods 0%nat [] w
    = Some ((Nat.min (length pending) (length pods), []), w')
    /\ applicationPools w' !! key = Some p'
    /\ pool_sessions p' = pool_sessions p
    /\ (forall i l, (i < Nat.min (length pending) (length pods))%nat ->
          pending !! i = Some l ->
          exists s', heap w' !! l = Some s'
                     /\ sessionStatus (Status s') = SessionStatusStarting)
    /\ (forall i name l s,
          pods !! i = Some name -> pending !! i = Some l ->
          heap w !! l = Some s ->
          exists rpod, pool_pods p' !! name = Some rpod
                       /\ sessions rpod = {[GetUID s]}).
Proof.
  intros Hopen Hfind Hpool Hnd Hidle Hlive.
  destruct (bindPendingSessions_all E key pending Hopen pods 0%nat [] w p
              Hfind Hpool Hnd Hidle Hlive)
    as (w' & p' & Hrun & Hp' & Hps & _ & Hstart & Hpods); [lia| |].
  { intros i l Hi. lia. }
  exists w', p'. by split_and!.
Qed.

Lemma bindPendingSessions_binds_in_order_witness :
  let s1 := sample.session "u1" "a/x" false SessionStatusPending None None in
  let s2 := sample.session "u2" "a/x" false SessionStatusPending None None in
  let pod1 := sample.pod "P1" [8080] in
  let E := sample.env [pod1] sample.noFailure in
  let pool := sample.pool [("u1", 0%nat); ("u2", 1%nat)]
                [NewApplicationPod "P1"] in
  let w := sample.world [s1; s2] {["a/x" := pool]} in
  exists w' p' rpod,
    bindPendingSessions E "a/x" (Some "a/x") [0%nat; 1%nat] ["P1"%string]
      0%nat [] w
    = Some ((1%nat, []), w')
    /\ applicationPools w' !! "a/x" = Some p'
    /\ pool_pods p' !! "P1" = Some rpod
    /\ sessions rpod = {["u1"]}.
Proof.
  intros s1 s2 pod1 E pool w.
  destruct (bindPendingSessions_binds_in_order E "a/x" [0%nat; 1%nat]
              ["P1"%string] w pool)
    as (w' & p' & Hrun & Hp' & _ & _ & Hpods).
  - reflexivity.
  - intros w0 name Hin. apply list_elem_of_singleton in Hin as ->. by eexists.
  - reflexivity.
  - apply NoDup_singleton.
  - intros name Hin. apply list_elem_of_singleton in Hin as ->.
    by exists (NewApplicationPod "P1").
  - intros l Hl. apply elem_of_cons in Hl as [-> | Hl]; [by exists s1|].
    apply list_elem_of_singleton in Hl as ->. by exists s2.
  - destruct (Hpods 0%nat "P1"%string 0%nat s1 eq_refl eq_refl eq_refl)
      as (rpod & Hr & Hs).
    exists w', p', rpod. split; [exact Hrun|]. split; [exact Hp'|].
    split; [exact Hr|exact Hs].
Defined.

(** ** onSessionEventFromNode for a cached session *)

(** A node session event for a session that the pool of its application
    caches under the same uid, with a label that is a valid key, from pools
    that hold live session objects. The handler returns nil, changes no
    session object and starts exactly one goroutine, which persists the
    reported status on a copy of the cached object. When the reported
    object is deeply equal to the cached one, the pools and the queue are
    as before. Otherwise the pool files the reported object under the uid
    in place of the cached one, or no object at all when the reported
    status is Closed or Timeout, and the application is enqueued once
    exactly when the report brings a deletion timestamp that the cached
    object lacks or a status that is not deeply equal to the cached
    one. *)
Theorem onSessionEventFromNode_cached (E : Env) (se : SessionEvent)
    (s so : ApplicationSession) (p : ApplicationPool) (v : loc) (w : World) :
  poolInv anySession w ->
  heap w !! Session se = Some s ->
  applicationPools w !! ApplicationName (Spec s) = Some p ->
  pool_sessions p !! GetUID s = Some v ->
  heap w !! v = Some so ->
  cache.SplitMetaNamespaceKey (ApplicationName (Spec s)) <> None ->
  (reflect_DeepEqual E w v (Session se) so s = true ->
   exists w',
     onSessionEventFromNode E se w = Some (None, w')
     /\ heap w' = heap w
     /\ applicationPools w' = applicationPools w
     /\ queue w' = queue w
     /\ goroutines w'
        = goroutines w ++ [GoUpdateSessionStatus v (Status s)])
  /\ (reflect_DeepEqual E w v (Session se) so s = false ->
      exists w1 w' p',
        onSessionEventFromNode E se w = Some (None, w')
        /\ heap w' = heap w
        /\ applicationPools w' !! ApplicationName (Spec s) = Some p'
        /\ pool_sessions p' !! GetUID s
           = (if util.SessionInTerminalState s
              then None else Some (Session se))
        /\ goroutines w'
           = goroutines w ++ [GoUpdateSessionStatus v (Status s)]
        /\ heap w1 = heap w /\ calls w1 = calls w /\ queue w1 = queue w
        /\ applicationPools w1 = applicationPools w'
        /\ queue w'
           = queue w
             ++ (if decide ((DeletionTimestamp s <> None
                             /\ DeletionTimestamp so = None)
                            \/ reflect_DeepEqual_Status E w1 v (Session se)
                                 (Status so) (Status s) = false)
                 then [ApplicationName (Spec s)] else [])).
Proof.
  intros Hinv Hs Hpool Hcached Hso Hvalid.
  pose proof (getSessionApplicationKey_valid s Hvalid) as Hkey.
  assert (Hstart : forall (w2 : World),
    heap w2 = heap w ->
    exists w',
      ((go (GoUpdateSessionStatus v (Status s)))
       >>
       let* s0 := load (Session se) in
       if KillInstanceWhenSessionClosed (Spec s0)
          && bool_decide (sessionStatus (Status s) = SessionStatusClosed)
          && PodNotTerminated E (Pod se)
       then podManager_TerminatePod_call E (Pod se) >> ret (@None string)
       else ret (@None string)) w2 = Some (None, w')
      /\ heap w' = heap w2
      /\ applicationPools w' = applicationPools w2
      /\ queue w' = queue w2
      /\ goroutines w'
         = goroutines w2 ++ [GoUpdateSessionStatus v (Status s)]).
  { intros w2 Hh2. unfold go at 1. unfold modifyWorld, bind at 1.
    set (w3 := setGoroutines _ w2).
    assert (Hs3 : heap w3 !! Session se = Some s) by (simpl; by rewrite Hh2).
    rewrite (bind_Some _ _ _ _ _ (load_Some _ _ _ Hs3)).
    destruct (KillInstanceWhenSessionClosed (Spec s)
              && bool_decide (sessionStatus (Status s) = SessionStatusClosed)
              && PodNotTerminated E (Pod se)); by eexists. }
  assert (Hhead : forall w2,
    onApplicationSessionUpdateEvent E v (Session se) w = Some (tt, w2) ->
    onSessionEventFromNode E se w
    = ((go (GoUpdateSessionStatus v (Status s)))
       >>
       let* s0 := load (Session se) in
       if KillInstanceWhenSessionClosed (Spec s0)
          && bool_decide (sessionStatus (Status s) = SessionStatusClosed)
          && PodNotTerminated E (Pod se)
       then podManager_TerminatePod_call E (Pod se) >> ret (@None string)
       else ret (@None string)) w2).
  { intros w2 Hrun. unfold onSessionEventFromNode.
    rewrite (bind_Some _ _ _ _ _ (load_Some _ _ _ Hs)).
    rewrite (bind_Some _ _ _ _ _ (getApplicationPool_run _ w)), Hpool.
    rewrite (bind_Some _ _ _ _ _ (getSession_run w _ p Hpool _)).
    rewrite Hcached. cbv iota.
    rewrite bind_assoc. by rewrite (bind_Some _ _ _ _ _ Hrun). }
  split.
  - intros Heq.
    assert (Hrun : onApplicationSessionUpdateEvent E v (Session se) w
                   = Some (tt, w)).
    { unfold onApplicationSessionUpdateEvent.
      rewrite (bind_Some _ _ _ _ _ (load_Some _ _ _ Hso)).
      rewrite (bind_Some _ _ _ _ _ (load_Some _ _ _ Hs)).
      unfold bind at 1, get at 1. by rewrite Heq. }
    rewrite (Hhead w Hrun).
    destruct (Hstart w eq_refl) as (w' & Hrun' & Hh & Hp & Hq & Hg).
    by exists w'.
  - intros Hne.
    destruct (onApplicationSessionUpdateEvent_run E v (Session se) so s
                (ApplicationName (Spec s)) w Hinv Hso Hs Hne Hkey)
      as (w1 & c & Hc & Hrun1 & Hh1 & Hc1 & Hq1 & Hg1 & p' & Hp' & Hfiled).
    assert (Hsrc : cachedLoc w (ApplicationName (Spec s)) (GetUID s) v = v).
    { unfold cachedLoc. by rewrite Hpool, Hcached. }
    rewrite Hsrc in Hc, Hrun1. rewrite Hso in Hc. injection Hc as <-.
    rewrite (Hhead _ Hrun1).
    exists w1.
    match goal with
    | |- context [decide ?P] => destruct (decide P) as [Hd|Hd]
    end.
    + destruct (Hstart (setQueue (queue w1 ++ [ApplicationName (Spec s)]) w1))
        as (w' & Hrun' & Hh & Hp & Hq & Hg); [done|].
      exists w', p'. split; [done|]. simpl in *.
      split_and!; first [done|congruence].
    + destruct (Hstart w1 Hh1) as (w' & Hrun' & Hh & Hp & Hq & Hg).
      exists w', p'. split; [done|]. rewrite app_nil_r.
      split_and!; first [done|congruence].
Qed.

Lemma onSessionEventFromNode_cached_witness :
  let cached := sample.session "u3" "a/x" true SessionStatusAvailable (Some "P3") None in
  let reported := sample.session "u3" "a/x" true SessionStatusClosed (Some "P3") None in
  let pod := sample.pod "P3" [8080] in
  let E := sample.env [pod] sample.noFailure in
  let w := sample.world [cached; reported]
             {["a/x" := sample.pool [("u3", 0%nat)] []]} in
  exists w' p',
    onSessionEventFromNode E {| Pod := pod; Session := 1%nat |} w
      = Some (None, w')
    /\ applicationPools w' !! "a/x" = Some p'
    /\ pool_sessions p' !! "u3" = None
    /\ goroutines w' = [GoUpdateSessionStatus 0%nat (Status reported)]
    /\ queue w' = ["a/x"%string].
Proof.
  intros cached reported pod E w.
  destruct (onSessionEventFromNode_cached E {| Pod := pod; Session := 1%nat |}
              reported cached (sample.pool [("u3", 0%nat)] []) 0%nat w)
    as (_ & H).
  - by apply (sample_poolInv anySession [cached; reported] "a/x" "u3" 0%nat []
                cached).
  - reflexivity.
  - reflexivity.
  - reflexivity.
  - reflexivity.
  - discriminate.
  - destruct (H eq_refl)
      as (w1 & w' & p' & Hrun & _ & Hp' & Hs' & Hg & _ & _ & _ & _ & Hq).
    exists w', p'. split; [exact Hrun|]. split; [exact Hp'|].
    split; [exact Hs'|]. split; [exact Hg|exact Hq].
Defined.
